(** * commander.js: the option tokenizer, the value binder and the
      command resolver of [index.js], embedded in Rocq.

    Strings are byte strings ([string] of the Standard Library): a token,
    a flag or a key is a sequence of 8-bit characters, and [toUpperCase]
    acts on the letters [a]..[z]; it is the [toUpperCase] of JavaScript
    on the characters below 128 only, and what is stated about a key
    computed from flags is stated for flags of such characters
    ([ascii_only]).  Errors are modelled by the [CommanderError] that
    [_exit] builds; [_exit] never returns (it ends in [process.exit]),
    so an error ends the run with that record.

    The listeners of the model are those the library installs itself in
    [_optionEx]; listeners added by the host program through [on] and the
    listener of the [version] option, which exits, are outside the model:
    a command of the model has no version option.

    Option values are properties of the command object, as they are
    under the default [_storeOptionsAsProperties]: the map
    [_optionValues] of the model holds the properties that
    [_setOptionValue] has assigned, and [_getOptionValue] reads a key
    that was not assigned as the member of the command object of that
    name when there is one (a method, a field), else as [undefined].
    An assignment under the name of a member replaces that member, and
    the library then goes on with the replaced member: a call of a
    method that was replaced is a [TypeError].  The fields of the record
    and the functions of the model are the members as the library left
    them, so the model follows the library as long as no option value
    has replaced a member.  This is [members_intact], and [members_kept]
    when no listener and no option of the command has the name of a
    member for its key, so that a run replaces none either.  The
    statements about stored values, about runs that call listeners and
    about the checks that read the members carry these as hypotheses,
    and what they state for a key they state for a key that names no
    member ([member_of_command]), or, where a member is read and
    written back only, none of the [other_fields]; examples show what
    becomes of options named [once], [emit], [name] or [options]. *)

From Stdlib Require Import ZArith Ascii String List Bool Lia.
From stdpp Require Import base option list strings gmap.
Import ListNotations.

Local Open Scope string_scope.
Local Open Scope list_scope.

(** ** JavaScript strings *)

Module JsString.

(** [s.slice(n)] for [0 <= n]. *)
Fixpoint slice_from (n : nat) (s : string) : string :=
  match n, s with
  | O, _ => s
  | S n', String _ s' => slice_from n' s'
  | S _, EmptyString => EmptyString
  end.

(** [s.slice(0, n)] for [0 <= n]. *)
Fixpoint slice_to (n : nat) (s : string) : string :=
  match n, s with
  | O, _ => EmptyString
  | S n', String c s' => String c (slice_to n' s')
  | S _, EmptyString => EmptyString
  end.

(** [s[i]]: [None] is JavaScript's [undefined]. *)
Definition char_at (i : nat) (s : string) : option ascii := String.get i s.

(** [s.startsWith(p)], the test behind a regular expression [/^p/]. *)
Fixpoint starts_with (p s : string) : bool :=
  match p, s with
  | EmptyString, _ => true
  | String a p', String b s' => Ascii.eqb a b && starts_with p' s'
  | String _ _, EmptyString => false
  end.

(** [s.indexOf(p)]: [None] is [-1]. *)
Fixpoint index_from (i : nat) (p s : string) : option nat :=
  if starts_with p s then Some i
  else match s with
       | EmptyString => None
       | String _ s' => index_from (S i) p s'
       end.

Definition indexOf (p s : string) : option nat := index_from 0 p s.

(** [s.replace(/^p/, r)]. *)
Definition replace_prefix (p r s : string) : string :=
  if starts_with p s then String.append r (slice_from (String.length p) s) else s.

(** [s.split(c)] for a one-character separator: never empty. *)
Fixpoint split_on (c : ascii) (s : string) : list string :=
  match s with
  | EmptyString => [EmptyString]
  | String a s' =>
      if Ascii.eqb a c then EmptyString :: split_on c s'
      else match split_on c s' with
           | w :: ws => String a w :: ws
           | [] => [String a EmptyString]
           end
  end.

(** [s.split(/[...]+/)] for the character class [sep]: a maximal run of
    separators is one cut; a run at the start or at the end of [s] leaves
    an empty piece there.  [in_run] says that the previous character was
    a separator. *)
Fixpoint split_runs (sep : ascii -> bool) (in_run : bool) (s : string) : list string :=
  match s with
  | EmptyString => [EmptyString]
  | String a s' =>
      if sep a then
        if in_run then split_runs sep true s'
        else EmptyString :: split_runs sep true s'
      else match split_runs sep false s' with
           | w :: ws => String a w :: ws
           | [] => [String a EmptyString]
           end
  end.

(** The character class of [/[ ,|]+/]. *)
Definition is_flag_separator (c : ascii) : bool :=
  Ascii.eqb c " " || Ascii.eqb c "," || Ascii.eqb c "|".

(** [s.split(/[ ,|]+/)]. *)
Definition split_flags (s : string) : list string :=
  split_runs is_flag_separator false s.

(** [s.split(/ +/)]. *)
Definition split_spaces (s : string) : list string :=
  split_runs (fun c => Ascii.eqb c " ") false s.

(** [s.slice(1, -1)]. *)
Definition slice_inner (s : string) : string :=
  slice_to (String.length s - 2) (slice_from 1 s).

(** [s.slice(-n)]. *)
Definition slice_last (n : nat) (s : string) : string :=
  slice_from (String.length s - n) s.

(** [s.slice(0, -n)]. *)
Definition slice_but_last (n : nat) (s : string) : string :=
  slice_to (String.length s - n) s.

(** [c.toUpperCase()] on a byte: the letters [a]..[z]. *)
Definition to_upper (c : ascii) : ascii :=
  let n := nat_of_ascii c in
  if (97 <=? n)%nat && (n <=? 122)%nat then ascii_of_nat (n - 32) else c.

End JsString.

Import JsString.

(** ** JavaScript values held by the option store *)

(** [VMember key] is a member of the command object that the model does
    not look into, as [this[key]] reads it: a function, an array or
    another object, or the counter [_eventsCount] of the emitter, which
    is not zero once a listener is registered. *)
Inductive value : Type :=
| VUndefined
| VNull
| VBool (b : bool)
| VNum (n : Z)
| VStr (s : string)
| VArr (items : list string)
| VMember (key : string).

(** The test of [if (v)] and of [v || w]. *)
Definition truthy (v : value) : bool :=
  match v with
  | VUndefined | VNull => false
  | VBool b => b
  | VNum n => negb (n =? 0)%Z
  | VStr s => negb (String.eqb s "")
  | VArr _ | VMember _ => true
  end.

(** [typeof v === 'boolean' || typeof v === 'undefined']. *)
Definition boolean_or_undefined (v : value) : bool :=
  match v with
  | VUndefined | VBool _ => true
  | _ => false
  end.

(** [v == null]. *)
Definition loosely_null (v : value) : bool :=
  match v with
  | VUndefined | VNull => true
  | _ => false
  end.

(** [v !== null]. *)
Definition not_null (v : value) : bool :=
  match v with
  | VNull => false
  | _ => true
  end.

(** [v !== undefined]. *)
Definition defined (v : value) : bool :=
  match v with
  | VUndefined => false
  | _ => true
  end.

(** [a || b]. *)
Definition js_or (a b : value) : value := if truthy a then a else b.

(** ** class Option *)

Record Option : Type := mkOption {
  flags : string;
  required : bool;
  optional : bool;
  mandatory : bool;
  negate : bool;
  short : option string;
  long : string;
  description : string;
  defaultValue : value
}.

(** [/^[[<]/.test(s)]. *)
Definition opens_value_marker (s : string) : bool :=
  starts_with "[" s || starts_with "<" s.

(** [new Option(flags, description)].  [split_flags] never returns the
    empty list, so [long] is always a string. *)
Definition new_Option (flags0 description0 : string) : Option :=
  let pieces := split_flags flags0 in
  let takes_short :=
    match pieces with
    | _ :: second :: _ => negb (opens_value_marker second)
    | _ => false
    end in
  let short0 := if takes_short then head pieces else None in
  let rest := if takes_short then tail pieces else pieces in
  {| flags := flags0;
     required := bool_decide (is_Some (indexOf "<" flags0));
     optional := bool_decide (is_Some (indexOf "[" flags0));
     mandatory := false;
     negate := bool_decide (is_Some (indexOf "-no-" flags0));
     short := short0;
     long := default EmptyString (head rest);
     description := description0;
     defaultValue := VUndefined |}.

Module Opt.

(** [option.name()]. *)
Definition name (o : Option) : string := replace_prefix "--" "" (long o).

(** [word[0].toUpperCase() + word.slice(1)]: [None] is the [TypeError]
    raised on an empty word. *)
Definition capitalize (word : string) : option string :=
  match word with
  | EmptyString => None
  | String c w => Some (String (to_upper c) w)
  end.

(** The [reduce] of [camelcase], from the second word on. *)
Fixpoint camel_reduce (str : string) (words : list string) : option string :=
  match words with
  | [] => Some str
  | word :: words' =>
      match capitalize word with
      | None => None
      | Some w => camel_reduce (String.append str w) words'
      end
  end.

(** [camelcase(flag)]. *)
Definition camelcase (flag : string) : option string :=
  match split_on "-" flag with
  | [] => None
  | first :: words => camel_reduce first words
  end.

(** [option.attributeName()]. *)
Definition attributeName (o : Option) : option string :=
  camelcase (replace_prefix "no-" "" (name o)).

(** [option.is(arg)] ([is] is reserved in Rocq). *)
Definition is_ (o : Option) (arg : string) : bool :=
  match short o with
  | Some s => String.eqb s arg
  | None => false
  end || String.eqb (long o) arg.

End Opt.

(** ** class Command *)

(** One entry of [_args], built by [_parseExpectedArgs]. *)
Record ArgDetails : Type := mkArgDetails {
  arg_required : bool;
  arg_name : string;
  arg_variadic : bool
}.

(** The closure that [_optionEx] registers with [this.on('option:' + oname, ...)]:
    the variables [option], [name], [fn] and [defaultValue] it captures. *)
Record Listener : Type := mkListener {
  l_option : Option;
  l_name : string;
  l_fn : option (value -> value -> value);
  l_defaultValue : value
}.

(** The fields of a command that parsing reads or writes.  [_actionHandler]
    records whether a handler is set, [_events] holds the listeners of
    [_optionEx] under their event names in registration order, and
    [commandStarListeners] is [listenerCount('command:*')].  The [parent]
    link is kept by the resolver as the chain of enclosing commands. *)
#[warnings="-register-all"]
Inductive Command : Type := mkCommand {
  commands : list Command;
  options : list Option;
  _allowUnknownOption : bool;
  _args : list ArgDetails;
  _name : string;
  _alias : option string;
  _optionValues : gmap string value;
  _actionHandler : bool;
  _executableHandler : bool;
  _defaultCommandName : option string;
  _hasImplicitHelpCommand : option bool;
  _helpShortFlag : string;
  _helpLongFlag : string;
  _helpCommandName : string;
  _events : list (string * Listener);
  commandStarListeners : nat
}.

(** [new Command(name)]. *)
Definition new_Command (name : string) : Command :=
  {| commands := [];
     options := [];
     _allowUnknownOption := false;
     _args := [];
     _name := name;
     _alias := None;
     _optionValues := ∅;
     _actionHandler := false;
     _executableHandler := false;
     _defaultCommandName := None;
     _hasImplicitHelpCommand := None;
     _helpShortFlag := "-h";
     _helpLongFlag := "--help";
     _helpCommandName := "help";
     _events := [];
     commandStarListeners := 0 |}.

Definition with_optionValues (m : gmap string value) (c : Command) : Command :=
  {| commands := commands c;
     options := options c;
     _allowUnknownOption := _allowUnknownOption c;
     _args := _args c;
     _name := _name c;
     _alias := _alias c;
     _optionValues := m;
     _actionHandler := _actionHandler c;
     _executableHandler := _executableHandler c;
     _defaultCommandName := _defaultCommandName c;
     _hasImplicitHelpCommand := _hasImplicitHelpCommand c;
     _helpShortFlag := _helpShortFlag c;
     _helpLongFlag := _helpLongFlag c;
     _helpCommandName := _helpCommandName c;
     _events := _events c;
     commandStarListeners := commandStarListeners c |}.

(** [this.options.push(option); this.on(event, listener)]. *)
Definition with_registration (o : Option) (event : string) (l : Listener)
    (c : Command) : Command :=
  {| commands := commands c;
     options := options c ++ [o];
     _allowUnknownOption := _allowUnknownOption c;
     _args := _args c;
     _name := _name c;
     _alias := _alias c;
     _optionValues := _optionValues c;
     _actionHandler := _actionHandler c;
     _executableHandler := _executableHandler c;
     _defaultCommandName := _defaultCommandName c;
     _hasImplicitHelpCommand := _hasImplicitHelpCommand c;
     _helpShortFlag := _helpShortFlag c;
     _helpLongFlag := _helpLongFlag c;
     _helpCommandName := _helpCommandName c;
     _events := _events c ++ [(event, l)];
     commandStarListeners := commandStarListeners c |}.

(** *** The members of a command object *)

(** The methods of [Command.prototype]. *)
Definition command_methods : list string :=
  [ "command"; "addCommand"; "arguments"; "addHelpCommand";
    "_lazyHasImplicitHelpCommand"; "_parseExpectedArgs"; "exitOverride"; "_exit";
    "action"; "_optionEx"; "option"; "requiredOption"; "allowUnknownOption";
    "storeOptionsAsProperties"; "passCommandToAction"; "_setOptionValue";
    "_getOptionValue"; "parse"; "parseAsync"; "_executeSubCommand";
    "_dispatchSubcommand"; "_parseCommand"; "_findCommand"; "_findOption";
    "_checkForMissingMandatoryOptions"; "parseOptions"; "opts"; "missingArgument";
    "optionMissingArgument"; "missingMandatoryOptionValue"; "unknownOption";
    "unknownCommand"; "variadicArgNotLast"; "version"; "description"; "alias";
    "usage"; "name"; "prepareCommands"; "largestCommandLength";
    "largestOptionLength"; "largestArgLength"; "padWidth"; "optionHelp";
    "commandHelp"; "helpInformation"; "outputHelp"; "helpOption"; "help";
    "_helpAndError" ].

(** The methods that a command inherits from [EventEmitter] and from
    [Object] in Node.js. *)
Definition inherited_methods : list string :=
  [ "setMaxListeners"; "getMaxListeners"; "emit"; "addListener"; "on";
    "prependListener"; "once"; "prependOnceListener"; "removeListener"; "off";
    "removeAllListeners"; "listeners"; "rawListeners"; "listenerCount";
    "eventNames";
    "constructor"; "hasOwnProperty"; "isPrototypeOf"; "propertyIsEnumerable";
    "toString"; "toLocaleString"; "valueOf"; "__proto__"; "__defineGetter__";
    "__defineSetter__"; "__lookupGetter__"; "__lookupSetter__" ].

(** The fields that the constructors set to an array. *)
Definition array_fields : list string :=
  [ "commands"; "options"; "_args"; "_actionResults" ].

(** The fields that the constructors set to an array or another object. *)
Definition object_fields : list string :=
  array_fields ++ [ "_optionValues"; "_events" ].

(** The other fields that the constructors set, and those that the
    library assigns later: [_alias] and the like in the calls that
    configure a command, [parent] in [command], [rawArgs] and [args]
    during [parse], the three classes on the exported [program]. *)
Definition other_fields : list string :=
  [ "_allowUnknownOption"; "_name"; "_storeOptionsAsProperties";
    "_passCommandToAction"; "_actionHandler"; "_executableHandler";
    "_executableFile"; "_defaultCommandName"; "_exitCallback"; "_noHelp";
    "_helpFlags"; "_helpDescription"; "_helpShortFlag"; "_helpLongFlag";
    "_hasImplicitHelpCommand"; "_helpCommandName"; "_helpCommandnameAndArgs";
    "_helpCommandDescription"; "_eventsCount"; "_maxListeners"; "domain";
    "_alias"; "_argsDescription"; "_description"; "_usage"; "_version";
    "_versionOptionName"; "args"; "parent"; "rawArgs"; "runningCommand";
    "Command"; "Option"; "CommanderError" ].

Definition listed (key : string) (names : list string) : bool :=
  existsb (String.eqb key) names.

(** The key names a member of a command object. *)
Definition member_of_command (key : string) : bool :=
  listed key (command_methods ++ inherited_methods ++ object_fields ++ other_fields).

(** [this[key]] for the name of a member that was not assigned through
    [_setOptionValue]: the method or the object, or the value of a field
    that the record keeps.  The fields that a new command has and the
    record does not keep read as the constructor sets them; the fields
    that are assigned later read as absent, which they are only until
    the call that assigns them ([command] for [parent], [parse] for
    [rawArgs] and [args], [description] for [_description], and so on).
    What is stated for every key is therefore stated for the keys that
    name no member. *)
Definition member_value (self : Command) (key : string) : value :=
  if listed key (command_methods ++ inherited_methods ++ object_fields)
  then VMember key
  else if String.eqb key "_allowUnknownOption" then VBool (_allowUnknownOption self)
  else if String.eqb key "_name" then VStr (_name self)
  else if String.eqb key "_alias" then
    match _alias self with Some a => VStr a | None => VUndefined end
  else if String.eqb key "_actionHandler" then
    if _actionHandler self then VMember key else VNull
  else if String.eqb key "_executableHandler" then VBool (_executableHandler self)
  else if String.eqb key "_defaultCommandName" then
    match _defaultCommandName self with Some n => VStr n | None => VNull end
  else if String.eqb key "_hasImplicitHelpCommand" then
    match _hasImplicitHelpCommand self with Some b => VBool b | None => VUndefined end
  else if String.eqb key "_helpShortFlag" then VStr (_helpShortFlag self)
  else if String.eqb key "_helpLongFlag" then VStr (_helpLongFlag self)
  else if String.eqb key "_helpCommandName" then VStr (_helpCommandName self)
  else if listed key ["_storeOptionsAsProperties"; "_passCommandToAction"]
  then VBool true
  else if String.eqb key "_noHelp" then VBool false
  else if listed key ["_executableFile"; "_exitCallback"] then VNull
  else if String.eqb key "_helpFlags" then VStr "-h, --help"
  else if listed key ["_helpDescription"; "_helpCommandDescription"]
  then VStr "display help for command"
  else if String.eqb key "_helpCommandnameAndArgs" then VStr "help [command]"
  else if String.eqb key "_eventsCount" then VMember key
  else VUndefined.

(** [_getOptionValue(key)], that is [this[key]]: the value assigned under
    the key, else the member of that name, else [undefined]. *)
Definition _getOptionValue (self : Command) (key : string) : value :=
  match _optionValues self !! key with
  | Some v => v
  | None => member_value self key
  end.

(** [_setOptionValue(key, value)], that is [this[key] = value].  Under
    the name of a member the assignment replaces the member, which the
    fields of the record do not show: see [members_intact].  (The
    accessor [__proto__] is one of these names: it takes an object for
    the prototype and ignores any other value but [null].) *)
Definition _setOptionValue (key : string) (v : value) (self : Command) : Command :=
  with_optionValues (<[key := v]> (_optionValues self)) self.

(** No option value has replaced a member of the command object so far:
    no property was assigned under the name of a member.  For such a
    command the fields of the record are the members of the object, and
    its methods are those of the library. *)
Definition members_intact (c : Command) : bool :=
  forallb (fun kv => negb (member_of_command (fst kv)))
    (map_to_list (_optionValues c)).

(** No option value has replaced a member, and none will: the members
    are intact, no listener of the command writes under the name of a
    member, and no option of the command has the name of a member for
    its key. *)
Definition members_kept (c : Command) : bool :=
  members_intact c
  && forallb (fun el => negb (member_of_command (l_name (snd el)))) (_events c)
  && forallb (fun o => match Opt.attributeName o with
                       | Some key => negb (member_of_command key)
                       | None => true
                       end) (options c).

(** [_findOption(arg)]: the first registered option that [is] [arg]. *)
Definition _findOption (self : Command) (arg : string) : option Option :=
  List.find (fun o => Opt.is_ o arg) (options self).

(** The test of [_findCommand]: [cmd._name === name || cmd._alias === name]. *)
Definition answers_to (name : string) (cmd : Command) : bool :=
  String.eqb (_name cmd) name
  || match _alias cmd with
     | Some a => String.eqb a name
     | None => false
     end.

(** [_findCommand(name)].  [!name] holds for the empty string and for
    [undefined], which is [None] here. *)
Definition _findCommand (self : Command) (name : option string) : option Command :=
  match name with
  | None => None
  | Some n =>
      if String.eqb n "" then None
      else List.find (answers_to n) (commands self)
  end.

(** ** The value binder: [_optionEx] and its listener *)

(** The body of the listener of [_optionEx], called with [val]. *)
Definition run_listener (l : Listener) (val : value) (self : Command) : Command :=
  let name := l_name l in
  (* coercion *)
  let val :=
    match l_fn l with
    | Some fn =>
        if not_null val then
          fn val (if defined (_getOptionValue self name)
                  then _getOptionValue self name
                  else l_defaultValue l)
        else val
    | None => val
    end in
  (* unassigned or boolean value *)
  if boolean_or_undefined (_getOptionValue self name) then
    if loosely_null val then
      _setOptionValue name
        (if negate (l_option l) then VBool false
         else js_or (l_defaultValue l) (VBool true)) self
    else _setOptionValue name val self
  else if not_null val then
    (* reassign *)
    _setOptionValue name (if negate (l_option l) then VBool false else val) self
  else self.

(** [this.emit(event, val)]: the listeners of [event], in registration
    order, on a command whose method [emit] and listener table are those
    of the library ([members_intact]). *)
Definition emit (event : string) (val : value) (self : Command) : Command :=
  fold_left
    (fun c el => if String.eqb (fst el) event then run_listener (snd el) val c else c)
    (_events self) self.

(** The third argument of [option(flags, description, fn, defaultValue)]:
    a function (a [RegExp] is turned into one by [_optionEx]) or any other
    value, which is then the default. *)
Inductive fn_arg : Type :=
| FnFunction (fn : value -> value -> value)
| FnValue (v : value).

Definition with_mandatory (m : bool) (o : Option) : Option :=
  {| flags := flags o; required := required o; optional := optional o;
     mandatory := m; negate := negate o; short := short o; long := long o;
     description := description o; defaultValue := defaultValue o |}.

Definition with_defaultValue (v : value) (o : Option) : Option :=
  {| flags := flags o; required := required o; optional := optional o;
     mandatory := mandatory o; negate := negate o; short := short o; long := long o;
     description := description o; defaultValue := v |}.

Definition is_boolean (v : value) : bool :=
  match v with VBool _ => true | _ => false end.

(** The value is an array. *)
Definition is_array (v : value) : bool :=
  match v with
  | VArr _ => true
  | VMember key => listed key array_fields
  | _ => false
  end.

(** The value is a function: a method of the command, or its action
    handler. *)
Definition is_function (v : value) : bool :=
  match v with
  | VMember key =>
      listed key (command_methods ++ inherited_methods)
      && negb (String.eqb key "__proto__")
      || String.eqb key "_actionHandler"
  | _ => false
  end.

(** The value is neither an object nor [undefined]. *)
Definition is_primitive (v : value) : bool :=
  match v with
  | VNull | VBool _ | VNum _ | VStr _ => true
  | VMember key => String.eqb key "_eventsCount"
  | _ => false
  end.

(** After the default [v] was assigned under [key], the calls
    [this.options.push(option)] and [this.on(...)] that end [_optionEx]
    throw a [TypeError] when [options] is no longer an array, when [on]
    is no longer a function, or when the listener table [_events] of the
    emitter is a primitive value, which takes no property.  (A method
    other than [on] given as the default of an option whose key is [on]
    would be called in its place; the model takes it for [on].) *)
Definition registration_throws (key : string) (v : value) : bool :=
  if String.eqb key "options" then negb (is_array v)
  else if String.eqb key "on" then negb (is_function v)
  else if String.eqb key "_events" then is_primitive v
  else false.

(** [_optionEx(config, flags, description, fn, defaultValue)].  [None] is
    a [TypeError]: that of [attributeName] on a name with an empty word,
    or that of [registration_throws]. *)
Definition _optionEx (config_mandatory : bool) (flags0 description0 : string)
    (fn0 : fn_arg) (defaultValue0 : value) (self : Command) : option Command :=
  let option := with_mandatory config_mandatory (new_Option flags0 description0) in
  let oname := Opt.name option in
  match Opt.attributeName option with
  | None => None
  | Some name =>
      (* default as 3rd arg *)
      let fn := match fn0 with FnFunction f => Some f | FnValue _ => None end in
      let defaultValue1 :=
        match fn0 with FnFunction _ => defaultValue0 | FnValue v => v end in
      (* preassign default value *)
      let preassign :=
        negate option || optional option || required option
        || is_boolean defaultValue1 in
      let defaultValue2 :=
        if preassign && negate option then
          let positiveLongFlag := replace_prefix "--no-" "--" (long option) in
          match _findOption self positiveLongFlag with
          | Some _ => _getOptionValue self name
          | None => VBool true
          end
        else defaultValue1 in
      let assigned := preassign && defined defaultValue2 in
      let self1 := if assigned then _setOptionValue name defaultValue2 self else self in
      let option1 := if assigned then with_defaultValue defaultValue2 option else option in
      (* register the option *)
      if assigned && registration_throws name defaultValue2 then None
      else
        Some (with_registration option1 (String.append "option:" oname)
                {| l_option := option1; l_name := name; l_fn := fn;
                   l_defaultValue := defaultValue2 |}
                self1)
  end.

(** [option(flags, description, fn, defaultValue)]. *)
Definition option_ (flags0 description0 : string) (fn0 : fn_arg)
    (defaultValue0 : value) (self : Command) : option Command :=
  _optionEx false flags0 description0 fn0 defaultValue0 self.

(** [requiredOption(flags, description, fn, defaultValue)]. *)
Definition requiredOption (flags0 description0 : string) (fn0 : fn_arg)
    (defaultValue0 : value) (self : Command) : option Command :=
  _optionEx true flags0 description0 fn0 defaultValue0 self.

(** ** The tokenizer: [parseOptions] *)

(** What [_exit(exitCode, code, message)] hands to the exit callback. *)
Record CommanderError : Type := mkCommanderError {
  exitCode : Z;
  code : string;
  message : string
}.

(** [optionMissingArgument(option)], called without a [flag]. *)
Definition optionMissingArgument (o : Option) : CommanderError :=
  {| exitCode := 1;
     code := "commander.optionMissingArgument";
     message := String.append "error: option '"
                  (String.append (flags o) "' argument missing") |}.

(** The arrays that [parseOptions] refers to: the parameter [argv], its
    copy [args], and the two result arrays.  [dest] is a reference to one
    of them. *)
Inductive array_ref : Type := Argv | Args | Operands | Unknown.

(** The contents of the four arrays. *)
Record arrays : Type := mkArrays {
  argv : list string;
  args : list string;
  operands : list string;
  unknown : list string
}.

(** The contents of the array [r] refers to. *)
Definition read (r : array_ref) (a : arrays) : list string :=
  match r with
  | Argv => argv a
  | Args => args a
  | Operands => operands a
  | Unknown => unknown a
  end.

(** The array [r] refers to gets the contents [l]; the others keep theirs. *)
Definition write (r : array_ref) (l : list string) (a : arrays) : arrays :=
  match r with
  | Argv => {| argv := l; args := args a; operands := operands a; unknown := unknown a |}
  | Args => {| argv := argv a; args := l; operands := operands a; unknown := unknown a |}
  | Operands => {| argv := argv a; args := args a; operands := l; unknown := unknown a |}
  | Unknown => {| argv := argv a; args := args a; operands := operands a; unknown := l |}
  end.

(** [r === r']. *)
Definition same_array (r r' : array_ref) : bool :=
  match r, r' with
  | Argv, Argv | Args, Args | Operands, Operands | Unknown, Unknown => true
  | _, _ => false
  end.

(** [r.shift()]: [None] is [undefined], on the empty array. *)
Definition shift (r : array_ref) (a : arrays) : option string * arrays :=
  match read r a with
  | [] => (None, a)
  | x :: l => (Some x, write r l a)
  end.

(** A shifted element as a value. *)
Definition value_of_shift (x : option string) : value :=
  match x with
  | Some t => VStr t
  | None => VUndefined
  end.

(** [r.unshift(x)]. *)
Definition unshift (r : array_ref) (x : string) (a : arrays) : arrays :=
  write r (x :: read r a) a.

(** [r.push(...xs)]. *)
Definition push (r : array_ref) (xs : list string) (a : arrays) : arrays :=
  write r (read r a ++ xs) a.

(** The variables of a run of [parseOptions]. *)
Record loop_state : Type := mkLoopState {
  self : Command;
  mem : arrays;
  dest : array_ref
}.

(** [maybeOption(arg)]. *)
Definition maybeOption (arg : string) : bool :=
  (1 <? String.length arg)%nat && starts_with "-" arg.

(** [arg.length > 2 && arg[0] === '-' && arg[1] !== '-']. *)
Definition combo_shaped (arg : string) : bool :=
  (2 <? String.length arg)%nat && starts_with "-" arg
  && negb (starts_with "--" arg).

(** [/^--[^=]+=/.test(arg)]: after [--], the first [=] comes after at
    least one other character.  As neither dash is an [=], that first
    [=] is [arg.indexOf('=')]. *)
Definition long_with_value (arg : string) : option nat :=
  if starts_with "--" arg then
    match indexOf "=" arg with
    | Some index => if (3 <=? index)%nat then Some index else None
    | None => None
    end
  else None.

Inductive step_result : Type :=
| Continue (s : loop_state)   (* the next test of [while (args.length)] *)
| Done (s : loop_state)       (* the loop is left: [return { operands, unknown }] *)
| Abort (e : CommanderError) (s : loop_state).

(** [this.emit(`option:${option.name()}`, value)]. *)
Definition emit_option (o : Option) (val : value) (s : loop_state) : loop_state :=
  {| self := emit (String.append "option:" (Opt.name o)) val (self s);
     mem := mem s; dest := dest s |}.

(** The state with the arrays [a]. *)
Definition with_mem (a : arrays) (s : loop_state) : loop_state :=
  {| self := self s; mem := a; dest := dest s |}.

(** [dest = r]. *)
Definition with_dest (r : array_ref) (s : loop_state) : loop_state :=
  {| self := self s; mem := mem s; dest := r |}.

(** The end of the loop body, reached when no option consumed [arg]. *)
Definition add_arg (arg : string) (s : loop_state) : step_result :=
  (* looks like an option but unknown, unknowns from here *)
  let s1 := if maybeOption arg then with_dest Unknown s else s in
  (* add arg *)
  Continue (with_mem (push (dest s1) [arg] (mem s1)) s1).

(** The part of the body from "Look for known long flag with value". *)
Definition long_flag_with_value (arg : string) (s : loop_state) : step_result :=
  match long_with_value arg with
  | Some index =>
      match _findOption (self s) (slice_to index arg) with
      | Some option =>
          if required option || optional option then
            Continue (emit_option option (VStr (slice_from (index + 1) arg)) s)
          else add_arg arg s
      | None => add_arg arg s
      end
  | None => add_arg arg s
  end.

(** The part of the body from "Look for combo options". *)
Definition combo_option (arg : string) (s : loop_state) : step_result :=
  match (if combo_shaped arg
         then _findOption (self s) (String.append "-" (slice_to 1 (slice_from 1 arg)))
         else None) with
  | Some option =>
      if required option || optional option then
        (* option with value following in same argument *)
        Continue (emit_option option (VStr (slice_from 2 arg)) s)
      else
        (* boolean option, emit and put back remainder of arg *)
        let s1 := emit_option option VUndefined s in
        Continue (with_mem (unshift Args (String.append "-" (slice_from 2 arg)) (mem s1)) s1)
  | None => long_flag_with_value arg s
  end.

(** One turn of [while (args.length) { ... }], test included. *)
Definition step (s : loop_state) : step_result :=
  match shift Args (mem s) with
  | (None, _) => Done s
  | (Some arg, m1) =>
      let s1 := with_mem m1 s in
      (* literal *)
      if String.eqb arg "--" then
        let s2 := if same_array (dest s1) Unknown
                  then with_mem (push (dest s1) [arg] (mem s1)) s1 else s1 in
        Done (with_mem (push (dest s2) (read Args (mem s2)) (mem s2)) s2)
      else
        match (if maybeOption arg then _findOption (self s1) arg else None) with
        | Some option =>
            (* recognised option *)
            if required option then
              match shift Args (mem s1) with
              | (None, _) => Abort (optionMissingArgument option) s1
              | (Some value, m2) =>
                  Continue (emit_option option (VStr value) (with_mem m2 s1))
              end
            else if optional option then
              (* optional value is following arg unless an option *)
              let taken :=
                if (0 <? length (read Args (mem s1)))%nat
                   && negb (maybeOption (hd EmptyString (read Args (mem s1))))
                then let (v, m2) := shift Args (mem s1) in (value_of_shift v, m2)
                else (VNull, mem s1) in
              Continue (emit_option option (fst taken) (with_mem (snd taken) s1))
            else (* boolean flag *)
              Continue (emit_option option VUndefined s1)
        | None => combo_option arg s1
        end
  end.

Inductive parse_result : Type :=
| Returned (s : loop_state)
| Exited (e : CommanderError) (s : loop_state)
| OutOfFuel.

(** The [while] loop, with a bound on the number of turns. *)
Fixpoint parse_loop (fuel : nat) (s : loop_state) : parse_result :=
  match fuel with
  | O => OutOfFuel
  | S fuel' =>
      match step s with
      | Continue s' => parse_loop fuel' s'
      | Done s' => Returned s'
      | Abort e s' => Exited e s'
      end
  end.

(** A turn that continues takes one token off [args] and puts back at
    most the token less one character: this sum goes down. *)
Definition queue_size (l : list string) : nat :=
  list_sum (map (fun t => S (String.length t)) l).

(** [parseOptions(argv)]: [args] is [argv.slice()], both results start
    empty and [dest] refers to [operands]. *)
Definition parseOptions (this : Command) (argv0 : list string) : parse_result :=
  parse_loop (S (queue_size argv0))
    {| self := this;
       mem := {| argv := argv0; args := argv0; operands := []; unknown := [] |};
       dest := Operands |}.

(** ** Building a command tree *)

Definition with_commands (x : list Command) (c : Command) : Command :=
  let 'mkCommand _ os au ar n al ov ah eh dc ih hs hl hc ev sl := c in
  mkCommand x os au ar n al ov ah eh dc ih hs hl hc ev sl.

Definition with_name (x : string) (c : Command) : Command :=
  let 'mkCommand cs os au ar _ al ov ah eh dc ih hs hl hc ev sl := c in
  mkCommand cs os au ar x al ov ah eh dc ih hs hl hc ev sl.

Definition with_allowUnknownOption (x : bool) (c : Command) : Command :=
  let 'mkCommand cs os _ ar n al ov ah eh dc ih hs hl hc ev sl := c in
  mkCommand cs os x ar n al ov ah eh dc ih hs hl hc ev sl.

Definition with_args (x : list ArgDetails) (c : Command) : Command :=
  let 'mkCommand cs os au _ n al ov ah eh dc ih hs hl hc ev sl := c in
  mkCommand cs os au x n al ov ah eh dc ih hs hl hc ev sl.

Definition with_alias (x : option string) (c : Command) : Command :=
  let 'mkCommand cs os au ar n _ ov ah eh dc ih hs hl hc ev sl := c in
  mkCommand cs os au ar n x ov ah eh dc ih hs hl hc ev sl.

Definition with_actionHandler (x : bool) (c : Command) : Command :=
  let 'mkCommand cs os au ar n al ov _ eh dc ih hs hl hc ev sl := c in
  mkCommand cs os au ar n al ov x eh dc ih hs hl hc ev sl.

Definition with_executableHandler (x : bool) (c : Command) : Command :=
  let 'mkCommand cs os au ar n al ov ah _ dc ih hs hl hc ev sl := c in
  mkCommand cs os au ar n al ov ah x dc ih hs hl hc ev sl.

Definition with_defaultCommandName (x : option string) (c : Command) : Command :=
  let 'mkCommand cs os au ar n al ov ah eh _ ih hs hl hc ev sl := c in
  mkCommand cs os au ar n al ov ah eh x ih hs hl hc ev sl.

(** The help settings that [command] copies from the parent. *)
Definition with_help_of (parent : Command) (c : Command) : Command :=
  let 'mkCommand cs os au ar n al ov ah eh dc ih _ _ _ ev sl := c in
  mkCommand cs os au ar n al ov ah eh dc ih
    (_helpShortFlag parent) (_helpLongFlag parent) (_helpCommandName parent) ev sl.

(** One turn of the [forEach] of [_parseExpectedArgs]: [None] when the
    name is empty and nothing is pushed. *)
Definition expected_arg (arg : string) : option ArgDetails :=
  let name0 :=
    if starts_with "<" arg || starts_with "[" arg then slice_inner arg
    else EmptyString in
  let variadic :=
    (3 <? String.length name0)%nat && String.eqb (slice_last 3 name0) "..." in
  let name1 := if variadic then slice_but_last 3 name0 else name0 in
  if String.eqb name1 "" then None
  else Some {| arg_required := starts_with "<" arg;
               arg_name := name1;
               arg_variadic := variadic |}.

(** [_parseExpectedArgs(args)]. *)
Definition _parseExpectedArgs (args0 : list string) (this : Command) : Command :=
  with_args (_args this ++ omap expected_arg args0) this.

(** [action(fn)]. *)
Definition action (this : Command) : option Command :=
  Some (with_actionHandler true this).

(** [allowUnknownOption()]. *)
Definition allowUnknownOption (this : Command) : option Command :=
  Some (with_allowUnknownOption true this).

(** [alias(alias)] with an argument: on a command with subcommands the
    alias goes to the last of them; [None] is the [Error] thrown when the
    alias is the name. *)
Definition alias (a : string) (this : Command) : option Command :=
  match reverse (commands this) with
  | command :: before =>
      if String.eqb a (_name command) then None
      else Some (with_commands (reverse before ++ [with_alias (Some a) command]) this)
  | [] =>
      if String.eqb a (_name this) then None
      else Some (with_alias (Some a) this)
  end.

(** [command(nameAndArgs, opts)] followed by the calls [configure] on the
    command it returns, and [command(nameAndArgs, description, opts)] for
    an [executable] subcommand.  The source pushes the new command before
    it is configured and configures it in place; here it is pushed once
    configured. *)
Definition command (nameAndArgs : string) (executable isDefault : bool)
    (configure : Command -> option Command) (this : Command) : option Command :=
  let pieces := split_spaces nameAndArgs in
  let cmd := new_Command (hd EmptyString pieces) in
  let cmd := with_executableHandler executable (with_help_of this cmd) in
  let this1 := if isDefault then with_defaultCommandName (Some (_name cmd)) this
               else this in
  match configure (_parseExpectedArgs (tail pieces) cmd) with
  | Some cmd' => Some (with_commands (commands this1 ++ [cmd']) this1)
  | None => None
  end.

(** Builder-style chaining, [program.option(...).option(...)]: the calls
    in order, stopping at the first that throws. *)
Definition chained (calls : list (Command -> option Command)) (c : Command)
    : option Command :=
  fold_left (fun acc call => match acc with Some c' => call c' | None => None end)
    calls (Some c).

(** ** The resolver: [_parseCommand] *)

(** [missingArgument(name)]. *)
Definition missingArgument (name : string) : CommanderError :=
  {| exitCode := 1;
     code := "commander.missingArgument";
     message := String.append "error: missing required argument '"
                  (String.append name "'") |}.

(** [missingMandatoryOptionValue(option)]. *)
Definition missingMandatoryOptionValue (o : Option) : CommanderError :=
  {| exitCode := 1;
     code := "commander.missingMandatoryOptionValue";
     message := String.append "error: required option '"
                  (String.append (flags o) "' not specified") |}.

(** The error of [unknownOption(flag)] when unknown options are refused. *)
Definition unknownOptionError (flag : string) : CommanderError :=
  {| exitCode := 1;
     code := "commander.unknownOption";
     message := String.append "error: unknown option '" (String.append flag "'") |}.

(** [unknownCommand()], with [first] for [this.args[0]]. *)
Definition unknownCommand (first : string) : CommanderError :=
  {| exitCode := 1;
     code := "commander.unknownCommand";
     message := String.append "error: unknown command '" (String.append first "'") |}.

(** [variadicArgNotLast(name)]. *)
Definition variadicArgNotLast (name : string) : CommanderError :=
  {| exitCode := 1;
     code := "commander.variadicArgNotLast";
     message := String.append "error: variadic arguments must be last '"
                  (String.append name "'") |}.

(** The exit of [outputHelpIfRequested]. *)
Definition helpDisplayed : CommanderError :=
  {| exitCode := 0; code := "commander.helpDisplayed"; message := "(outputHelp)" |}.

(** The exit of [help()]; [process.exitCode] is left unset by the library,
    so [process.exitCode || 0] is [0]. *)
Definition help : CommanderError :=
  {| exitCode := 0; code := "commander.help"; message := "(outputHelp)" |}.

(** The exit of [_helpAndError()]. *)
Definition _helpAndError : CommanderError :=
  {| exitCode := 1; code := "commander.help"; message := "(outputHelp)" |}.

(** An element of the array handed to the action handler: an operand, the
    array a variadic argument collects, or a hole of the array. *)
#[warnings="-register-all"]
Inductive arg_value : Type :=
| AString (s : string)
| AArray (items : list arg_value)
| AEmpty.

(** How a run of [_parseCommand] ends. *)
Inductive outcome : Type :=
| Exit (e : CommanderError)
    (* [_exit]: the exit callback, then [process.exit] *)
| TypeError
    (* a [TypeError]: [attributeName] of an option whose name has an empty
       word, [path.extname] of a script name that is missing *)
| ActionCalled (this : Command) (args : list arg_value)
    (* [this._actionHandler(args)] *)
| SubCommandExecuted (parent sub : Command) (args : list string)
    (* [_executeSubCommand], past its check: the child process is started *)
| CommandStarEmitted (this : Command) (operands unknown : list string)
    (* [this.emit('command:*', operands, unknown)] *)
| ReturnedToCaller (this : Command)
    (* nothing to call: [parse] returns to its caller *)
| NoFuel.

(** A statement that may end the run: [None] lets it go on. *)
Definition guard (stop : option outcome) (next : outcome) : outcome :=
  match stop with
  | Some o => o
  | None => next
  end.

Notation "stop ;;; next" := (guard stop next)
  (at level 95, right associativity, only parsing).

(** [outputHelpIfRequested(cmd, args)]: the flag found must be truthy. *)
Definition outputHelpIfRequested (cmd : Command) (args0 : list string)
    : option outcome :=
  match List.find (fun arg => String.eqb arg (_helpLongFlag cmd)
                              || String.eqb arg (_helpShortFlag cmd)) args0 with
  | Some helpOption =>
      if negb (String.eqb helpOption "") then Some (Exit helpDisplayed) else None
  | None => None
  end.

(** The [forEach] of [_checkForMissingMandatoryOptions] over the options
    of one command. *)
Fixpoint check_mandatory_options (cmd : Command) (os : list Option)
    : option outcome :=
  match os with
  | [] => None
  | anOption :: os' =>
      if mandatory anOption then
        match Opt.attributeName anOption with
        | None => Some TypeError
        | Some key =>
            if defined (_getOptionValue cmd key)
            then check_mandatory_options cmd os'
            else Some (Exit (missingMandatoryOptionValue anOption))
        end
      else check_mandatory_options cmd os'
  end.

(** [_checkForMissingMandatoryOptions()], on the chain
    [this, this.parent, this.parent.parent, ...]. *)
Fixpoint _checkForMissingMandatoryOptions (chain : list Command) : option outcome :=
  match chain with
  | [] => None
  | cmd :: parents =>
      match check_mandatory_options cmd (options cmd) with
      | Some o => Some o
      | None => _checkForMissingMandatoryOptions parents
      end
  end.

(** [unknownOption(flag)]. *)
Definition unknownOption (this : Command) (flag : string) : option outcome :=
  if _allowUnknownOption this then None
  else Some (Exit (unknownOptionError flag)).

(** [args[i] == null]: a hole, or an index past the end. *)
Definition arg_missing (args0 : list arg_value) (i : nat) : bool :=
  match args0 !! i with
  | Some AEmpty | None => true
  | Some _ => false
  end.

(** [args[i] = args.splice(i)]: [splice] cuts the array at [i], and the
    assignment at [i] leaves holes when the array was shorter. *)
Definition splice_into (i : nat) (args0 : list arg_value) : list arg_value :=
  take i args0 ++ replicate (i - length args0) AEmpty ++ [AArray (drop i args0)].

(** The [forEach] over [this._args], from index [i] on; [count] is
    [self._args.length]. *)
Fixpoint bind_args (count i : nat) (descs : list ArgDetails)
    (args0 : list arg_value) : outcome + list arg_value :=
  match descs with
  | [] => inr args0
  | arg :: descs' =>
      if arg_required arg && arg_missing args0 i then
        inl (Exit (missingArgument (arg_name arg)))
      else if arg_variadic arg then
        if negb (i =? count - 1)%nat then
          inl (Exit (variadicArgNotLast (arg_name arg)))
        else bind_args count (S i) descs' (splice_into i args0)
      else bind_args count (S i) descs' args0
  end.

(** [_lazyHasImplicitHelpCommand()], as the truth value it returns. *)
Definition _lazyHasImplicitHelpCommand (this : Command) : bool :=
  match _hasImplicitHelpCommand this with
  | Some b => b
  | None =>
      (0 <? length (commands this))%nat && negb (_actionHandler this)
      && negb (bool_decide (is_Some (_findCommand this (Some "help"))))
  end.

(** The truth value of [this._defaultCommandName]. *)
Definition has_default_command (this : Command) : bool :=
  match _defaultCommandName this with
  | Some n => negb (String.eqb n "")
  | None => false
  end.

(** [operands[0] === this._helpCommandName]. *)
Definition names_help_command (this : Command) (operands0 : list string) : bool :=
  match head operands0 with
  | Some first => String.eqb first (_helpCommandName this)
  | None => false
  end.

(** The last branch of [_parseCommand]: no subcommand, help command or
    default command took the arguments.  [dispatch] is
    [this._dispatchSubcommand]. *)
Definition parse_terminal (parents : list Command) (this : Command)
    (operands0 unknown0 : list string)
    (dispatch : option string -> list string -> list string -> outcome)
    : outcome :=
  let args0 := operands0 ++ unknown0 in
  (if (0 <? length (commands this))%nat && (length args0 =? 0)%nat
      && negb (_actionHandler this) && negb (has_default_command this)
   then Some (Exit _helpAndError) else None) ;;;
  outputHelpIfRequested this unknown0 ;;;
  _checkForMissingMandatoryOptions (this :: parents) ;;;
  (match unknown0 with
   | first :: _ => unknownOption this first
   | [] => None
   end) ;;;
  if _actionHandler this then
    match bind_args (length (_args this)) 0 (_args this) (map AString args0) with
    | inl o => o
    | inr args1 => ActionCalled this args1
    end
  else if (0 <? length operands0)%nat then
    if bool_decide (is_Some (_findCommand this (Some "*"))) then
      dispatch (Some "*") operands0 unknown0
    else if (0 <? commandStarListeners this)%nat then
      CommandStarEmitted this operands0 unknown0
    else if (0 <? length (commands this))%nat then
      Exit (unknownCommand (hd EmptyString args0))
    else ReturnedToCaller this
  else if (0 <? length (commands this))%nat then
    Exit _helpAndError
  else ReturnedToCaller this.

(** [_parseCommand(operands, unknown)] with [_dispatchSubcommand] and the
    start of [_executeSubCommand] in place; [parents] is the chain of
    [parent] links of [this0], closest first.  The commands form a tree:
    a subcommand has the command that holds it as its [parent], as
    [command] leaves it, so the chain of a subcommand is the command it
    was dispatched from and then the chain of that command; one command
    put under two parents by [addCommand] is outside the model.  Each
    call goes one level down the tree, and [fuel] bounds the depth. *)
Fixpoint _parseCommand (fuel : nat) (parents : list Command) (this0 : Command)
    (operands0 unknown0 : list string) : outcome :=
  match fuel with
  | O => NoFuel
  | S fuel' =>
      match parseOptions this0 unknown0 with
      | OutOfFuel => NoFuel
      | Exited e _ => Exit e
      | Returned parsed =>
          let this := self parsed in
          let operands1 := operands0 ++ operands (mem parsed) in
          let unknown1 := unknown (mem parsed) in
          let _dispatchSubcommand commandName operands2 unknown2 :=
            match _findCommand this commandName with
            | None => Exit _helpAndError
            | Some subCommand =>
                if _executableHandler subCommand then
                  _checkForMissingMandatoryOptions (this :: parents) ;;;
                  SubCommandExecuted this subCommand (operands2 ++ unknown2)
                else
                  _parseCommand fuel' (this :: parents) subCommand operands2 unknown2
            end in
          if bool_decide (is_Some (_findCommand this (head operands1))) then
            _dispatchSubcommand (head operands1) (tail operands1) unknown1
          else if _lazyHasImplicitHelpCommand this
                  && names_help_command this operands1 then
            if (length operands1 =? 1)%nat then Exit help
            else _dispatchSubcommand (operands1 !! 1%nat) [] [_helpLongFlag this]
          else if has_default_command this then
            outputHelpIfRequested this unknown1 ;;;
            _dispatchSubcommand (_defaultCommandName this) operands1 unknown1
          else
            parse_terminal parents this operands1 unknown1 _dispatchSubcommand
      end
  end.

(** The number of levels of a command tree. *)
Fixpoint levels (c : Command) : nat :=
  S (list_max (map levels (commands c))).

(** The last part of a path: what follows the last [/], once the [/] at
    the end of the path are dropped. *)
Definition last_part (path : string) : string :=
  default EmptyString
    (List.find (fun w => negb (String.eqb w "")) (reverse (split_on "/" path))).

(** The index of the last [.] of [s], counted from [i]. *)
Fixpoint last_dot (i : nat) (s : string) : option nat :=
  match s with
  | EmptyString => None
  | String c s' =>
      match last_dot (S i) s' with
      | Some j => Some j
      | None => if Ascii.eqb c "." then Some i else None
      end
  end.

(** [path.basename(p, path.extname(p))] of Node.js with POSIX paths: the
    last part of the path without its extension.  The extension starts
    at the last [.] of that part, unless this is its first character or
    the part is [..]. *)
Definition script_name (path : string) : string :=
  let base := last_part path in
  match last_dot 0 base with
  | Some (S j) => if String.eqb base ".." then base else slice_to (S j) base
  | _ => base
  end.

(** [parse(argv)], called on the root of a command tree: the first two
    elements of [argv] are the interpreter and the script, and a command
    without a name takes the name of the script; without a script,
    [path.extname(undefined)] is a [TypeError].  The chain of parents
    starts empty: a root has no [parent]. *)
Definition parse (this : Command) (argv0 : list string) : outcome :=
  if String.eqb (_name this) "" then
    match argv0 !! 1%nat with
    | Some script =>
        let this1 := with_name (script_name script) this in
        _parseCommand (levels this1) [] this1 [] (drop 2 argv0)
    | None => TypeError
    end
  else _parseCommand (levels this) [] this [] (drop 2 argv0).

(** ** Accounting for the tokens of a run of [parseOptions] *)

(** What becomes of a token that leaves the queue [args]. *)
Inductive role : Type :=
| ROperand      (* pushed on [operands] *)
| RUnknown      (* pushed on [unknown] *)
| RFlag         (* a recognised option, with or without a value attached *)
| RValue        (* shifted as the value of the option before it *)
| RSeparator.   (* the literal [--], dropped *)

(** A token that left the queue: [injected] marks the remainder of a
    combined short flag that [parseOptions] put back itself. *)
Record entry : Type := mkEntry {
  token : string;
  token_role : role;
  injected : bool
}.

(** How the loop body treats [arg], by the tests it makes in order. *)
Inductive token_kind : Type :=
| KLiteral
| KOption (o : Option)
| KCombo (o : Option)
| KLongValue (o : Option) (index : nat)
| KOther.

Definition kind_of (this : Command) (arg : string) : token_kind :=
  if String.eqb arg "--" then KLiteral
  else
    match (if maybeOption arg then _findOption this arg else None) with
    | Some o => KOption o
    | None =>
        match (if combo_shaped arg
               then _findOption this (String.append "-" (slice_to 1 (slice_from 1 arg)))
               else None) with
        | Some o => KCombo o
        | None =>
            match long_with_value arg with
            | Some index =>
                match _findOption this (slice_to index arg) with
                | Some o => if required o || optional o then KLongValue o index
                            else KOther
                | None => KOther
                end
            | None => KOther
            end
        end
    end.

(** The role of a token pushed on [d]. *)
Definition pushed_on (d : array_ref) : role :=
  if same_array d Unknown then RUnknown else ROperand.

(** The tokens that leave the queue [queue] during a run that starts with
    [dest] at [d], in the order they leave it; [head_injected] says that
    the head of the queue was put back by the turn before. *)
Fixpoint account (fuel : nat) (this : Command) (d : array_ref)
    (head_injected : bool) (queue : list string) : list entry :=
  match fuel, queue with
  | O, _ | _, [] => []
  | S fuel', arg :: rest =>
      let here r := {| token := arg; token_role := r; injected := head_injected |} in
      let later r t := {| token := t; token_role := r; injected := false |} in
      match kind_of this arg with
      | KLiteral =>
          here (if same_array d Unknown then RUnknown else RSeparator)
          :: map (later (pushed_on d)) rest
      | KOption o =>
          if required o then
            match rest with
            | value :: rest' =>
                here RFlag :: later RValue value :: account fuel' this d false rest'
            | [] => [here RFlag]
            end
          else if optional o then
            match rest with
            | value :: rest' =>
                if negb (maybeOption value) then
                  here RFlag :: later RValue value :: account fuel' this d false rest'
                else here RFlag :: account fuel' this d false rest
            | [] => [here RFlag]
            end
          else here RFlag :: account fuel' this d false rest
      | KCombo o =>
          if required o || optional o then
            here RFlag :: account fuel' this d false rest
          else
            here RFlag
            :: account fuel' this d true (String.append "-" (slice_from 2 arg) :: rest)
      | KLongValue _ _ => here RFlag :: account fuel' this d false rest
      | KOther =>
          let d' := if maybeOption arg then Unknown else d in
          here (pushed_on d') :: account fuel' this d' false rest
      end
  end.

Definition has_role (r : role) (e : entry) : bool :=
  match r, token_role e with
  | ROperand, ROperand | RUnknown, RUnknown | RFlag, RFlag
  | RValue, RValue | RSeparator, RSeparator => true
  | _, _ => false
  end.

(** The tokens of a trace with role [r], in order. *)
Definition tokens_with (r : role) (tr : list entry) : list string :=
  map token (List.filter (has_role r) tr).

(** The tokens of a trace that came from the caller, in order. *)
Definition input_tokens (tr : list entry) : list string :=
  map token (List.filter (fun e => negb (injected e)) tr).

(** The entries of a trace for the tokens that came from the caller. *)
Definition caller_entries (tr : list entry) : list entry :=
  List.filter (fun e => negb (injected e)) tr.

(** The tokens of a trace that [parseOptions] consumed: flags, values and
    the dropped separator. *)
Definition consumed_tokens (tr : list entry) : list string :=
  map token
    (List.filter (fun e => has_role RFlag e || has_role RValue e || has_role RSeparator e) tr).

(** The trace of [parseOptions(argv)]. *)
Definition parseOptions_trace (this : Command) (argv0 : list string) : list entry :=
  account (S (queue_size argv0)) this Operands false argv0.

(** ** The order of the checks at a terminal level, as the specification
       words it *)

(** The first check that fails, of checks listed in the order they run. *)
Fixpoint first_failure (checks : list (option outcome)) : option outcome :=
  match checks with
  | [] => None
  | Some o :: _ => Some o
  | None :: checks' => first_failure checks'
  end.

(** The positional-binding checks: a required argument without an
    operand, a variadic argument that is not the last. *)
Definition positional_check (this : Command) (args0 : list string) : option outcome :=
  match bind_args (length (_args this)) 0 (_args this) (map AString args0) with
  | inl o => Some o
  | inr _ => None
  end.

(** The array the action handler is called with, once every check passed. *)
Definition bound_args (this : Command) (args0 : list string) : list arg_value :=
  match bind_args (length (_args this)) 0 (_args this) (map AString args0) with
  | inl _ => []
  | inr args1 => args1
  end.

(** The help shown for a missing subcommand: a command with subcommands
    that is given no argument and has neither an action handler nor a
    default command shows its help and exits with an error. *)
Definition missing_subcommand_check (this : Command)
    (operands0 unknown0 : list string) : option outcome :=
  if (0 <? length (commands this))%nat && (length (operands0 ++ unknown0) =? 0)%nat
     && negb (_actionHandler this) && negb (has_default_command this)
  then Some (Exit _helpAndError) else None.

(** The checks of a terminal level in the order of the specification:
    help request (the help shown for a missing subcommand, then the help
    flag among the unknown tokens), mandatory options, left-over unknown
    option, positional arguments, which are checked for a command with
    an action handler. *)
Definition checks_in_order (parents : list Command) (this : Command)
    (operands0 unknown0 : list string) : list (option outcome) :=
  [ missing_subcommand_check this operands0 unknown0;
    outputHelpIfRequested this unknown0;
    _checkForMissingMandatoryOptions (this :: parents);
    match unknown0 with
    | first :: _ => unknownOption this first
    | [] => None
    end;
    if _actionHandler this then positional_check this (operands0 ++ unknown0)
    else None ].

(** The error codes a check of a terminal level can exit with. *)
Definition terminal_codes : list string :=
  [ "commander.help";
    "commander.helpDisplayed";
    "commander.missingMandatoryOptionValue";
    "commander.unknownOption";
    "commander.missingArgument";
    "commander.variadicArgNotLast" ].

(** The error codes of the checks of a terminal level, check by check. *)
Definition codes_in_order : list (list string) :=
  [ ["commander.help"];
    ["commander.helpDisplayed"];
    ["commander.missingMandatoryOptionValue"];
    ["commander.unknownOption"];
    ["commander.missingArgument"; "commander.variadicArgNotLast"] ].

(** When the check fails, it exits with one of [codes]; the exit code is
    1, but 0 after the help that was asked for. *)
Definition fails_with (codes : list string) (check : option outcome) : Prop :=
  forall o, check = Some o ->
    exists e, o = Exit e
              /\ In (code e) codes
              /\ exitCode e = if String.eqb (code e) "commander.helpDisplayed"
                              then 0%Z else 1%Z.

(** What a terminal level without an action handler goes on with once
    its checks have passed: the operands go to the command [*] or to the
    listeners of [command:*], or are an unknown command; without
    operands a command with subcommands shows its help, and otherwise
    [parse] returns to its caller. *)
Definition without_action (fuel : nat) (parents : list Command) (this : Command)
    (operands0 unknown0 : list string) : outcome :=
  if (0 <? length operands0)%nat then
    match _findCommand this (Some "*") with
    | Some star =>
        if _executableHandler star
        then SubCommandExecuted this star (operands0 ++ unknown0)
        else _parseCommand fuel (this :: parents) star operands0 unknown0
    | None =>
        if (0 <? commandStarListeners this)%nat
        then CommandStarEmitted this operands0 unknown0
        else if (0 <? length (commands this))%nat
        then Exit (unknownCommand (hd EmptyString (operands0 ++ unknown0)))
        else ReturnedToCaller this
    end
  else if (0 <? length (commands this))%nat then Exit _helpAndError
  else ReturnedToCaller this.

(** Every option of the command has an attribute name, as the options
    registered by [_optionEx] have. *)
Definition keys_defined (c : Command) : bool :=
  forallb (fun o => bool_decide (is_Some (Opt.attributeName o))) (options c).

(** An option of [cmd] that is mandatory and whose stored value is
    [undefined]. *)
Definition lacks_mandatory_value (cmd : Command) (o : Option) : Prop :=
  In o (options cmd) /\ mandatory o = true
  /\ exists key, Opt.attributeName o = Some key
                 /\ _getOptionValue cmd key = VUndefined.

(** ** Auxiliary notions for the statements *)

(** [dest] refers to one of the two result arrays. *)
Definition dest_is_result (s : loop_state) : Prop :=
  dest s = Operands \/ dest s = Unknown.

(** The variables after a turn, however it ends. *)
Definition state_of (r : step_result) : loop_state :=
  match r with
  | Continue s | Done s | Abort _ s => s
  end.

(** The variables when [parseOptions] returns or exits. *)
Definition final_state (r : parse_result) : option loop_state :=
  match r with
  | Returned s | Exited _ s => Some s
  | OutOfFuel => None
  end.

(** What the queue holds of the caller's tokens. *)
Definition from_caller (inj : bool) (queue : list string) : list string :=
  if inj then tail queue else queue.

(** A one-character string. *)
Definition char (c : ascii) : string := String c EmptyString.

(** ** Example programs *)

(** [program.option('-p, --pepper', 'add pepper')] on a new command. *)
Definition pepper_program : Command :=
  default (new_Command "")
    (option_ "-p, --pepper" "add pepper" (FnValue VUndefined) VUndefined
       (new_Command "")).

(** Scenario A of the specification: [-p, --pepper] is a boolean option
    and [-C, --chdir <path>] takes a value. *)
Definition scenario_A_program : Command :=
  default (new_Command "")
    (chained [option_ "-p, --pepper" "add pepper" (FnValue VUndefined) VUndefined;
              option_ "-C, --chdir <path>" "change the working directory"
                (FnValue VUndefined) VUndefined]
       (new_Command "")).

(** The input of scenario A. *)
Definition scenario_A_argv : list string := ["-p"; "--chdir"; "/tmp"; "extra"].

(** The state in which [parseOptions] returns in scenario A: both options
    are set and [extra] is the only operand. *)
Definition scenario_A_result : loop_state :=
  {| self := _setOptionValue "chdir" (VStr "/tmp")
               (_setOptionValue "pepper" (VBool true) scenario_A_program);
     mem := {| argv := scenario_A_argv; args := [];
               operands := ["extra"]; unknown := [] |};
     dest := Operands |}.

(** [-p, --pepper] is a boolean option and [-x, --xray <val>] takes a
    required value: scenario C of the specification. *)
Definition scenario_C_program : Command :=
  default (new_Command "")
    (chained [option_ "-p, --pepper" "add pepper" (FnValue VUndefined) VUndefined;
              option_ "-x, --xray <val>" "" (FnValue VUndefined) VUndefined]
       (new_Command "")).

(** [program.option('--no-cheese', 'remove cheese')] on a new command. *)
Definition cheese_program : Command :=
  default (new_Command "")
    (option_ "--no-cheese" "remove cheese" (FnValue VUndefined) VUndefined
       (new_Command "")).

(** [program.option('-c, --cheese [type]', 'add cheese', 'blue')]. *)
Definition cheese_type_program : Command :=
  default (new_Command "")
    (option_ "-c, --cheese [type]" "add cheese" (FnValue (VStr "blue")) VUndefined
       (new_Command "")).

(** ... followed by [.option('--no-cheese', 'no cheese')]. *)
Definition cheese_or_not_program : Command :=
  default (new_Command "")
    (option_ "--no-cheese" "no cheese" (FnValue VUndefined) VUndefined
       cheese_type_program).

(** [program.option('-d, --debug', 'output extra debugging', false)]. *)
Definition debug_program : Command :=
  default (new_Command "")
    (option_ "-d, --debug" "output extra debugging" (FnValue (VBool false)) VUndefined
       (new_Command "")).

(** [program.command('build').alias('serve').action(...)] and then
    [program.command('serve').action(...)]. *)
Definition alias_program : Command :=
  default (new_Command "prog")
    (chained [command "build" false false (chained [alias "serve"; action]);
              command "serve" false false action]
       (new_Command "prog")).

(** [program.requiredOption('-t, --token <t>', 'access token')]. *)
Definition token_program : Command :=
  default (new_Command "prog")
    (requiredOption "-t, --token <t>" "access token" (FnValue VUndefined) VUndefined
       (new_Command "prog")).

(** The option that [token_program] registers. *)
Definition token_option : Option :=
  with_mandatory true (new_Option "-t, --token <t>" "access token").

(** Scenario B of the specification: a program with the subcommand [sub],
    which has an action handler and no option [--unknown]. *)
Definition scenario_B_program : Command :=
  default (new_Command "prog")
    (command "sub" false false action (new_Command "prog")).

(** A command [serve <a> [b...]] with an action handler. *)
Definition serve_command : Command :=
  default (new_Command "serve")
    (action (_parseExpectedArgs ["<a>"; "[b...]"] (new_Command "serve"))).

(** The state in which [parseOptions(['x', 'y', 'z'])] on [serve_command]
    returns. *)
Definition serve_parsed : loop_state :=
  {| self := serve_command;
     mem := {| argv := ["x"; "y"; "z"]; args := [];
               operands := ["x"; "y"; "z"]; unknown := [] |};
     dest := Operands |}.

(** ** Further functions of [index.js] *)

(** [humanReadableArgName(arg)]. *)
Definition humanReadableArgName (arg : ArgDetails) : string :=
  let nameOutput :=
    String.append (arg_name arg) (if arg_variadic arg then "..." else "") in
  if arg_required arg
  then String.append "<" (String.append nameOutput ">")
  else String.append "[" (String.append nameOutput "]").

(** [Array(n + 1).join(' ')]: [n] spaces. *)
Fixpoint spaces (n : nat) : string :=
  match n with
  | O => EmptyString
  | S n' => String " " (spaces n')
  end.

(** [pad(str, width)]; [width - str.length] is cut at zero, as
    [Math.max(0, ...)] does. *)
Definition pad (str : string) (width : nat) : string :=
  let len := width - String.length str in
  String.append str (spaces len).

(** [largestArgLength()]. *)
Definition largestArgLength (this : Command) : nat :=
  fold_left (fun max arg => Nat.max max (String.length (arg_name arg))) (_args this) 0.

(** ** Words of a flags string, and runs that differ in their operands *)

(** Every character of [s] passes the test [p]. *)
Fixpoint every_char (p : ascii -> bool) (s : string) : bool :=
  match s with
  | EmptyString => true
  | String c s' => p c && every_char p s'
  end.

(** Every character of [s] is below 128: on such a string the
    [toUpperCase] of the model is that of JavaScript. *)
Definition ascii_only (s : string) : bool :=
  every_char (fun c => (nat_of_ascii c <? 128)%nat) s.

(** No listener of the command answers to [event]. *)
Definition no_listener (event : string) (c : Command) : bool :=
  forallb (fun el => negb (String.eqb (fst el) event)) (_events c).

(** A word of a flags string: no character of [/[ ,|]/]. *)
Definition flag_word (s : string) : bool :=
  every_char (fun c => negb (is_flag_separator c)) s.

(** The end of a word in a flags string: the end of the string, or a
    separator. *)
Definition word_ends (rest : string) : Prop :=
  rest = "" \/ exists c r, rest = String c r /\ is_flag_separator c = true.

(** The variables of two runs of the loop that differ in the operands
    gathered before the run only: those of the first run start with
    [pre]. *)
Definition operands_ahead (pre : list string) (s1 s2 : loop_state) : Prop :=
  self s1 = self s2 /\ dest s1 = dest s2
  /\ args (mem s1) = args (mem s2)
  /\ unknown (mem s1) = unknown (mem s2)
  /\ operands (mem s1) = pre ++ operands (mem s2).

(** ** Further example programs *)

(** [program.requiredOption('-t, --token <t>', 'access token', 'secret')]. *)
Definition token_default_program : Command :=
  default (new_Command "prog")
    (requiredOption "-t, --token <t>" "access token" (FnValue (VStr "secret")) VUndefined
       (new_Command "prog")).

(** [program.requiredOption('--color', 'use colors', 'red')]. *)
Definition color_program : Command :=
  default (new_Command "prog")
    (requiredOption "--color" "use colors" (FnValue (VStr "red")) VUndefined
       (new_Command "prog")).

(** [program.command('sub').action(...)] and then [program.alias('s')]. *)
Definition sub_alias_program : Command :=
  default scenario_B_program (alias "s" scenario_B_program).

(** The listener of [.option('-v, --verbose', 'more output', count, 0)],
    where [count] is [(value, total) => total + 1]. *)
Definition verbose_listener : Listener :=
  {| l_option := new_Option "-v, --verbose" "more output";
     l_name := "verbose";
     l_fn := Some (fun _ total => match total with
                                  | VNum n => VNum (n + 1)
                                  | _ => VNum 1
                                  end);
     l_defaultValue := VNum 0 |}.

(** [program.option('--no-cheese', 'remove cheese', () => 'none')]: a
    negation option with a coercion function. *)
Definition cheese_coerced_program : Command :=
  default (new_Command "")
    (option_ "--no-cheese" "remove cheese" (FnFunction (fun _ _ => VStr "none"))
       VUndefined (new_Command "")).

(** [program.option('--no-emit', 'keep quiet')]: the key of the option
    is the name of the method [emit]. *)
Definition no_emit_program : Command :=
  default (new_Command "")
    (option_ "--no-emit" "keep quiet" (FnValue VUndefined) VUndefined
       (new_Command "")).

(** [program.requiredOption('-t, --token <t>', 'access token')] followed
    by [program.command('sub').action(...)]. *)
Definition token_sub_program : Command :=
  default (new_Command "prog")
    (command "sub" false false action token_program).

(** The subcommand [sub] of [token_sub_program]. *)
Definition sub_command : Command :=
  default (new_Command "sub") (action (new_Command "sub")).

(** [program.arguments('<env>').requiredOption('-t, --token <t>',
    'access token').action(...)] on a command [deploy]. *)
Definition deploy_command : Command :=
  default (new_Command "deploy")
    (chained [requiredOption "-t, --token <t>" "access token" (FnValue VUndefined)
                VUndefined;
              action]
       (_parseExpectedArgs ["<env>"] (new_Command "deploy"))).

(** The state in which [parseOptions(['--nope'])] on [deploy_command]
    returns. *)
Definition deploy_parsed : loop_state :=
  {| self := deploy_command;
     mem := {| argv := ["--nope"]; args := [];
               operands := []; unknown := ["--nope"] |};
     dest := Unknown |}.

(** [program.arguments('[topping]').action(...)] on the program, which
    has no name. *)
Definition pizza_program : Command :=
  default (new_Command "")
    (action (_parseExpectedArgs ["[topping]"] (new_Command ""))).

(** A command [copy <files...> <target>] with an action handler: its
    variadic argument is not the last. *)
Definition copy_command : Command :=
  default (new_Command "copy")
    (action (_parseExpectedArgs ["<files...>"; "<target>"] (new_Command "copy"))).

(** [program.requiredOption('--name <n>', 'name of the user')]: the key
    of the option is the name of the method [name]. *)
Definition name_program : Command :=
  default (new_Command "prog")
    (requiredOption "--name <n>" "name of the user" (FnValue VUndefined) VUndefined
       (new_Command "prog")).

(** Scenario C with a third option whose short flag is [-px]. *)
Definition pixels_program : Command :=
  default (new_Command "")
    (option_ "-px, --pixels" "sizes in pixels" (FnValue VUndefined) VUndefined
       scenario_C_program).

(** [-p, --options] is a boolean option whose key is the name of the
    field [options], and [-x, --xray <val>] takes a required value. *)
Definition options_flag_program : Command :=
  default (new_Command "")
    (chained [option_ "-p, --options" "list the options" (FnValue VUndefined) VUndefined;
              option_ "-x, --xray <val>" "" (FnValue VUndefined) VUndefined]
       (new_Command "")).

(** [program.option('--once', 'run once')]: the key of the option is the
    name of the method [once] that a command inherits. *)
Definition once_program : Command :=
  default (new_Command "")
    (option_ "--once" "run once" (FnValue VUndefined) VUndefined (new_Command "")).

(** ... followed by [.option('--no-once', 'run again')]. *)
Definition once_or_not_program : Command :=
  default (new_Command "")
    (option_ "--no-once" "run again" (FnValue VUndefined) VUndefined once_program).

(** A run of the loop of [parseOptions] on [pepper_program], after the
    unknown option [--x] was met. *)
Definition after_unknown_option : loop_state :=
  {| self := pepper_program;
     mem := {| argv := ["--x"; "a"; "-p"]; args := ["a"; "-p"];
               operands := []; unknown := ["--x"] |};
     dest := Unknown |}.

(** * Properties *)

(** ** The option constructor on examples *)

Example new_Option_pepper :
  let o := new_Option "-p, --pepper" "add pepper" in
  (short o, long o, required o, optional o, negate o)
  = (Some "-p", "--pepper", false, false, false).
Proof. reflexivity. Qed.

Example new_Option_chdir :
  let o := new_Option "-C, --chdir <path>" "" in
  (short o, long o, required o, optional o, Opt.attributeName o)
  = (Some "-C", "--chdir", true, false, Some "chdir").
Proof. reflexivity. Qed.

Example new_Option_no_cheese :
  let o := new_Option "--no-cheese-sauce" "" in
  (short o, long o, negate o, Opt.name o, Opt.attributeName o)
  = (None, "--no-cheese-sauce", true, "no-cheese-sauce", Some "cheeseSauce").
Proof. reflexivity. Qed.

(** The example programs are what the builder calls return. *)
Example example_programs_are_built :
  option_ "-p, --pepper" "add pepper" (FnValue VUndefined) VUndefined (new_Command "")
  = Some pepper_program
  /\ chained [option_ "-p, --pepper" "add pepper" (FnValue VUndefined) VUndefined;
              option_ "-C, --chdir <path>" "change the working directory"
                (FnValue VUndefined) VUndefined] (new_Command "")
     = Some scenario_A_program
  /\ chained [option_ "-p, --pepper" "add pepper" (FnValue VUndefined) VUndefined;
              option_ "-x, --xray <val>" "" (FnValue VUndefined) VUndefined]
       (new_Command "")
     = Some scenario_C_program
  /\ option_ "-d, --debug" "output extra debugging" (FnValue (VBool false)) VUndefined
       (new_Command "")
     = Some debug_program
  /\ chained [command "build" false false (chained [alias "serve"; action]);
              command "serve" false false action] (new_Command "prog")
     = Some alias_program
  /\ requiredOption "-t, --token <t>" "access token" (FnValue VUndefined) VUndefined
       (new_Command "prog")
     = Some token_program
  /\ command "sub" false false action (new_Command "prog") = Some scenario_B_program
  /\ action (_parseExpectedArgs ["<a>"; "[b...]"] (new_Command "serve"))
     = Some serve_command.
Proof. repeat split. Qed.

(** Scenario B: [sub] takes the rest of the line, finds the unknown option
    and exits. *)
Example scenario_B :
  parse scenario_B_program ["node"; "prog"; "sub"; "--unknown"; "uuu"; "op"]
  = Exit (unknownOptionError "--unknown").
Proof. reflexivity. Qed.

(** Variadic absorption: the last argument takes the operands that are left. *)
Example variadic_absorption :
  parse serve_command ["node"; "serve"; "x"; "y"; "z"]
  = ActionCalled serve_command [AString "x"; AArray [AString "y"; AString "z"]].
Proof. reflexivity. Qed.

(** ** The listeners write option values only *)

Section EmitFrame.

(** A field of a command other than [_optionValues]. *)
Variable A : Type.
Variable field : Command -> A.
Hypothesis field_frame : forall m c, field (with_optionValues m c) = field c.

Lemma field_setOptionValue key v c : field (_setOptionValue key v c) = field c.
Proof. unfold _setOptionValue. apply field_frame. Qed.

Lemma field_run_listener l val c : field (run_listener l val c) = field c.
Proof.
  unfold run_listener.
  repeat match goal with
         | |- context [if ?b then _ else _] => destruct b
         end; auto using field_setOptionValue.
Qed.

Lemma field_emit event val c : field (emit event val c) = field c.
Proof.
  unfold emit. generalize (_events c) as ls.
  intros ls. revert c. induction ls as [|el ls IH]; intros c; simpl; [reflexivity|].
  rewrite IH. destruct (String.eqb (fst el) event); auto using field_run_listener.
Qed.

End EmitFrame.

Lemma options_emit event val c : options (emit event val c) = options c.
Proof. apply field_emit. reflexivity. Qed.

Lemma commands_emit event val c : commands (emit event val c) = commands c.
Proof. apply field_emit. reflexivity. Qed.

Lemma _findOption_emit event val c arg :
  _findOption (emit event val c) arg = _findOption c arg.
Proof. unfold _findOption. now rewrite options_emit. Qed.

Lemma kind_of_emit event val c arg : kind_of (emit event val c) arg = kind_of c arg.
Proof. unfold kind_of, _findOption. now rewrite options_emit. Qed.

(** ** One turn of the loop *)

(** [step] agrees with [kind_of] on the branch it takes. *)
Lemma step_kind_of s arg rest :
  args (mem s) = arg :: rest ->
  let s1 := with_mem (write Args rest (mem s)) s in
  step s =
  match kind_of (self s) arg with
  | KLiteral =>
      let s2 := if same_array (dest s1) Unknown
                then with_mem (push (dest s1) [arg] (mem s1)) s1 else s1 in
      Done (with_mem (push (dest s2) (read Args (mem s2)) (mem s2)) s2)
  | KOption o =>
      if required o then
        match rest with
        | [] => Abort (optionMissingArgument o) s1
        | value :: rest' =>
            Continue (emit_option o (VStr value)
                        (with_mem (write Args rest' (mem s1)) s1))
        end
      else if optional o then
        match rest with
        | value :: rest' =>
            if negb (maybeOption value)
            then Continue (emit_option o (VStr value)
                             (with_mem (write Args rest' (mem s1)) s1))
            else Continue (emit_option o VNull s1)
        | [] => Continue (emit_option o VNull s1)
        end
      else Continue (emit_option o VUndefined s1)
  | KCombo o =>
      if required o || optional o then
        Continue (emit_option o (VStr (slice_from 2 arg)) s1)
      else
        let s2 := emit_option o VUndefined s1 in
        Continue (with_mem (unshift Args (String.append "-" (slice_from 2 arg)) (mem s2)) s2)
  | KLongValue o index =>
      Continue (emit_option o (VStr (slice_from (index + 1) arg)) s1)
  | KOther => add_arg arg s1
  end.
Proof.
  intros Hargs s1. subst s1.
  unfold step, kind_of, shift. simpl. rewrite Hargs.
  destruct (String.eqb arg "--"); [reflexivity|].
  cbn [self with_mem mem].
  destruct (if maybeOption arg then _findOption (self s) arg else None) as [o|].
  - destruct (required o).
    + unfold shift. simpl. destruct rest; reflexivity.
    + destruct (optional o); [|reflexivity].
      unfold shift. simpl. destruct rest as [|v rest']; simpl; [reflexivity|].
      destruct (maybeOption v); reflexivity.
  - unfold combo_option. cbn [self with_mem mem].
    destruct (if combo_shaped arg then _ else None) as [o|]; [reflexivity|].
    unfold long_flag_with_value. cbn [self with_mem mem].
    destruct (long_with_value arg) as [index|]; [|reflexivity].
    destruct (_findOption (self s) (slice_to index arg)) as [o|]; [|reflexivity].
    destruct (required o || optional o); reflexivity.
Qed.

Lemma step_nil s : args (mem s) = [] -> step s = Done s.
Proof. intros H. unfold step, shift, read. now rewrite H. Qed.

Lemma kind_of_combo this arg o :
  kind_of this arg = KCombo o ->
  combo_shaped arg = true
  /\ _findOption this (String.append "-" (slice_to 1 (slice_from 1 arg))) = Some o.
Proof.
  unfold kind_of. destruct (String.eqb arg "--"); [discriminate|].
  destruct (if maybeOption arg then _ else None); [discriminate|].
  assert (Hlong : forall k,
             match long_with_value arg with
             | Some index =>
                 match _findOption this (slice_to index arg) with
                 | Some o' => if required o' || optional o'
                              then KLongValue o' index else KOther
                 | None => KOther
                 end
             | None => KOther
             end <> KCombo k).
  { intros k. destruct (long_with_value arg) as [index|]; [|discriminate].
    destruct (_findOption this (slice_to index arg)) as [o'|]; [|discriminate].
    destruct (required o' || optional o'); discriminate. }
  destruct (combo_shaped arg).
  - destruct (_findOption this (String.append "-" _)) as [o'|].
    + intros H. injection H as ->. auto.
    + intros H. now apply Hlong in H.
  - intros H. now apply Hlong in H.
Qed.

Lemma length_slice_from n s : String.length (slice_from n s) = String.length s - n.
Proof.
  revert s. induction n as [|n IH]; intros [|c s]; simpl; auto with arith.
Qed.

Lemma length_append (a b : string) :
  String.length (String.append a b) = String.length a + String.length b.
Proof. induction a as [|c a IH]; simpl; auto. Qed.

(** A turn writes to [args] and to the array [dest] refers to: the
    caller's array [argv] is left alone, and [dest] stays on a result
    array. *)
Lemma step_frame s :
  dest_is_result s ->
  argv (mem (state_of (step s))) = argv (mem s)
  /\ dest_is_result (state_of (step s)).
Proof.
  intros Hd. destruct (args (mem s)) as [|arg rest] eqn:Hargs.
  - rewrite (step_nil s Hargs). auto.
  - rewrite (step_kind_of s arg rest Hargs). cbv zeta.
    destruct s as [this m d]. unfold dest_is_result in *. cbn in Hd |- *.
    destruct (kind_of this arg) as [|o|o|o index|].
    + destruct Hd as [-> | ->]; cbn; auto.
    + destruct (required o); [destruct rest; cbn; auto|].
      destruct (optional o); [|cbn; auto].
      destruct rest as [|v rest']; [cbn; auto|].
      destruct (negb (maybeOption v)); cbn; auto.
    + destruct (required o || optional o); cbn; auto.
    + cbn; auto.
    + unfold add_arg. destruct (maybeOption arg); cbn; [auto|].
      destruct Hd as [-> | ->]; cbn; auto.
Qed.

(** A turn that continues makes the queue smaller. *)
Lemma step_queue_size s s' :
  dest_is_result s ->
  step s = Continue s' ->
  queue_size (args (mem s')) < queue_size (args (mem s)).
Proof.
  intros Hd. destruct (args (mem s)) as [|arg rest] eqn:Hargs.
  - rewrite (step_nil s Hargs). discriminate.
  - rewrite (step_kind_of s arg rest Hargs). cbv zeta.
    destruct s as [this m d]. unfold dest_is_result in *. cbn in Hd, Hargs |- *.
    unfold queue_size. cbn [map list_sum].
    destruct (kind_of this arg) as [|o|o|o index|] eqn:Hk.
    + discriminate.
    + destruct (required o).
      { destruct rest as [|v rest']; [discriminate|].
        intros H; injection H as <-. cbn. lia. }
      destruct (optional o).
      { destruct rest as [|v rest']; [intros H; injection H as <-; cbn; lia|].
        destruct (negb (maybeOption v)); intros H; injection H as <-; cbn; lia. }
      intros H; injection H as <-. cbn. lia.
    + apply kind_of_combo in Hk as [Hshape _].
      unfold combo_shaped in Hshape.
      apply andb_prop in Hshape as [Hshape _].
      apply andb_prop in Hshape as [Hlen _].
      apply Nat.ltb_lt in Hlen.
      destruct (required o || optional o); intros H; injection H as <-; cbn; [lia|].
      destruct arg as [|? [|? ?]]; cbn in *; rewrite ?length_append; cbn; lia.
    + intros H; injection H as <-. cbn. lia.
    + unfold add_arg. intros H; injection H as <-.
      destruct (maybeOption arg); cbn; [lia|].
      destruct Hd as [-> | ->]; cbn; lia.
Qed.

(** ** The whole loop *)

(** With more fuel than the size of the queue the loop comes to an end. *)
Lemma parse_loop_fuel fuel s :
  dest_is_result s ->
  queue_size (args (mem s)) < fuel ->
  parse_loop fuel s <> OutOfFuel.
Proof.
  revert s. induction fuel as [|fuel IH]; intros s Hd Hlt; [lia|].
  simpl. destruct (step s) as [s'|s'|e s'] eqn:Hstep; try discriminate.
  apply IH.
  - pose proof (step_frame s Hd) as [_ H]. now rewrite Hstep in H.
  - pose proof (step_queue_size s s' Hd Hstep). lia.
Qed.

Lemma parseOptions_fuel this argv0 : parseOptions this argv0 <> OutOfFuel.
Proof.
  unfold parseOptions. apply parse_loop_fuel.
  - left; reflexivity.
  - apply Nat.lt_succ_diag_r.
Qed.

(** Neither a return nor an error of the loop leaves [argv] changed. *)
Lemma parse_loop_argv fuel s s' :
  dest_is_result s ->
  final_state (parse_loop fuel s) = Some s' ->
  argv (mem s') = argv (mem s) /\ dest_is_result s'.
Proof.
  revert s. induction fuel as [|fuel IH]; intros s Hd; [discriminate|].
  simpl. pose proof (step_frame s Hd) as [Hargv Hd'].
  destruct (step s) as [s1|s1|e s1] eqn:Hstep; cbn in *.
  - intros H. destruct (IH s1 Hd' H) as (-> & ?). auto.
  - intros H; injection H as <-. auto.
  - intros H; injection H as <-. auto.
Qed.

(** ** The trace of a run *)

Lemma account_emit fuel event val this d inj queue :
  account fuel (emit event val this) d inj queue = account fuel this d inj queue.
Proof.
  revert d inj queue. induction fuel as [|fuel IH]; intros d inj queue; [reflexivity|].
  destruct queue as [|arg rest]; [reflexivity|].
  cbn [account]. rewrite kind_of_emit.
  destruct (kind_of this arg) as [|o|o|o index|];
    repeat match goal with
           | |- context [if ?b then _ else _] => destruct b
           | |- context [match ?l with [] => _ | _ :: _ => _ end] => destruct l
           end; now rewrite ?IH.
Qed.

Lemma account_nil fuel this d inj : account fuel this d inj [] = [].
Proof. now destruct fuel. Qed.

Lemma tokens_with_cons r e tr :
  tokens_with r (e :: tr)
  = if has_role r e then token e :: tokens_with r tr else tokens_with r tr.
Proof. unfold tokens_with. cbn. now destruct (has_role r e). Qed.

Lemma input_tokens_cons e tr :
  input_tokens (e :: tr)
  = if injected e then input_tokens tr else token e :: input_tokens tr.
Proof. unfold input_tokens. cbn. now destruct (injected e). Qed.

Lemma tokens_with_later_same r l :
  tokens_with r (map (fun t => {| token := t; token_role := r; injected := false |}) l) = l.
Proof.
  unfold tokens_with. induction l as [|t l IH]; [reflexivity|].
  cbn [map List.filter]. replace (has_role r _) with true by (now destruct r).
  cbn. now f_equal.
Qed.

Lemma tokens_with_later_other r r' l :
  has_role r {| token := EmptyString; token_role := r'; injected := false |} = false ->
  tokens_with r (map (fun t => {| token := t; token_role := r'; injected := false |}) l) = [].
Proof.
  intros H. unfold tokens_with. induction l as [|t l IH]; [reflexivity|].
  cbn [map List.filter].
  replace (has_role r {| token := t; token_role := r'; injected := false |})
    with false by (now destruct r, r').
  exact IH.
Qed.

Lemma input_tokens_later r l :
  input_tokens (map (fun t => {| token := t; token_role := r; injected := false |}) l) = l.
Proof.
  unfold input_tokens. induction l as [|t l IH]; [reflexivity|].
  cbn. now f_equal.
Qed.

#[local] Arguments tokens_with : simpl never.
#[local] Arguments input_tokens : simpl never.

(** The step of [parse_loop_account] for a turn that continues. *)
Ltac use_next Hnext Hrun inj' queue :=
  apply (Hnext _ _ _ inj' queue) in Hrun; [|auto|reflexivity];
  unfold emit_option in Hrun; cbn in Hrun;
  rewrite ?account_emit, ?account_nil in Hrun;
  rewrite ?tokens_with_cons, ?input_tokens_cons;
  cbn [has_role token_role token injected];
  destruct Hrun as (-> & -> & ->);
  rewrite <- ?app_assoc; cbn [from_caller tail app];
  repeat split; try reflexivity;
  match goal with |- context [if ?b then _ else _] => destruct b; reflexivity end.

(** The trace tells what a run that returns has pushed on [operands] and
    on [unknown], and it holds the caller's tokens once each, in order. *)
Lemma parse_loop_account fuel s s' inj :
  dest_is_result s ->
  parse_loop fuel s = Returned s' ->
  let tr := account fuel (self s) (dest s) inj (args (mem s)) in
  operands (mem s') = operands (mem s) ++ tokens_with ROperand tr
  /\ unknown (mem s') = unknown (mem s) ++ tokens_with RUnknown tr
  /\ input_tokens tr = from_caller inj (args (mem s)).
Proof.
  revert s inj. induction fuel as [|fuel IH]; intros s inj Hd; [discriminate|].
  destruct (args (mem s)) as [|arg rest] eqn:Hargs.
  { cbn [parse_loop]. rewrite (step_nil s Hargs). intros H; injection H as <-.
    cbn. rewrite !app_nil_r. destruct inj; auto. }
  cbn [parse_loop account]. rewrite (step_kind_of s arg rest Hargs). cbv zeta.
  destruct s as [this [av ar ops unk] d]. unfold dest_is_result in Hd.
  cbn in Hd, Hargs |- *. subst ar.
  assert (Hnext : forall this' m' d' inj' queue,
             d' = Operands \/ d' = Unknown ->
             parse_loop fuel {| self := this'; mem := m'; dest := d' |} = Returned s' ->
             args m' = queue ->
             operands (mem s') = operands m'
                                 ++ tokens_with ROperand (account fuel this' d' inj' queue)
             /\ unknown (mem s') = unknown m'
                                   ++ tokens_with RUnknown (account fuel this' d' inj' queue)
             /\ input_tokens (account fuel this' d' inj' queue) = from_caller inj' queue).
  { intros this' m' d' inj' queue Hd' Hrun <-.
    exact (IH {| self := this'; mem := m'; dest := d' |} inj' Hd' Hrun). }
  clear IH.
  assert (Hhead : forall (l : list string), from_caller inj (arg :: l)
                    = if inj then l else arg :: l) by (now destruct inj).
  destruct (kind_of this arg) as [|o|o|o index|].
  - (* the literal -- *)
    clear Hnext. intros H; injection H as <-.
    rewrite !tokens_with_cons, input_tokens_cons, input_tokens_later.
    destruct Hd as [-> | ->]; cbn [has_role token_role token injected pushed_on same_array
                                     with_mem mem dest push read write operands unknown].
    + rewrite tokens_with_later_same, tokens_with_later_other by reflexivity.
      rewrite app_nil_r. destruct inj; auto.
    + rewrite tokens_with_later_same, tokens_with_later_other by reflexivity.
      rewrite app_nil_r, <- app_assoc. destruct inj; auto.
  - (* a recognised option *)
    destruct (required o).
    { destruct rest as [|v rest']; [discriminate|].
      intros Hrun. use_next Hnext Hrun false rest'. }
    destruct (optional o).
    { destruct rest as [|v rest'].
      - intros Hrun. use_next Hnext Hrun false (@nil string).
      - destruct (negb (maybeOption v)).
        + intros Hrun. use_next Hnext Hrun false rest'.
        + intros Hrun. use_next Hnext Hrun false (v :: rest'). }
    intros Hrun. use_next Hnext Hrun false rest.
  - (* a combined short flag *)
    destruct (required o || optional o).
    + intros Hrun. use_next Hnext Hrun false rest.
    + intros Hrun.
      use_next Hnext Hrun true (String.append "-" (slice_from 2 arg) :: rest).
  - (* --flag=value *)
    intros Hrun. use_next Hnext Hrun false rest.
  - (* an operand or an unknown token *)
    unfold add_arg. cbn [dest with_dest mem with_mem self].
    destruct (maybeOption arg).
    + cbn [dest with_dest mem with_mem self push read write]. intros Hrun.
      use_next Hnext Hrun false rest.
    + destruct Hd as [-> | ->];
        cbn [dest with_dest mem with_mem self push read write]; intros Hrun;
        use_next Hnext Hrun false rest.
Qed.

(** Every entry of a trace has one role: the three groups make up the trace. *)
Lemma roles_partition tr :
  tokens_with ROperand tr ++ tokens_with RUnknown tr ++ consumed_tokens tr
  ≡ₚ map token tr.
Proof.
  unfold tokens_with, consumed_tokens.
  induction tr as [|[t r i] tr IH]; [reflexivity|].
  destruct r; cbn [List.filter has_role token_role map app orb].
  - cbn. now constructor.
  - rewrite <- Permutation_middle. now constructor.
  - rewrite app_assoc, <- Permutation_middle, <- app_assoc. now constructor.
  - rewrite app_assoc, <- Permutation_middle, <- app_assoc. now constructor.
  - rewrite app_assoc, <- Permutation_middle, <- app_assoc. now constructor.
Qed.

Lemma tokens_with_sublist r tr : sublist (tokens_with r tr) (map token tr).
Proof.
  unfold tokens_with. induction tr as [|e tr IH]; cbn; [constructor|].
  destruct (has_role r e); cbn; now constructor.
Qed.

Lemma input_tokens_all tr :
  forallb (fun e => negb (injected e)) tr = true -> input_tokens tr = map token tr.
Proof.
  unfold input_tokens. induction tr as [|e tr IH]; cbn; [reflexivity|].
  destruct (injected e); cbn; [discriminate|]. intros H. now rewrite IH.
Qed.

(** ** The claims about the tokenizer *)

(** C1 does not hold as stated: with the boolean option [-p, --pepper]
    registered, [parseOptions(['-px'])] returns [unknown = ['-x']], a
    token that is not in the input, so no choice of consumed tokens makes
    the outputs add up to the input. *)
Lemma parseOptions_returns_a_token_not_in_the_input :
  exists s,
    parseOptions pepper_program ["-px"] = Returned s
    /\ operands (mem s) = []
    /\ unknown (mem s) = ["-x"]
    /\ forall consumed : list string,
         ~ (operands (mem s) ++ unknown (mem s) ++ consumed ≡ₚ ["-px"]).
Proof.
  eexists. split; [vm_compute; reflexivity|].
  cbn [mem operands unknown]. repeat split.
  intros consumed H.
  assert (Hin : "-x" ∈ ["-px"]).
  { rewrite <- H. cbn. left. }
  apply list_elem_of_singleton in Hin. discriminate.
Qed.

(** The remainder of a combined short flag looks like an option. *)
Lemma maybeOption_remainder arg :
  combo_shaped arg = true ->
  maybeOption (String.append "-" (slice_from 2 arg)) = true.
Proof.
  unfold combo_shaped, maybeOption. intros H.
  apply andb_prop in H as [H _]. apply andb_prop in H as [Hlen _].
  apply Nat.ltb_lt in Hlen.
  apply andb_true_intro. split; [|reflexivity].
  apply Nat.ltb_lt. rewrite length_append, length_slice_from. cbn. lia.
Qed.

(** The remainder that the tokenizer puts back is never an operand: the
    operands of a trace are tokens of the caller. *)
Lemma operands_from_caller fuel this d inj queue :
  (inj = true -> exists t rest, queue = t :: rest /\ maybeOption t = true) ->
  List.filter (has_role ROperand) (caller_entries (account fuel this d inj queue))
  = List.filter (has_role ROperand) (account fuel this d inj queue).
Proof.
  unfold caller_entries.
  revert d inj queue. induction fuel as [|fuel IH]; intros d inj queue Hinj;
    [reflexivity|].
  destruct queue as [|arg rest]; [reflexivity|].
  assert (Hhead : inj = true -> maybeOption arg = true).
  { intros Hi. destruct (Hinj Hi) as (t & r & Heq & Ht). now injection Heq as -> ->. }
  assert (Hrest : forall d' q,
             List.filter (has_role ROperand)
               (List.filter (fun e => negb (injected e)) (account fuel this d' false q))
             = List.filter (has_role ROperand) (account fuel this d' false q)).
  { intros d' q. apply IH. discriminate. }
  assert (Hlater : forall r l,
             List.filter (fun e => negb (injected e))
               (map (fun t => {| token := t; token_role := r; injected := false |}) l)
             = map (fun t => {| token := t; token_role := r; injected := false |}) l).
  { intros r l. induction l as [|t l IHl]; [reflexivity|]. cbn. now rewrite IHl. }
  cbn [account]. cbv zeta.
  destruct (kind_of this arg) as [|o|o|o index|] eqn:Hkind.
  - cbn [List.filter injected negb].
    destruct inj; cbn [negb]; rewrite Hlater; [|reflexivity].
    cbn [List.filter has_role token_role].
    now destruct (same_array d Unknown).
  - destruct (required o).
    { destruct rest as [|v rest']; destruct inj;
        cbn [List.filter injected negb has_role token_role];
        rewrite ?Hrest; reflexivity. }
    destruct (optional o).
    { destruct rest as [|v rest']; [destruct inj; reflexivity|].
      destruct (negb (maybeOption v)); destruct inj;
        cbn [List.filter injected negb has_role token_role];
        rewrite ?Hrest; reflexivity. }
    destruct inj; cbn [List.filter injected negb has_role token_role];
      rewrite ?Hrest; reflexivity.
  - apply kind_of_combo in Hkind as [Hshape _].
    destruct (required o || optional o).
    + destruct inj; cbn [List.filter injected negb has_role token_role];
        rewrite ?Hrest; reflexivity.
    + assert (Hnext :
                List.filter (has_role ROperand)
                  (List.filter (fun e => negb (injected e))
                     (account fuel this d true
                        (String.append "-" (slice_from 2 arg) :: rest)))
                = List.filter (has_role ROperand)
                    (account fuel this d true
                       (String.append "-" (slice_from 2 arg) :: rest))).
      { apply IH. intros _. eexists _, _. split; [reflexivity|].
        now apply maybeOption_remainder. }
      destruct inj; cbn [List.filter injected negb has_role token_role];
        rewrite Hnext; reflexivity.
  - destruct inj; cbn [List.filter injected negb has_role token_role];
      rewrite ?Hrest; reflexivity.
  - destruct inj.
    + rewrite (Hhead eq_refl).
      cbn [List.filter injected negb has_role token_role pushed_on same_array].
      rewrite Hrest. reflexivity.
    + cbn [List.filter injected negb].
      cbn [List.filter]. destruct (has_role ROperand _);
        rewrite Hrest; reflexivity.
Qed.

Lemma caller_entries_sublist tr : sublist (caller_entries tr) tr.
Proof.
  unfold caller_entries. induction tr as [|e tr IH]; cbn; [constructor|].
  destruct (negb (injected e)); now constructor.
Qed.

Lemma tokens_with_mono r tr tr' :
  sublist tr tr' -> sublist (tokens_with r tr) (tokens_with r tr').
Proof.
  unfold tokens_with. induction 1 as [|e tr tr' _ IH|e tr tr' _ IH]; cbn.
  - constructor.
  - destruct (has_role r e); cbn; [now apply sublist_skip|exact IH].
  - destruct (has_role r e); cbn; [now apply sublist_cons|exact IH].
Qed.

(** C1 (amended): when [parseOptions] returns, every token of the input
    left the queue once, with one role: the trace holds the caller's
    tokens in order, [operands] is the tokens of the trace pushed as
    operands and [unknown] those pushed as unknown, each in the order of
    the trace.  The operands are tokens of the caller and a subsequence
    of the input; the operands, the caller's tokens among the unknown
    ones and the caller's tokens that were consumed (option flags,
    option values, and a dropped [--]) together are a permutation of the
    input, and the caller's unknown tokens are a subsequence of
    [unknown] and of the input.  When the trace holds no remainder of a combined short
    flag put back by the tokenizer, the operands, the unknown tokens and
    the consumed tokens together are a permutation of the input, and
    [unknown] is a subsequence of it as well. *)
Theorem parseOptions_accounts_for_each_token this argv0 s :
  parseOptions this argv0 = Returned s ->
  let tr := parseOptions_trace this argv0 in
  input_tokens tr = argv0
  /\ tokens_with ROperand tr = operands (mem s)
  /\ tokens_with RUnknown tr = unknown (mem s)
  /\ sublist (operands (mem s)) argv0
  /\ operands (mem s) ++ tokens_with RUnknown (caller_entries tr)
       ++ consumed_tokens (caller_entries tr) ≡ₚ argv0
  /\ sublist (tokens_with RUnknown (caller_entries tr)) (unknown (mem s))
  /\ sublist (tokens_with RUnknown (caller_entries tr)) argv0
  /\ (forallb (fun e => negb (injected e)) tr = true ->
      operands (mem s) ++ unknown (mem s) ++ consumed_tokens tr ≡ₚ argv0
      /\ sublist (unknown (mem s)) argv0).
Proof.
  intros Hrun tr. unfold parseOptions in Hrun.
  apply (parse_loop_account _ _ _ false) in Hrun; [|left; reflexivity].
  cbn [self mem dest args operands unknown app from_caller] in Hrun.
  fold (parseOptions_trace this argv0) in Hrun. fold tr in Hrun.
  assert (Hown : tokens_with ROperand (caller_entries tr) = tokens_with ROperand tr).
  { unfold tokens_with, tr, parseOptions_trace.
    rewrite operands_from_caller; [reflexivity|discriminate]. }
  clearbody tr. destruct Hrun as (Hops & Hunk & Hin).
  split; [exact Hin|]. split; [now rewrite Hops|]. split; [now rewrite Hunk|].
  split.
  { rewrite Hops, <- Hown, <- Hin. apply tokens_with_sublist. }
  split.
  { rewrite Hops, <- Hown, <- Hin. apply roles_partition. }
  split.
  { rewrite Hunk. apply tokens_with_mono, caller_entries_sublist. }
  split.
  { rewrite <- Hin. apply tokens_with_sublist. }
  intros Hall. split.
  - rewrite Hops, Hunk, <- Hin, (input_tokens_all tr) by assumption.
    apply roles_partition.
  - rewrite Hunk, <- Hin, (input_tokens_all tr) by assumption.
    apply tokens_with_sublist.
Qed.

(** Scenario A of the specification. *)
Example scenario_A :
  parseOptions scenario_A_program scenario_A_argv = Returned scenario_A_result.
Proof. vm_compute. reflexivity. Qed.

Lemma parseOptions_accounts_for_each_token_witness :
  parseOptions scenario_A_program scenario_A_argv = Returned scenario_A_result
  /\ forallb (fun e => negb (injected e))
       (parseOptions_trace scenario_A_program scenario_A_argv) = true
  /\ let tr := parseOptions_trace scenario_A_program scenario_A_argv in
     input_tokens tr = scenario_A_argv
     /\ tokens_with ROperand tr = ["extra"]
     /\ tokens_with RUnknown tr = []
     /\ sublist ["extra"] scenario_A_argv
     /\ ["extra"] ++ [] ++ ["-p"; "--chdir"; "/tmp"] ≡ₚ scenario_A_argv
     /\ sublist (@nil string) []
     /\ sublist [] scenario_A_argv
     /\ (forallb (fun e => negb (injected e)) tr = true ->
         ["extra"] ++ [] ++ ["-p"; "--chdir"; "/tmp"] ≡ₚ scenario_A_argv
         /\ sublist [] scenario_A_argv).
Proof.
  split; [vm_compute; reflexivity|]. split; [reflexivity|].
  apply (parseOptions_accounts_for_each_token
           scenario_A_program scenario_A_argv scenario_A_result).
  vm_compute; reflexivity.
Defined.

(** A run that puts a remainder back: with the boolean option
    [-p, --pepper], the input [a -px b] gives the operand [a] and the
    unknown tokens [-x] and [b]; [-x] came from the tokenizer, [-px] was
    consumed as a flag, and [a], [b] and [-px] make up the input. *)
Example accounting_with_a_remainder :
  exists s,
    parseOptions pepper_program ["a"; "-px"; "b"] = Returned s
    /\ operands (mem s) = ["a"]
    /\ unknown (mem s) = ["-x"; "b"]
    /\ tokens_with RUnknown
         (caller_entries (parseOptions_trace pepper_program ["a"; "-px"; "b"])) = ["b"]
    /\ consumed_tokens
         (caller_entries (parseOptions_trace pepper_program ["a"; "-px"; "b"])) = ["-px"].
Proof. eexists. repeat split; vm_compute; reflexivity. Qed.

(** C10: [parseOptions] does not change the array it is given.  When it
    returns, and also when it ends in an error, [argv] holds the elements
    it held at the call, in the same order: the tokens are shifted off
    the copy [args]. *)
Theorem parseOptions_leaves_argv_unchanged this argv0 s :
  final_state (parseOptions this argv0) = Some s ->
  argv (mem s) = argv0.
Proof.
  intros H. unfold parseOptions in H.
  apply parse_loop_argv in H as [H _]; [exact H|left; reflexivity].
Qed.

Lemma parseOptions_leaves_argv_unchanged_witness :
  final_state (parseOptions scenario_A_program scenario_A_argv)
  = Some scenario_A_result
  /\ argv (mem scenario_A_result) = scenario_A_argv.
Proof.
  split; [vm_compute; reflexivity|].
  apply (parseOptions_leaves_argv_unchanged scenario_A_program).
  vm_compute; reflexivity.
Defined.

(** C4: at the literal [--] the loop is left without looking at another
    token.  With [dest] on [operands] the [--] is dropped and the rest of
    the queue is appended to [operands]; with [dest] on [unknown] the
    [--] and then the rest of the queue are appended to [unknown].  The
    other result array and the option values are as they were, whatever
    the remaining tokens are; in particular [parseOptions(['--', ...rest])]
    returns [rest] as operands. *)
Theorem literal_separator_ends_option_scanning
    this av rest ops unk fuel :
  parse_loop (S fuel)
    {| self := this;
       mem := {| argv := av; args := "--" :: rest; operands := ops; unknown := unk |};
       dest := Operands |}
  = Returned
      {| self := this;
         mem := {| argv := av; args := rest; operands := ops ++ rest; unknown := unk |};
         dest := Operands |}
  /\ parse_loop (S fuel)
       {| self := this;
          mem := {| argv := av; args := "--" :: rest; operands := ops; unknown := unk |};
          dest := Unknown |}
     = Returned
         {| self := this;
            mem := {| argv := av; args := rest; operands := ops;
                      unknown := unk ++ "--" :: rest |};
            dest := Unknown |}
  /\ parseOptions this ("--" :: rest)
     = Returned
         {| self := this;
            mem := {| argv := "--" :: rest; args := rest; operands := rest;
                      unknown := [] |};
            dest := Operands |}.
Proof.
  split; [reflexivity|]. split.
  - cbn. now rewrite <- app_assoc.
  - reflexivity.
Qed.

(** With one-character short flags and long flags that start with [--],
    as the data model of the specification has them, no registered flag
    is a single-dash token of more than two characters. *)
Lemma _findOption_combo_shaped this arg :
  Forall (fun o => (forall s, short o = Some s -> String.length s = 2)
                   /\ starts_with "--" (long o) = true) (options this) ->
  combo_shaped arg = true ->
  _findOption this arg = None.
Proof.
  intros Hwf Hshape. unfold _findOption.
  induction Hwf as [|o os [Hshort Hlong] _ IH]; [reflexivity|].
  cbn [List.find]. rewrite IH.
  replace (Opt.is_ o arg) with false; [reflexivity|].
  symmetry. unfold Opt.is_. apply orb_false_intro.
  - destruct (short o) as [sh|] eqn:E; [|reflexivity].
    apply String.eqb_neq. intros ->.
    specialize (Hshort _ eq_refl). unfold combo_shaped in Hshape.
    rewrite Hshort in Hshape. discriminate.
  - apply String.eqb_neq. intros Heq. rewrite Heq in Hlong.
    unfold combo_shaped in Hshape. rewrite Hlong in Hshape.
    now rewrite andb_false_r in Hshape.
Qed.

(** C7 does not hold as stated: next to the boolean option [-p] and to
    [-x <val>], the option [-px, --pixels] is registered.  The second
    character of the token [-px] is the registered short flag [-p], yet
    the token is that third option: [parseOptions(['-px'])] sets
    [pixels] and returns, [-p] is not emitted and no error is raised. *)
Lemma token_that_is_a_flag_is_not_split :
  exists p s,
    combo_shaped "-px" = true
    /\ _findOption pixels_program "-p" = Some p
    /\ required p || optional p = false
    /\ _getOptionValue pixels_program "pepper" = VUndefined
    /\ parseOptions pixels_program ["-px"] = Returned s
    /\ _getOptionValue (self s) "pixels" = VBool true
    /\ _getOptionValue (self s) "pepper" = VUndefined.
Proof.
  eexists _, _. do 3 (split; [reflexivity|]).
  repeat split; vm_compute; reflexivity.
Qed.

(** With the boolean option [-p, --options], whose key names the field
    [options], the occurrence of [-p] in [-px] replaces the array of the
    registered options by [undefined]: [_findOption] cannot look [-x] up
    any more. *)
Example combined_flag_named_as_a_member :
  members_intact options_flag_program = true
  /\ members_kept options_flag_program = false
  /\ _getOptionValue options_flag_program "options" = VMember "options"
  /\ exists s1,
       step {| self := options_flag_program;
               mem := {| argv := ["-px"]; args := ["-px"]; operands := [];
                         unknown := [] |};
               dest := Operands |} = Continue s1
       /\ args (mem s1) = ["-x"]
       /\ _getOptionValue (self s1) "options" = VUndefined
       /\ members_intact (self s1) = false.
Proof.
  do 3 (split; [vm_compute; reflexivity|]).
  eexists. repeat split; vm_compute; reflexivity.
Qed.

(** C7 (amended): a single-dash token of more than two characters that
    is not itself a registered flag, and whose second character is a
    registered short flag, on a command of which no member was or will
    be replaced by an option value.  If that option takes a value, the
    rest of the token after its first two characters is emitted as the
    value and the queue goes on with the next token.  If it is a boolean
    option, it is emitted without a value and [-] followed by the rest
    of the token is put at the front of the queue.  So for [-px] as the
    last token, with [-p] boolean and [-x] taking a required value, [-p]
    is emitted and the run ends in the error of [optionMissingArgument]
    for [-x]: exit code 1, code [commander.optionMissingArgument]. *)
Theorem combined_short_flags this av arg rest ops unk d o :
  members_kept this = true ->
  combo_shaped arg = true ->
  _findOption this arg = None ->
  _findOption this (String.append "-" (slice_to 1 (slice_from 1 arg))) = Some o ->
  (required o || optional o = true ->
   step {| self := this;
           mem := {| argv := av; args := arg :: rest; operands := ops; unknown := unk |};
           dest := d |}
   = Continue
       {| self := emit (String.append "option:" (Opt.name o))
                    (VStr (slice_from 2 arg)) this;
          mem := {| argv := av; args := rest; operands := ops; unknown := unk |};
          dest := d |})
  /\ (required o || optional o = false ->
      step {| self := this;
              mem := {| argv := av; args := arg :: rest; operands := ops; unknown := unk |};
              dest := d |}
      = Continue
          {| self := emit (String.append "option:" (Opt.name o)) VUndefined this;
             mem := {| argv := av;
                       args := String.append "-" (slice_from 2 arg) :: rest;
                       operands := ops; unknown := unk |};
             dest := d |})
  /\ (forall p x ox fuel,
        arg = String "-" (String p (char x)) ->
        x <> "-"%char ->
        required o || optional o = false ->
        _findOption this (String.append "-" (char x)) = Some ox ->
        required ox = true ->
        parse_loop (S (S fuel))
          {| self := this;
             mem := {| argv := av; args := [arg]; operands := ops; unknown := unk |};
             dest := d |}
        = Exited (optionMissingArgument ox)
            {| self := emit (String.append "option:" (Opt.name o)) VUndefined this;
               mem := {| argv := av; args := []; operands := ops; unknown := unk |};
               dest := d |}
        /\ exitCode (optionMissingArgument ox) = 1%Z
        /\ code (optionMissingArgument ox) = "commander.optionMissingArgument"
        /\ message (optionMissingArgument ox)
           = String.append "error: option '"
               (String.append (flags ox) "' argument missing")).
Proof.
  intros _ Hshape Hnone Hsome.
  assert (Hkind : kind_of this arg = KCombo o).
  { unfold kind_of. rewrite Hshape, Hsome, Hnone.
    replace (String.eqb arg "--") with false.
    - now destruct (maybeOption arg).
    - symmetry. apply String.eqb_neq. intros ->. discriminate. }
  assert (Hstep : forall queue,
             step {| self := this;
                     mem := {| argv := av; args := arg :: queue; operands := ops;
                               unknown := unk |};
                     dest := d |}
             = if required o || optional o
               then Continue
                      {| self := emit (String.append "option:" (Opt.name o))
                                   (VStr (slice_from 2 arg)) this;
                         mem := {| argv := av; args := queue; operands := ops;
                                   unknown := unk |};
                         dest := d |}
               else Continue
                      {| self := emit (String.append "option:" (Opt.name o)) VUndefined this;
                         mem := {| argv := av;
                                   args := String.append "-" (slice_from 2 arg) :: queue;
                                   operands := ops; unknown := unk |};
                         dest := d |}).
  { intros queue.
    rewrite (step_kind_of
               {| self := this;
                  mem := {| argv := av; args := arg :: queue; operands := ops;
                            unknown := unk |};
                  dest := d |} arg queue eq_refl).
    cbv zeta. cbn [self mem]. rewrite Hkind.
    destruct (required o || optional o); reflexivity. }
  split; [|split].
  - intros Hval. now rewrite Hstep, Hval.
  - intros Hval. now rewrite Hstep, Hval.
  - intros p x ox fuel -> Hx Hbool Hox Hreq.
    cbn [parse_loop]. rewrite Hstep, Hbool.
    change (String.append "-" (slice_from 2 (String "-" (String p (char x)))))
      with (String.append "-" (char x)).
    rewrite (step_kind_of
               {| self := emit (String.append "option:" (Opt.name o)) VUndefined this;
                  mem := {| argv := av; args := [String.append "-" (char x)];
                            operands := ops; unknown := unk |};
                  dest := d |} (String.append "-" (char x)) [] eq_refl).
    cbv zeta. cbn [self mem].
    assert (Hkx : kind_of (emit (String.append "option:" (Opt.name o)) VUndefined this)
                    (String.append "-" (char x)) = KOption ox).
    { rewrite kind_of_emit. unfold kind_of.
      replace (String.eqb (String.append "-" (char x)) "--") with false.
      - replace (maybeOption (String.append "-" (char x))) with true by reflexivity.
        now rewrite Hox.
      - symmetry. apply String.eqb_neq. intros H. injection H as H. contradiction. }
    rewrite Hkx, Hreq. repeat split; reflexivity.
Qed.

Lemma combined_short_flags_witness :
  members_kept scenario_C_program = true
  /\ combo_shaped "-px" = true
  /\ _findOption scenario_C_program "-px" = None
  /\ _findOption scenario_C_program (String.append "-" (slice_to 1 (slice_from 1 "-px")))
     = Some (new_Option "-p, --pepper" "add pepper")
  /\ parseOptions scenario_C_program ["-px"]
     = Exited {| exitCode := 1;
                 code := "commander.optionMissingArgument";
                 message := "error: option '-x, --xray <val>' argument missing" |}
         {| self := _setOptionValue "pepper" (VBool true) scenario_C_program;
            mem := {| argv := ["-px"]; args := []; operands := []; unknown := [] |};
            dest := Operands |}.
Proof.
  split; [vm_compute; reflexivity|].
  split; [reflexivity|]. split; [reflexivity|]. split; [reflexivity|].
  destruct (combined_short_flags scenario_C_program ["-px"] "-px" [] [] [] Operands
              (new_Option "-p, --pepper" "add pepper")
              eq_refl eq_refl eq_refl eq_refl) as (_ & _ & H).
  exact (proj1 (H "p"%char "x"%char (new_Option "-x, --xray <val>" "") 3
                  eq_refl ltac:(discriminate) eq_refl eq_refl eq_refl)).
Defined.

(** ** The claims about the value binder *)

Lemma append_cons c p x : String.append (String c p) x = String c (String.append p x).
Proof. reflexivity. Qed.

Lemma starts_with_append p x : starts_with p (String.append p x) = true.
Proof.
  induction p as [|c p IH]; [reflexivity|].
  rewrite append_cons. cbn. now rewrite Ascii.eqb_refl.
Qed.

Lemma slice_from_append p x : slice_from (String.length p) (String.append p x) = x.
Proof.
  induction p as [|c p IH]; [now destruct x|].
  rewrite append_cons. exact IH.
Qed.

Lemma replace_prefix_append p r x :
  replace_prefix p r (String.append p x) = String.append r x.
Proof. unfold replace_prefix. now rewrite starts_with_append, slice_from_append. Qed.

(** An option whose long flag starts with [--no-] is a negation: the long
    flag is a piece of the flags, which then contain [-no-]. *)

Lemma append_assoc (a b c : string) :
  String.append (String.append a b) c = String.append a (String.append b c).
Proof. induction a as [|x a IH]; [reflexivity|]. rewrite !append_cons. now f_equal. Qed.

(** The first piece of a split is a prefix of the string. *)
Lemma split_runs_head sep s w ws :
  split_runs sep false s = w :: ws -> exists b, s = String.append w b.
Proof.
  revert w ws. induction s as [|c s IH]; intros w ws; cbn.
  - intros H; injection H as <- <-. now exists "".
  - destruct (sep c).
    + intros H; injection H as <- _. now exists (String c s).
    + destruct (split_runs sep false s) as [|w' ws'] eqn:E.
      * intros H; injection H as <- _. 
        destruct s; cbn in E; [discriminate|]. 
        destruct (sep a); [discriminate|]. destruct (split_runs sep false s); discriminate.
      * intros H; injection H as <- <-.
        destruct (IH _ _ eq_refl) as [b ->]. now exists b.
Qed.

(** Every piece of a split is a part of the string. *)
Lemma split_runs_part sep in_run s piece :
  In piece (split_runs sep in_run s) ->
  exists a b, s = String.append a (String.append piece b).
Proof.
  revert in_run piece. induction s as [|c s IH]; intros in_run piece; cbn.
  - intros [<-|[]]. now exists "", "".
  - destruct (sep c).
    + assert (Hrest : In piece (split_runs sep true s) ->
                      exists a b, String c s = String.append a (String.append piece b)).
      { intros H. destruct (IH _ _ H) as (a & b & ->). now exists (String c a), b. }
      destruct in_run; [exact Hrest|].
      intros [<-|H]; [now exists "", (String c s)|auto].
    + destruct (split_runs sep false s) as [|w ws] eqn:E.
      * intros [<-|[]]. now exists "", s.
      * intros [<-|H].
        -- destruct (split_runs_head _ _ _ _ E) as [b ->]. now exists "", b.
        -- destruct (IH false piece) as (a & b & ->); [rewrite E; now right|].
           now exists (String c a), b.
Qed.

Lemma index_from_unfold i p s :
  index_from i p s
  = if starts_with p s then Some i
    else match s with
         | EmptyString => None
         | String _ s' => index_from (S i) p s'
         end.
Proof. now destruct s. Qed.

Lemma indexOf_part p a b i :
  is_Some (index_from i p (String.append a (String.append p b))).
Proof.
  revert i. induction a as [|c a IH]; intros i.
  - change (String.append "" (String.append p b)) with (String.append p b).
    rewrite index_from_unfold, starts_with_append. eauto.
  - rewrite append_cons, index_from_unfold.
    destruct (starts_with p _); [eauto|apply IH].
Qed.

Lemma long_in_pieces flags0 description0 :
  In (long (new_Option flags0 description0)) (split_flags flags0).
Proof.
  unfold new_Option. cbn [long]. 
  destruct (split_flags flags0) as [|first [|second rest]] eqn:E.
  - unfold split_flags in E. destruct flags0; cbn in E; [discriminate|].
    destruct (is_flag_separator a); [discriminate|]. destruct (split_runs _ false flags0); discriminate.
  - cbn. now left.
  - destruct (negb (opens_value_marker second)); cbn; auto.
Qed.

Lemma negate_of_long flags0 description0 x :
  long (new_Option flags0 description0) = String.append "--no-" x ->
  negate (new_Option flags0 description0) = true.
Proof.
  intros Hlong. pose proof (long_in_pieces flags0 description0) as Hin.
  rewrite Hlong in Hin. apply split_runs_part in Hin as (a & b & ->).
  unfold new_Option. cbn [negate]. apply bool_decide_eq_true.
  unfold indexOf.
  replace (String.append a (String.append (String.append "--no-" x) b))
    with (String.append (String.append a "-") (String.append "-no-" (String.append x b))).
  - apply indexOf_part.
  - rewrite append_assoc. f_equal.
Qed.

Lemma _getOptionValue_set key v c : _getOptionValue (_setOptionValue key v c) key = v.
Proof. unfold _getOptionValue, _setOptionValue. cbn. now rewrite lookup_insert_eq. Qed.

Lemma _getOptionValue_registration o event l c key :
  _getOptionValue (with_registration o event l c) key = _getOptionValue c key.
Proof. reflexivity. Qed.

Lemma find_app_None {A} (f : A -> bool) l l' :
  List.find f l = None -> List.find f (l ++ l') = List.find f l'.
Proof.
  induction l as [|a l IH]; cbn; [reflexivity|].
  destruct (f a); [discriminate|exact IH].
Qed.

Lemma find_app_Some {A} (f : A -> bool) l l' a :
  List.find f l = Some a -> List.find f (l ++ l') = Some a.
Proof.
  induction l as [|b l IH]; cbn; [discriminate|].
  destruct (f b); [trivial|exact IH].
Qed.

(** The command after [_optionEx] registers a negation option. *)
Lemma _optionEx_negate m flags0 description0 fn0 defaultValue0 this this' :
  negate (new_Option flags0 description0) = true ->
  _optionEx m flags0 description0 fn0 defaultValue0 this = Some this' ->
  exists name,
    Opt.attributeName (new_Option flags0 description0) = Some name
    /\ let option := with_mandatory m (new_Option flags0 description0) in
       let dflt :=
         match _findOption this (replace_prefix "--no-" "--" (long option)) with
         | Some _ => _getOptionValue this name
         | None => VBool true
         end in
       let option1 := if defined dflt then with_defaultValue dflt option else option in
       this' = with_registration option1
                 (String.append "option:" (Opt.name option))
                 {| l_option := option1; l_name := name;
                    l_fn := match fn0 with FnFunction f => Some f | FnValue _ => None end;
                    l_defaultValue := dflt |}
                 (if defined dflt then _setOptionValue name dflt this else this).
Proof.
  unfold _optionEx. generalize (new_Option flags0 description0) as o.
  intros o Hneg.
  change (Opt.attributeName (with_mandatory m o)) with (Opt.attributeName o).
  destruct (Opt.attributeName o) as [name|]; [|discriminate].
  cbv zeta. cbn [negate optional required with_mandatory].
  rewrite Hneg. cbn [orb andb].
  intros H. exists name. split; [reflexivity|].
  destruct (_ && registration_throws _ _); [discriminate|].
  injection H as <-. reflexivity.
Qed.

(** The listener of a negation option without a coercion function, called
    without a value, stores [false]. *)
Lemma run_listener_negate l c :
  negate (l_option l) = true ->
  l_fn l = None ->
  _getOptionValue (run_listener l VUndefined c) (l_name l) = VBool false.
Proof.
  intros Hneg Hfn. unfold run_listener. rewrite Hfn, Hneg. cbn [loosely_null not_null].
  destruct (boolean_or_undefined _); apply _getOptionValue_set.
Qed.

Lemma emit_last event val c evs l :
  _events c = evs ++ [(event, l)] ->
  emit event val c
  = run_listener l val
      (fold_left (fun c' el => if String.eqb (fst el) event
                               then run_listener (snd el) val c' else c') evs c).
Proof.
  intros H. unfold emit. rewrite H, fold_left_app. cbn. now rewrite String.eqb_refl.
Qed.

(** The listener of a negation option with a coercion function, called
    without a value while a boolean is stored: the result of the
    function is stored, or [false] when that is [null] or [undefined]. *)
Lemma run_listener_negate_coerced l f b c :
  negate (l_option l) = true ->
  l_fn l = Some f ->
  _getOptionValue c (l_name l) = VBool b ->
  _getOptionValue (run_listener l VUndefined c) (l_name l)
  = (if loosely_null (f VUndefined (VBool b)) then VBool false
     else f VUndefined (VBool b)).
Proof.
  intros Hneg Hfn Hcur. unfold run_listener. rewrite Hfn, Hneg, Hcur.
  cbn [not_null defined boolean_or_undefined].
  destruct (loosely_null _); apply _getOptionValue_set.
Qed.

Lemma fold_no_listener event val evs c :
  forallb (fun el : string * Listener => negb (String.eqb (fst el) event)) evs = true ->
  fold_left
    (fun c' el => if String.eqb (fst el) event then run_listener (snd el) val c' else c')
    evs c = c.
Proof.
  revert c. induction evs as [|el evs IH]; intros c H; [reflexivity|].
  cbn in H. apply andb_prop in H as [Hel H]. cbn [fold_left].
  destruct (String.eqb (fst el) event); [discriminate|]. now apply IH.
Qed.

(** C5 does not hold as stated: [--no-cheese] is registered alone, with
    a coercion function; the stored value is [true] before parsing, and
    after [parseOptions(['--no-cheese'])] it is what the function
    returned, not [false]. *)
Lemma negation_with_a_coercion_function_binds_its_result :
  exists o s,
    options cheese_coerced_program = [o]
    /\ long o = "--no-cheese"
    /\ negate o = true
    /\ _getOptionValue cheese_coerced_program "cheese" = VBool true
    /\ parseOptions cheese_coerced_program ["--no-cheese"] = Returned s
    /\ _getOptionValue (self s) "cheese" = VStr "none"
    /\ _getOptionValue (self s) "cheese" <> VBool false.
Proof.
  eexists _, _. do 3 (split; [reflexivity|]).
  split; [vm_compute; reflexivity|].
  split; [vm_compute; reflexivity|].
  split; [vm_compute; reflexivity|]. discriminate.
Qed.

(** The key of [--no-emit] is [emit]: registering the option replaces
    the method [emit] of the command by [true], and [parseOptions]
    cannot call it any more. *)
Example negation_of_a_member_replaces_it :
  _getOptionValue (new_Command "") "emit" = VMember "emit"
  /\ _getOptionValue no_emit_program "emit" = VBool true
  /\ members_intact no_emit_program = false.
Proof. repeat split; vm_compute; reflexivity. Qed.

(** C5 (amended): an option registered as [--no-X] on a command that has
    neither [--X] nor [--no-X] yet and no listener for [--no-X], where
    the camel-cased [X] is the key and names no member of the command
    object, no member of which was or will be replaced.  Once
    registered, the value stored under the key is [true]; and
    [parseOptions(['--no-X'])] returns with no operand and no unknown
    token, and with [false] stored under the key when the option has no
    coercion function; with a coercion function, with what the function
    returns for [undefined] and [true], or [false] when that is [null]
    or [undefined]. *)
Theorem negation_only_option_defaults_to_true
    m flags0 description0 fn0 defaultValue0 x name this this' :
  let option := new_Option flags0 description0 in
  long option = String.append "--no-" x ->
  required option = false ->
  optional option = false ->
  ascii_only x = true ->
  Opt.camelcase x = Some name ->
  member_of_command name = false ->
  members_kept this = true ->
  _findOption this (String.append "--" x) = None ->
  _findOption this (String.append "--no-" x) = None ->
  no_listener (String.append "option:no-" x) this = true ->
  _optionEx m flags0 description0 fn0 defaultValue0 this = Some this' ->
  Opt.attributeName option = Some name
  /\ _getOptionValue this' name = VBool true
  /\ exists s,
       parseOptions this' [String.append "--no-" x] = Returned s
       /\ operands (mem s) = []
       /\ unknown (mem s) = []
       /\ _getOptionValue (self s) name
          = match fn0 with
            | FnValue _ => VBool false
            | FnFunction f =>
                if loosely_null (f VUndefined (VBool true)) then VBool false
                else f VUndefined (VBool true)
            end.
Proof.
  intros option Hlong Hreq Hopt _ Hkey _ _ Hpos Hself Hnone Hreg.
  pose proof (negate_of_long flags0 description0 x Hlong) as Hneg.
  destruct (_optionEx_negate _ _ _ _ _ _ _ Hneg Hreg) as (name' & Hname & Hthis').
  assert (Honame : Opt.name option = String.append "no-" x).
  { unfold Opt.name. rewrite Hlong.
    exact (replace_prefix_append "--" "" (String.append "no-" x)). }
  assert (name' = name) as ->.
  { unfold Opt.attributeName in Hname. fold option in Hname.
    rewrite Honame, replace_prefix_append in Hname.
    change (String.append "" x) with x in Hname. congruence. }
  cbv zeta in Hthis'. cbn [long with_mandatory] in Hthis'. fold option in Hthis'.
  rewrite Hlong, replace_prefix_append, Hpos in Hthis'. cbn [defined] in Hthis'.
  split; [exact Hname|]. split.
  { rewrite Hthis', _getOptionValue_registration. apply _getOptionValue_set. }
  set (option1 := with_defaultValue (VBool true) (with_mandatory m option)) in *.
  assert (Hlong1 : long option1 = String.append "--no-" x) by exact Hlong.
  assert (Hreq1 : required option1 = false) by exact Hreq.
  assert (Hopt1 : optional option1 = false) by exact Hopt.
  assert (Hneg1 : negate option1 = true) by exact Hneg.
  set (tok := String.append "--no-" x).
  assert (Hfind : _findOption this' tok = Some option1).
  { rewrite Hthis'. unfold _findOption. cbn [options with_registration].
    rewrite find_app_None by exact Hself. cbn [List.find].
    unfold Opt.is_. rewrite Hlong1.
    fold tok. now rewrite String.eqb_refl, orb_true_r. }
  assert (Hkind : kind_of this' tok = KOption option1).
  { unfold kind_of. now rewrite Hfind. }
  eexists. split.
  { unfold parseOptions. cbn [parse_loop queue_size map list_sum].
    rewrite (step_kind_of
               {| self := this';
                  mem := {| argv := [tok]; args := [tok]; operands := []; unknown := [] |};
                  dest := Operands |} tok [] eq_refl).
    cbv zeta. cbn [self mem]. rewrite Hkind, Hreq1, Hopt1.
    change (queue_size [tok]) with (S (String.length tok + 0)).
    cbn [parse_loop]. rewrite step_nil by reflexivity. reflexivity. }
  cbn [mem operands unknown self emit_option with_mem write]. repeat split.
  assert (Hname1 : Opt.name option1 = String.append "no-" x) by exact Honame.
  rewrite Hname1.
  erewrite emit_last.
  2:{ rewrite Hthis'. cbn [_events with_registration].
      change (Opt.name (with_mandatory m option)) with (Opt.name option).
      rewrite Honame. reflexivity. }
  change (String.append "option:" (String.append "no-" x))
    with (String.append "option:no-" x).
  change (fold_left _ (_events this) this')
    with (fold_left
            (fun c' el => if String.eqb (fst el) (String.append "option:no-" x)
                          then run_listener (snd el) VUndefined c' else c')
            (_events this) this').
  destruct fn0 as [f|v].
  - rewrite (fold_no_listener _ _ _ _ Hnone).
    apply (run_listener_negate_coerced
             {| l_option := option1; l_name := name; l_fn := Some f;
                l_defaultValue := VBool true |} f true); [exact Hneg1|reflexivity|].
    rewrite Hthis', _getOptionValue_registration. apply _getOptionValue_set.
  - apply (run_listener_negate
             {| l_option := option1; l_name := name; l_fn := None;
                l_defaultValue := VBool true |}); [exact Hneg1|reflexivity].
Qed.

Lemma negation_only_option_defaults_to_true_witness :
  long (new_Option "--no-cheese" "remove cheese") = String.append "--no-" "cheese"
  /\ required (new_Option "--no-cheese" "remove cheese") = false
  /\ optional (new_Option "--no-cheese" "remove cheese") = false
  /\ ascii_only "cheese" = true
  /\ Opt.camelcase "cheese" = Some "cheese"
  /\ member_of_command "cheese" = false
  /\ members_kept (new_Command "") = true
  /\ _findOption (new_Command "") (String.append "--" "cheese") = None
  /\ _findOption (new_Command "") (String.append "--no-" "cheese") = None
  /\ no_listener (String.append "option:no-" "cheese") (new_Command "") = true
  /\ _optionEx false "--no-cheese" "remove cheese" (FnValue VUndefined) VUndefined
       (new_Command "") = Some cheese_program
  /\ Opt.attributeName (new_Option "--no-cheese" "remove cheese") = Some "cheese"
  /\ _getOptionValue cheese_program "cheese" = VBool true
  /\ exists s,
       parseOptions cheese_program [String.append "--no-" "cheese"] = Returned s
       /\ operands (mem s) = []
       /\ unknown (mem s) = []
       /\ _getOptionValue (self s) "cheese" = VBool false.
Proof.
  do 11 (split; [vm_compute; reflexivity|]).
  exact (negation_only_option_defaults_to_true
           false "--no-cheese" "remove cheese" (FnValue VUndefined) VUndefined
           "cheese" "cheese" (new_Command "") cheese_program
           eq_refl eq_refl eq_refl eq_refl eq_refl eq_refl eq_refl eq_refl eq_refl
           eq_refl eq_refl).
Defined.

(** C9: an option [--no-X] registered on a command on which [--X] is
    registered already and of which no member was replaced; the
    camel-cased [X] is the key of [--no-X].  The key may name a method
    or one of the [object_fields] of the command, which read as that
    member; it names none of the [other_fields], whose values the record
    does not keep in full.  The default that the new option and its
    listener keep is the value stored under that key at that moment, as
    [_getOptionValue] reads it, not [true].  If that value is not
    [undefined], it is stored again and is the [defaultValue] of the
    option; if it is [undefined], no value is stored and the
    [defaultValue] of the option stays [undefined].  The key is the key
    of [--X], unless [X] itself starts with [no-]. *)
Theorem negation_default_is_the_positive_value
    m flags0 description0 fn0 defaultValue0 x name this this' positive :
  let option := new_Option flags0 description0 in
  long option = String.append "--no-" x ->
  ascii_only x = true ->
  Opt.camelcase x = Some name ->
  listed name other_fields = false ->
  members_intact this = true ->
  _findOption this (String.append "--" x) = Some positive ->
  _optionEx m flags0 description0 fn0 defaultValue0 this = Some this' ->
  exists registered listener,
    Opt.attributeName option = Some name
    /\ options this' = options this ++ [registered]
    /\ _events this' = _events this ++ [(String.append "option:no-" x, listener)]
    /\ l_name listener = name
    /\ l_defaultValue listener = _getOptionValue this name
    /\ _getOptionValue this' name = _getOptionValue this name
    /\ defaultValue registered
       = (if defined (_getOptionValue this name) then _getOptionValue this name
          else defaultValue option)
    /\ defaultValue option = VUndefined
    /\ (_getOptionValue this name = VUndefined ->
        _optionValues this' = _optionValues this)
    /\ (long positive = String.append "--" x -> starts_with "no-" x = false ->
        Opt.attributeName positive = Some name).
Proof.
  intros option Hlong _ Hcamel _ _ Hpos Hreg.
  pose proof (negate_of_long flags0 description0 x Hlong) as Hneg.
  destruct (_optionEx_negate _ _ _ _ _ _ _ Hneg Hreg) as (name' & Hname & Hthis').
  cbv zeta in Hthis'. cbn [long with_mandatory] in Hthis'. fold option in Hthis'.
  rewrite Hlong, replace_prefix_append, Hpos in Hthis'.
  assert (Honame : Opt.name (with_mandatory m option) = String.append "no-" x).
  { unfold Opt.name. cbn [long with_mandatory]. rewrite Hlong.
    exact (replace_prefix_append "--" "" (String.append "no-" x)). }
  rewrite Honame in Hthis'.
  assert (name' = name) as ->.
  { unfold Opt.attributeName in Hname. fold option in Hname.
    change (Opt.name option) with (Opt.name (with_mandatory m option)) in Hname.
    rewrite Honame, replace_prefix_append in Hname.
    change (String.append "" x) with x in Hname. congruence. }
  assert (Hkey : long positive = String.append "--" x -> starts_with "no-" x = false ->
                 Opt.attributeName positive = Some name).
  { intros Hp Hx. unfold Opt.attributeName, Opt.name. rewrite Hp.
    rewrite replace_prefix_append. change (String.append "" x) with x.
    unfold replace_prefix. now rewrite Hx. }
  destruct (defined (_getOptionValue this name)) eqn:Hdef.
  - eexists _, _. split; [exact Hname|].
    rewrite Hthis'. cbn [options _events with_registration l_defaultValue l_name].
    rewrite _getOptionValue_registration, _getOptionValue_set, ?Hdef.
    do 7 (split; [reflexivity|]). split; [|exact Hkey].
    intros Hund. rewrite Hund in Hdef. discriminate.
  - eexists _, _. split; [exact Hname|].
    rewrite Hthis'. cbn [options _events with_registration l_defaultValue l_name].
    rewrite _getOptionValue_registration, ?Hdef.
    do 7 (split; [reflexivity|]). split; [|exact Hkey].
    intros _. reflexivity.
Qed.

Lemma negation_default_is_the_positive_value_witness :
  long (new_Option "--no-cheese" "no cheese") = String.append "--no-" "cheese"
  /\ ascii_only "cheese" = true
  /\ Opt.camelcase "cheese" = Some "cheese"
  /\ listed "cheese" other_fields = false
  /\ members_intact cheese_type_program = true
  /\ _findOption cheese_type_program (String.append "--" "cheese")
     = Some (with_defaultValue (VStr "blue") (new_Option "-c, --cheese [type]" "add cheese"))
  /\ _optionEx false "--no-cheese" "no cheese" (FnValue VUndefined) VUndefined
       cheese_type_program = Some cheese_or_not_program
  /\ exists registered listener,
       Opt.attributeName (new_Option "--no-cheese" "no cheese") = Some "cheese"
       /\ options cheese_or_not_program = options cheese_type_program ++ [registered]
       /\ _events cheese_or_not_program
          = _events cheese_type_program
            ++ [(String.append "option:no-" "cheese", listener)]
       /\ l_name listener = "cheese"
       /\ l_defaultValue listener = VStr "blue"
       /\ _getOptionValue cheese_or_not_program "cheese" = VStr "blue"
       /\ defaultValue registered = VStr "blue"
       /\ defaultValue (new_Option "--no-cheese" "no cheese") = VUndefined
       /\ (_getOptionValue cheese_type_program "cheese" = VUndefined ->
           _optionValues cheese_or_not_program = _optionValues cheese_type_program)
       /\ (long (with_defaultValue (VStr "blue")
                   (new_Option "-c, --cheese [type]" "add cheese"))
           = String.append "--" "cheese" ->
           starts_with "no-" "cheese" = false ->
           Opt.attributeName
             (with_defaultValue (VStr "blue")
                (new_Option "-c, --cheese [type]" "add cheese")) = Some "cheese").
Proof.
  do 7 (split; [vm_compute; reflexivity|]).
  exact (negation_default_is_the_positive_value
           false "--no-cheese" "no cheese" (FnValue VUndefined) VUndefined
           "cheese" "cheese"
           cheese_type_program cheese_or_not_program
           (with_defaultValue (VStr "blue") (new_Option "-c, --cheese [type]" "add cheese"))
           eq_refl eq_refl eq_refl eq_refl eq_refl eq_refl eq_refl).
Defined.

Example negation_default_blue :
  _getOptionValue cheese_or_not_program "cheese" = VStr "blue"
  /\ map defaultValue (options cheese_or_not_program) = [VStr "blue"; VStr "blue"].
Proof. split; vm_compute; reflexivity. Qed.

(** The value read under a key that was never assigned is the member of
    that name: [--once] stores nothing when it is registered, and the
    default of [--no-once] is the method [once] of the command, which is
    assigned again under its own name and is the [defaultValue] of the
    option.  The key [once] is none of the [other_fields]. *)
Example negation_default_of_a_member :
  _optionValues once_program = ∅
  /\ listed "once" other_fields = false
  /\ members_intact once_program = true
  /\ (exists positive, _findOption once_program "--once" = Some positive)
  /\ _optionEx false "--no-once" "run again" (FnValue VUndefined) VUndefined once_program
     = Some once_or_not_program
  /\ _getOptionValue once_program "once" = VMember "once"
  /\ _getOptionValue once_or_not_program "once" = VMember "once"
  /\ map defaultValue (options once_or_not_program) = [VUndefined; VMember "once"]
  /\ map (fun el => l_defaultValue (snd el)) (_events once_or_not_program)
     = [VUndefined; VMember "once"].
Proof.
  do 3 (split; [vm_compute; reflexivity|]).
  split; [eexists; vm_compute; reflexivity|].
  repeat split; vm_compute; reflexivity.
Qed.

(** C6 does not hold as stated: the boolean option [-d, --debug] is
    declared with the default [false], which is a defined value, and the
    stored value is that boolean before parsing; after [--debug], which
    comes without a value, the stored value is [true], not the default. *)
Lemma flag_with_false_default_binds_true :
  exists o s,
    options debug_program = [o]
    /\ negate o = false
    /\ defaultValue o = VBool false
    /\ defined (defaultValue o) = true
    /\ boolean_or_undefined (_getOptionValue debug_program "debug") = true
    /\ parseOptions debug_program ["--debug"] = Returned s
    /\ _getOptionValue (self s) "debug" = VBool true
    /\ _getOptionValue (self s) "debug" <> defaultValue o.
Proof.
  eexists _, _. split; [reflexivity|].
  do 4 (split; [reflexivity|]).
  split; [vm_compute; reflexivity|].
  split; [reflexivity|]. discriminate.
Qed.

(** C6 (amended): the listener of an option that is not a negation and
    whose key names no member of the command object is called with
    [null], or with no value and no coercion function, on a command of
    which no member was replaced, while the value that
    [_getOptionValue] reads under its key is [undefined] or a boolean.
    Then the stored value becomes the default captured at registration
    when that default is truthy, and [true] otherwise: when no default
    was given and also when the default is [false] or another falsy
    value. *)
Theorem flag_without_value_binds_truthy_default_or_true l val this :
  negate (l_option l) = false ->
  member_of_command (l_name l) = false ->
  members_intact this = true ->
  boolean_or_undefined (_getOptionValue this (l_name l)) = true ->
  val = VNull \/ (val = VUndefined /\ l_fn l = None) ->
  _getOptionValue (run_listener l val this) (l_name l)
  = (if truthy (l_defaultValue l) then l_defaultValue l else VBool true).
Proof.
  intros Hneg _ _ Hbool Hval. unfold run_listener.
  assert (Hcoerced :
            loosely_null
              match l_fn l with
              | Some fn =>
                  if not_null val
                  then fn val (if defined (_getOptionValue this (l_name l))
                               then _getOptionValue this (l_name l)
                               else l_defaultValue l)
                  else val
              | None => val
              end = true).
  { destruct Hval as [-> | [-> ->]]; [|reflexivity]. now destruct (l_fn l). }
  rewrite Hbool, Hcoerced, Hneg. apply _getOptionValue_set.
Qed.

Lemma flag_without_value_binds_truthy_default_or_true_witness :
  negate (new_Option "-d, --debug" "output extra debugging") = false
  /\ member_of_command "debug" = false
  /\ members_intact debug_program = true
  /\ boolean_or_undefined (_getOptionValue debug_program "debug") = true
  /\ (VUndefined = VNull \/ (VUndefined = VUndefined /\ @None (value -> value -> value) = None))
  /\ _getOptionValue
       (run_listener
          {| l_option := new_Option "-d, --debug" "output extra debugging";
             l_name := "debug"; l_fn := None; l_defaultValue := VBool false |}
          VUndefined debug_program) "debug"
     = VBool true.
Proof.
  split; [reflexivity|]. do 3 (split; [vm_compute; reflexivity|]).
  split; [right; split; reflexivity|].
  exact (flag_without_value_binds_truthy_default_or_true
           {| l_option := new_Option "-d, --debug" "output extra debugging";
              l_name := "debug"; l_fn := None; l_defaultValue := VBool false |}
           VUndefined debug_program eq_refl eq_refl eq_refl eq_refl
           (or_intror (conj eq_refl eq_refl))).
Defined.

(** A flag whose key names a method never assigned is outside C6: the
    value read under [once] is the method, not [undefined], and the
    occurrence of [--once] stores [undefined] in its place. *)
Example flag_named_as_a_member_stores_undefined :
  boolean_or_undefined (_getOptionValue once_program "once") = false
  /\ exists s,
       parseOptions once_program ["--once"] = Returned s
       /\ _getOptionValue (self s) "once" = VUndefined.
Proof.
  split; [vm_compute; reflexivity|]. eexists. split; vm_compute; reflexivity.
Qed.

(** ** The claims about the resolver *)

(** C8 does not hold as stated: [build] has the alias [serve] and is
    registered before the command named [serve]; looking up [serve]
    returns [build], the alias match, and [parse] runs the action of
    [build]. *)
Lemma alias_registered_first_wins_over_name :
  exists first second,
    commands alias_program = [first; second]
    /\ _name first = "build" /\ _alias first = Some "serve"
    /\ _name second = "serve"
    /\ _findCommand alias_program (Some "serve") = Some first
    /\ _findCommand alias_program (Some "serve") <> Some second
    /\ parse alias_program ["node"; "prog"; "serve"] = ActionCalled first [].
Proof.
  eexists _, _. split; [reflexivity|].
  do 4 (split; [reflexivity|]). split; [|reflexivity].
  intros H. apply (f_equal (option_map _name)) in H. discriminate.
Qed.

Lemma find_first_match {A} (f : A -> bool) l a :
  List.find f l = Some a <->
  exists before after,
    l = before ++ a :: after
    /\ forallb (fun b => negb (f b)) before = true
    /\ f a = true.
Proof.
  split.
  - induction l as [|b l IH]; cbn; [discriminate|].
    destruct (f b) eqn:Hb.
    + intros H; injection H as ->. exists [], l. auto.
    + intros H. destruct (IH H) as (before & after & -> & Hbefore & Ha).
      exists (b :: before), after. cbn. rewrite Hb, Hbefore. auto.
  - intros (before & after & -> & Hbefore & Ha).
    induction before as [|b before IH]; cbn in *.
    + now rewrite Ha.
    + apply andb_prop in Hbefore as [Hb Hbefore].
      apply negb_true_iff in Hb. rewrite Hb. auto.
Qed.

(** C8 (amended): for a name that is not empty, [_findCommand] returns
    the first child in registration order whose name or whose alias is
    that name; in one child the name is compared before the alias.  So a
    child with that name is returned exactly when no child registered
    before it has that name or that alias. *)
Theorem _findCommand_returns_the_first_match this name child :
  name <> "" ->
  (_findCommand this (Some name) = Some child <->
   exists before after,
     commands this = before ++ child :: after
     /\ forallb (fun c => negb (answers_to name c)) before = true
     /\ answers_to name child = true).
Proof.
  intros Hname. unfold _findCommand.
  apply String.eqb_neq in Hname. rewrite Hname.
  apply find_first_match.
Qed.

Lemma _findCommand_returns_the_first_match_witness :
  "serve" <> ""
  /\ (_findCommand alias_program (Some "serve")
      = head (commands alias_program) <->
      exists before after,
        commands alias_program
        = before ++ default (new_Command "") (head (commands alias_program)) :: after
        /\ forallb (fun c => negb (answers_to "serve" c)) before = true
        /\ answers_to "serve" (default (new_Command "") (head (commands alias_program)))
           = true).
Proof.
  split; [discriminate|].
  exact (_findCommand_returns_the_first_match alias_program "serve"
           (default (new_Command "") (head (commands alias_program)))
           ltac:(discriminate)).
Defined.

Lemma defined_false v : defined v = false -> v = VUndefined.
Proof. now destruct v. Qed.

(** What the sweep over the options of one command reports. *)
Lemma check_mandatory_options_Some cmd os r :
  check_mandatory_options cmd os = Some r ->
  r = TypeError
  \/ exists o, r = Exit (missingMandatoryOptionValue o)
               /\ In o os /\ mandatory o = true
               /\ exists key, Opt.attributeName o = Some key
                              /\ _getOptionValue cmd key = VUndefined.
Proof.
  induction os as [|o os IH]; cbn; [discriminate|].
  destruct (mandatory o) eqn:Hm.
  - destruct (Opt.attributeName o) as [key|] eqn:Hkey.
    + destruct (defined (_getOptionValue cmd key)) eqn:Hdef.
      * intros H. destruct (IH H) as [->|(o' & -> & Hin & ?)]; [now left|].
        right. exists o'. auto.
      * intros H; injection H as <-. right. exists o.
        repeat split; auto. exists key. auto using defined_false.
    + intros H; injection H as <-. now left.
  - intros H. destruct (IH H) as [->|(o' & -> & Hin & ?)]; [now left|].
    right. exists o'. auto.
Qed.

Lemma check_mandatory_options_keys cmd os :
  forallb (fun o => bool_decide (is_Some (Opt.attributeName o))) os = true ->
  check_mandatory_options cmd os <> Some TypeError.
Proof.
  induction os as [|o os IH]; cbn; [discriminate|].
  intros H. apply andb_prop in H as [Ho Hos].
  apply bool_decide_eq_true in Ho as [key Hkey]. rewrite Hkey.
  destruct (mandatory o); [|auto].
  destruct (defined (_getOptionValue cmd key)); [auto|discriminate].
Qed.

Lemma check_mandatory_options_lacking cmd os o :
  In o os ->
  mandatory o = true ->
  (exists key, Opt.attributeName o = Some key /\ _getOptionValue cmd key = VUndefined) ->
  exists r, check_mandatory_options cmd os = Some r.
Proof.
  intros Hin Hm (key & Hkey & Hval).
  induction os as [|o' os IH]; [contradiction|].
  cbn. destruct Hin as [->|Hin].
  - rewrite Hm, Hkey, Hval. cbn. eauto.
  - destruct (mandatory o'); [|auto].
    destruct (Opt.attributeName o'); [|eauto].
    destruct (defined _); [auto|eauto].
Qed.

(** The sweep stops at a chain in which some command lacks the value of a
    mandatory option. *)
Lemma sweep_lacking chain cmd o :
  In cmd chain ->
  lacks_mandatory_value cmd o ->
  exists r, _checkForMissingMandatoryOptions chain = Some r.
Proof.
  intros Hin (Ho & Hm & Hkey).
  induction chain as [|c chain IH]; [contradiction|].
  cbn. destruct Hin as [->|Hin].
  - destruct (check_mandatory_options_lacking cmd (options cmd) o Ho Hm Hkey) as [r ->].
    eauto.
  - destruct (check_mandatory_options c (options c)); [eauto|auto].
Qed.

(** What the sweep reports is an exception of [attributeName] or the
    error for an option of the chain that lacks its value. *)
Lemma sweep_Some chain r :
  _checkForMissingMandatoryOptions chain = Some r ->
  r = TypeError
  \/ exists cmd o, r = Exit (missingMandatoryOptionValue o)
                   /\ In cmd chain /\ lacks_mandatory_value cmd o.
Proof.
  induction chain as [|c chain IH]; cbn; [discriminate|].
  destruct (check_mandatory_options c (options c)) as [r'|] eqn:Hc.
  - intros H; injection H as <-.
    apply check_mandatory_options_Some in Hc as [->|(o & -> & Hin & Hm & Hkey)];
      [now left|].
    right. exists c, o. unfold lacks_mandatory_value. auto.
  - intros H. destruct (IH H) as [->|(cmd & o & -> & Hin & Hl)]; [now left|].
    right. exists cmd, o. auto.
Qed.

Lemma sweep_keys chain :
  Forall (fun c => keys_defined c = true) chain ->
  _checkForMissingMandatoryOptions chain <> Some TypeError.
Proof.
  induction 1 as [|c chain Hc _ IH]; cbn; [discriminate|].
  destruct (check_mandatory_options c (options c)) as [r|] eqn:E; [|exact IH].
  intros H; injection H as ->.
  now apply (check_mandatory_options_keys c (options c) Hc).
Qed.

(** The options that [_optionEx] registers have keys. *)
Lemma _optionEx_keys_defined m flags0 description0 fn0 defaultValue0 this this' :
  keys_defined this = true ->
  _optionEx m flags0 description0 fn0 defaultValue0 this = Some this' ->
  keys_defined this' = true.
Proof.
  unfold _optionEx, keys_defined. intros Hkeys.
  generalize (new_Option flags0 description0) as o. intros o.
  change (Opt.attributeName (with_mandatory m o)) with (Opt.attributeName o).
  destruct (Opt.attributeName o) as [name|] eqn:Hname; [|discriminate].
  cbv zeta. destruct (_ && registration_throws _ _); [discriminate|].
  intros H. injection H as <-. cbn [options with_registration].
  assert (Hopts : forall v c, options (_setOptionValue name v c) = options c)
    by reflexivity.
  assert (Hlast : forall o', Opt.attributeName o' = Opt.attributeName o ->
                    forallb (fun o => bool_decide (is_Some (Opt.attributeName o)))
                      (options this ++ [o']) = true).
  { intros o' Ho'. rewrite forallb_app, Hkeys. cbn. rewrite Ho', Hname.
    rewrite bool_decide_eq_true_2 by eauto. reflexivity. }
  repeat match goal with
         | |- context [if ?b then _ else _] => destruct b
         end; rewrite ?Hopts; apply Hlast; reflexivity.
Qed.

Lemma outputHelpIfRequested_Some cmd args0 o :
  outputHelpIfRequested cmd args0 = Some o -> o = Exit helpDisplayed.
Proof.
  unfold outputHelpIfRequested.
  destruct (List.find _ args0) as [flag|]; [|discriminate].
  destruct (negb (String.eqb flag "")); [|discriminate].
  now intros H; injection H as <-.
Qed.

Lemma bind_args_inl count i descs args0 o :
  bind_args count i descs args0 = inl o ->
  exists e, o = Exit e
            /\ (code e = "commander.missingArgument"
                \/ code e = "commander.variadicArgNotLast").
Proof.
  revert i args0. induction descs as [|arg descs IH]; intros i args0; cbn;
    [discriminate|].
  destruct (arg_required arg && arg_missing args0 i).
  { intros H; injection H as <-. eexists. split; [reflexivity|]. now left. }
  destruct (arg_variadic arg); [|apply IH].
  destruct (negb (i =? count - 1)%nat); [|apply IH].
  intros H; injection H as <-. eexists. split; [reflexivity|]. now right.
Qed.

Lemma bind_args_exit_code count i descs args0 e :
  bind_args count i descs args0 = inl (Exit e) -> exitCode e = 1%Z.
Proof.
  revert i args0. induction descs as [|arg descs IH]; intros i args0; cbn;
    [discriminate|].
  destruct (arg_required arg && arg_missing args0 i).
  { now intros H; injection H as <-. }
  destruct (arg_variadic arg); [|apply IH].
  destruct (negb (i =? count - 1)%nat); [|apply IH].
  now intros H; injection H as <-.
Qed.

(** ** The resolver comes to an end *)

Lemma commands_step s : commands (self (state_of (step s))) = commands (self s).
Proof.
  destruct (args (mem s)) as [|arg rest] eqn:Hargs.
  - now rewrite (step_nil s Hargs).
  - rewrite (step_kind_of s arg rest Hargs). cbv zeta.
    destruct (kind_of (self s) arg) as [|o|o|o index|]; unfold add_arg;
      repeat match goal with
             | |- context [if ?b then _ else _] => destruct b
             | |- context [match ?l with [] => _ | _ :: _ => _ end] => destruct l
             end;
      cbn; rewrite ?commands_emit; reflexivity.
Qed.

Lemma commands_parse_loop fuel s s' :
  final_state (parse_loop fuel s) = Some s' ->
  commands (self s') = commands (self s).
Proof.
  revert s. induction fuel as [|fuel IH]; intros s; [discriminate|].
  cbn [parse_loop]. pose proof (commands_step s) as Hstep.
  destruct (step s) as [s1|s1|e s1]; cbn in *.
  - intros H. now rewrite (IH s1 H).
  - now intros H; injection H as <-.
  - now intros H; injection H as <-.
Qed.

Lemma levels_commands c c' : commands c = commands c' -> levels c = levels c'.
Proof. destruct c, c'. cbn. now intros ->. Qed.

Lemma levels_child this sub :
  In sub (commands this) -> levels sub < levels this.
Proof.
  intros Hin. destruct this as [cs ? ? ? ? ? ? ? ? ? ? ? ? ? ? ?]. cbn in *.
  apply Nat.lt_succ_r.
  induction cs as [|c cs IH]; [contradiction|].
  cbn. destruct Hin as [->|Hin]; [lia|].
  specialize (IH Hin). lia.
Qed.

Lemma _findCommand_In this name sub :
  _findCommand this name = Some sub -> In sub (commands this).
Proof.
  unfold _findCommand. destruct name as [n|]; [|discriminate].
  destruct (String.eqb n ""); [discriminate|].
  intros H. now apply List.find_some in H.
Qed.

(** With as much fuel as the tree has levels, [_parseCommand] does not
    run out of it. *)
Lemma _parseCommand_fuel fuel parents this0 operands0 unknown0 :
  levels this0 <= fuel ->
  _parseCommand fuel parents this0 operands0 unknown0 <> NoFuel.
Proof.
  revert parents this0 operands0 unknown0.
  induction fuel as [|fuel IH]; intros parents this0 operands0 unknown0 Hfuel.
  { destruct this0; cbn in Hfuel; lia. }
  cbn [_parseCommand].
  pose proof (parseOptions_fuel this0 unknown0) as Hp.
  destruct (parseOptions this0 unknown0) as [parsed|e s|] eqn:Hparse;
    [|discriminate|contradiction].
  cbv zeta. set (this := self parsed).
  assert (Hlevels : levels this = levels this0).
  { apply levels_commands. unfold parseOptions in Hparse.
    apply (f_equal final_state) in Hparse.
    exact (commands_parse_loop _ _ parsed Hparse). }
  assert (Hsweep : forall chain next,
             next <> NoFuel ->
             guard (_checkForMissingMandatoryOptions chain) next <> NoFuel).
  { intros chain next Hnext.
    destruct (_checkForMissingMandatoryOptions chain) as [r|] eqn:Hr; [|exact Hnext].
    cbn. apply sweep_Some in Hr as [->|(? & ? & -> & _)]; discriminate. }
  assert (Hhelp : forall unk next,
             next <> NoFuel -> guard (outputHelpIfRequested this unk) next <> NoFuel).
  { intros unk next Hnext.
    destruct (outputHelpIfRequested this unk) as [h|] eqn:Hh; [|exact Hnext].
    cbn. now apply outputHelpIfRequested_Some in Hh as ->. }
  assert (Hdispatch : forall commandName operands2 unknown2,
             match _findCommand this commandName with
             | None => Exit _helpAndError
             | Some subCommand =>
                 if _executableHandler subCommand then
                   guard (_checkForMissingMandatoryOptions (this :: parents))
                     (SubCommandExecuted this subCommand (operands2 ++ unknown2))
                 else _parseCommand fuel (this :: parents) subCommand operands2 unknown2
             end <> NoFuel).
  { intros commandName operands2 unknown2.
    destruct (_findCommand this commandName) as [sub|] eqn:Hsub; [|discriminate].
    destruct (_executableHandler sub); [now apply Hsweep|].
    apply IH. apply _findCommand_In, levels_child in Hsub. lia. }
  destruct (bool_decide _); [apply Hdispatch|].
  destruct (_lazyHasImplicitHelpCommand this && _).
  { destruct (_ =? 1)%nat; [discriminate|apply Hdispatch]. }
  destruct (has_default_command this); [apply Hhelp, Hdispatch|].
  unfold parse_terminal. cbv zeta.
  destruct (_ && _ && negb (_actionHandler this) && _); [discriminate|].
  cbn [guard]. apply Hhelp, Hsweep.
  assert (Hunknown : forall flag next,
             next <> NoFuel -> guard (unknownOption this flag) next <> NoFuel).
  { intros flag next Hnext. unfold unknownOption.
    destruct (_allowUnknownOption this); [exact Hnext|discriminate]. }
  assert (Hrest : (if _actionHandler this
                   then match bind_args (length (_args this)) 0 (_args this)
                                (map AString ((operands0 ++ operands (mem parsed))
                                              ++ unknown (mem parsed))) with
                        | inl o => o
                        | inr args1 => ActionCalled this args1
                        end
                   else if (0 <? length (operands0 ++ operands (mem parsed)))%nat
                        then if bool_decide (is_Some (_findCommand this (Some "*")))
                             then match _findCommand this (Some "*") with
                                  | None => Exit _helpAndError
                                  | Some subCommand =>
                                      if _executableHandler subCommand then
                                        guard (_checkForMissingMandatoryOptions (this :: parents))
                                          (SubCommandExecuted this subCommand
                                             ((operands0 ++ operands (mem parsed))
                                              ++ unknown (mem parsed)))
                                      else _parseCommand fuel (this :: parents) subCommand
                                             (operands0 ++ operands (mem parsed))
                                             (unknown (mem parsed))
                                  end
                             else if (0 <? commandStarListeners this)%nat
                                  then CommandStarEmitted this
                                         (operands0 ++ operands (mem parsed))
                                         (unknown (mem parsed))
                                  else if (0 <? length (commands this))%nat
                                       then Exit (unknownCommand
                                                    (hd EmptyString
                                                       ((operands0 ++ operands (mem parsed))
                                                        ++ unknown (mem parsed))))
                                       else ReturnedToCaller this
                        else if (0 <? length (commands this))%nat
                             then Exit _helpAndError
                             else ReturnedToCaller this) <> NoFuel).
  { destruct (_actionHandler this).
    - destruct (bind_args _ _ _ _) as [b|] eqn:Hb; [|discriminate].
      now destruct (bind_args_inl _ _ _ _ _ Hb) as (e & -> & _).
    - destruct (0 <? length (operands0 ++ operands (mem parsed)))%nat.
      + destruct (bool_decide _); [apply Hdispatch|].
        destruct (0 <? commandStarListeners this)%nat; [discriminate|].
        destruct (0 <? length (commands this))%nat; discriminate.
      + destruct (0 <? length (commands this))%nat; discriminate. }
  destruct (unknown (mem parsed)) as [|first rest] eqn:Hunk.
  - cbn [guard]. exact Hrest.
  - apply Hunknown. exact Hrest.
Qed.

(** [parse] comes to an end. *)
Lemma parse_total this argv0 : parse this argv0 <> NoFuel.
Proof.
  unfold parse. destruct (String.eqb (_name this) "").
  - destruct (argv0 !! 1%nat); [|discriminate]. now apply _parseCommand_fuel.
  - now apply _parseCommand_fuel.
Qed.

(** A program without a name takes the name of the script, without its
    directories and its extension; the arguments start after the script.
    Without a script there is no name to take. *)
Example parse_takes_the_name_of_the_script :
  parse pizza_program ["node"; "/usr/local/bin/pizza.js"; "ham"]
  = ActionCalled (with_name "pizza" pizza_program) [AString "ham"]
  /\ parse pizza_program ["node"] = TypeError
  /\ parse (with_name "order" pizza_program) ["node"]
     = ActionCalled (with_name "order" pizza_program) [].
Proof. repeat split; vm_compute; reflexivity. Qed.

(** The exits of the help: the help command alone, a command that
    misses its subcommand, an unknown command. *)
Example help_and_unknown_command_exits :
  parse scenario_B_program ["node"; "prog"; "help"]
  = Exit {| exitCode := 0; code := "commander.help"; message := "(outputHelp)" |}
  /\ parse scenario_B_program ["node"; "prog"]
     = Exit {| exitCode := 1; code := "commander.help"; message := "(outputHelp)" |}
  /\ parse scenario_B_program ["node"; "prog"; "nope"]
     = Exit {| exitCode := 1; code := "commander.unknownCommand";
               message := "error: unknown command 'nope'" |}.
Proof. repeat split; vm_compute; reflexivity. Qed.

(** A level at which no subcommand, help command or default command takes
    the operands is a terminal level. *)
Lemma _parseCommand_terminal fuel parents this0 operands0 unknown0 parsed :
  parseOptions this0 unknown0 = Returned parsed ->
  let this := self parsed in
  let operands1 := operands0 ++ operands (mem parsed) in
  let unknown1 := unknown (mem parsed) in
  _findCommand this (head operands1) = None ->
  _lazyHasImplicitHelpCommand this && names_help_command this operands1 = false ->
  has_default_command this = false ->
  _parseCommand (S fuel) parents this0 operands0 unknown0
  = parse_terminal parents this operands1 unknown1
      (fun commandName operands2 unknown2 =>
         match _findCommand this commandName with
         | None => Exit _helpAndError
         | Some subCommand =>
             if _executableHandler subCommand then
               guard (_checkForMissingMandatoryOptions (this :: parents))
                 (SubCommandExecuted this subCommand (operands2 ++ unknown2))
             else _parseCommand fuel (this :: parents) subCommand operands2 unknown2
         end).
Proof.
  intros Hparse this operands1 unknown1 Hsub Hhelp Hdefault.
  cbn [_parseCommand]. rewrite Hparse. cbv zeta.
  fold this. fold operands1. fold unknown1.
  rewrite Hsub, Hhelp, Hdefault.
  replace (bool_decide (is_Some (@None Command))) with false
    by (symmetry; apply bool_decide_eq_false; intros [? ?]; discriminate).
  reflexivity.
Qed.

(** C3 does not hold as stated: [sub] is a subcommand with an action
    handler of a program whose mandatory option [-t, --token <t>] has no
    value.  [prog sub] fails with [missingMandatoryOptionValue], but
    [prog sub --help] shows the help of [sub] and exits with
    [helpDisplayed] and exit code 0: the help request is answered before
    the sweep. *)
Lemma help_request_goes_before_the_mandatory_sweep :
  commands token_sub_program = [sub_command]
  /\ _actionHandler sub_command = true
  /\ lacks_mandatory_value token_sub_program token_option
  /\ parse token_sub_program ["node"; "prog"; "sub"]
     = Exit (missingMandatoryOptionValue token_option)
  /\ parse token_sub_program ["node"; "prog"; "sub"; "--help"] = Exit helpDisplayed
  /\ code helpDisplayed = "commander.helpDisplayed"
  /\ exitCode helpDisplayed = 0%Z.
Proof.
  split; [reflexivity|]. split; [reflexivity|].
  split.
  { split; [left; reflexivity|]. split; [reflexivity|].
    exists "token". split; vm_compute; reflexivity. }
  repeat split; vm_compute; reflexivity.
Qed.

(** The value read under a key that names a method of the command is
    that method: the mandatory option [--name <n>] is never reported,
    although no value was given for it. *)
Example mandatory_option_named_as_a_member :
  map mandatory (options name_program) = [true]
  /\ _optionValues name_program = ∅
  /\ _getOptionValue name_program "name" = VMember "name"
  /\ _checkForMissingMandatoryOptions [name_program] = None.
Proof. repeat split; vm_compute; reflexivity. Qed.

(** C3 (amended): a terminal level of a command tree, where no
    subcommand, help command or default command takes the operands.  The
    chain is the command and its ancestors, each the [parent] of the one
    before, up to the root; their options have keys, as registered
    options have, and none of their members was replaced by an option
    value.  Let some command of the chain, which need not be the
    terminal one, have an option flagged mandatory for which
    [_getOptionValue] reads [undefined].  Then the sweep
    [_checkForMissingMandatoryOptions] ends in the error of
    [missingMandatoryOptionValue] for an option of the chain that lacks
    its value, with exit code 1 and the code
    [commander.missingMandatoryOptionValue]; and the level ends in that
    error, whether the command has an action handler or not, unless a
    help request is answered first: the help for a missing subcommand,
    or the help flag among the unknown tokens. *)
Theorem mandatory_sweep_covers_every_ancestor
    fuel parents this0 operands0 unknown0 parsed cmd o :
  parseOptions this0 unknown0 = Returned parsed ->
  let this := self parsed in
  let operands1 := operands0 ++ operands (mem parsed) in
  let unknown1 := unknown (mem parsed) in
  _findCommand this (head operands1) = None ->
  _lazyHasImplicitHelpCommand this && names_help_command this operands1 = false ->
  has_default_command this = false ->
  In cmd (this :: parents) ->
  lacks_mandatory_value cmd o ->
  Forall (fun c => keys_defined c = true) (this :: parents) ->
  members_kept this0 = true ->
  Forall (fun c => members_kept c = true) parents ->
  exists cmd' o',
    In cmd' (this :: parents)
    /\ lacks_mandatory_value cmd' o'
    /\ _checkForMissingMandatoryOptions (this :: parents)
       = Some (Exit (missingMandatoryOptionValue o'))
    /\ exitCode (missingMandatoryOptionValue o') = 1%Z
    /\ code (missingMandatoryOptionValue o') = "commander.missingMandatoryOptionValue"
    /\ message (missingMandatoryOptionValue o')
       = String.append "error: required option '"
           (String.append (flags o') "' not specified")
    /\ _parseCommand (S fuel) parents this0 operands0 unknown0
       = match first_failure [missing_subcommand_check this operands1 unknown1;
                              outputHelpIfRequested this unknown1] with
         | Some help_exit => help_exit
         | None => Exit (missingMandatoryOptionValue o')
         end
    /\ (forall help_exit,
          first_failure [missing_subcommand_check this operands1 unknown1;
                         outputHelpIfRequested this unknown1] = Some help_exit ->
          exists e,
            help_exit = Exit e
            /\ (code e = "commander.help" /\ exitCode e = 1%Z
                \/ code e = "commander.helpDisplayed" /\ exitCode e = 0%Z)).
Proof.
  intros Hparse this operands1 unknown1 Hsub Hhelp Hdefault Hin Hl Hkeys _ _.
  destruct (sweep_lacking (this :: parents) cmd o Hin Hl) as [r Hr].
  destruct (sweep_Some _ r Hr) as [->|(cmd' & o' & -> & Hin' & Hl')].
  { now apply sweep_keys in Hr. }
  exists cmd', o'. split; [exact Hin'|]. split; [exact Hl'|]. split; [exact Hr|].
  split; [reflexivity|]. split; [reflexivity|]. split; [reflexivity|]. split.
  - rewrite (_parseCommand_terminal fuel parents this0 operands0 unknown0 parsed
               Hparse Hsub Hhelp Hdefault).
    fold this. fold operands1. fold unknown1.
    unfold parse_terminal, missing_subcommand_check. cbv zeta.
    destruct (_ && _ && negb (_actionHandler this) && _); [reflexivity|].
    cbn [guard first_failure].
    destruct (outputHelpIfRequested this unknown1); [reflexivity|].
    cbn [guard first_failure]. rewrite Hr. reflexivity.
  - intros help_exit. unfold missing_subcommand_check. cbn [first_failure].
    destruct (_ && _ && negb (_actionHandler this) && _).
    + intros H; injection H as <-. eexists. split; [reflexivity|]. left. now split.
    + destruct (outputHelpIfRequested this unknown1) as [h|] eqn:Hh; [|discriminate].
      intros H; injection H as <-.
      apply outputHelpIfRequested_Some in Hh as ->.
      eexists. split; [reflexivity|]. right. now split.
Qed.

Lemma mandatory_sweep_covers_every_ancestor_witness :
  parseOptions sub_command [] = Returned
    {| self := sub_command;
       mem := {| argv := []; args := []; operands := []; unknown := [] |};
       dest := Operands |}
  /\ _findCommand sub_command (head ([] ++ [])) = None
  /\ _lazyHasImplicitHelpCommand sub_command
     && names_help_command sub_command ([] ++ []) = false
  /\ has_default_command sub_command = false
  /\ In token_sub_program [sub_command; token_sub_program]
  /\ lacks_mandatory_value token_sub_program token_option
  /\ Forall (fun c => keys_defined c = true) [sub_command; token_sub_program]
  /\ members_kept sub_command = true
  /\ Forall (fun c => members_kept c = true) [token_sub_program]
  /\ options sub_command = []
  /\ _parseCommand 1 [token_sub_program] sub_command [] []
     = Exit {| exitCode := 1;
               code := "commander.missingMandatoryOptionValue";
               message := "error: required option '-t, --token <t>' not specified" |}
  /\ exists cmd' o',
       In cmd' [sub_command; token_sub_program]
       /\ lacks_mandatory_value cmd' o'
       /\ _checkForMissingMandatoryOptions [sub_command; token_sub_program]
          = Some (Exit (missingMandatoryOptionValue o'))
       /\ exitCode (missingMandatoryOptionValue o') = 1%Z
       /\ code (missingMandatoryOptionValue o') = "commander.missingMandatoryOptionValue"
       /\ message (missingMandatoryOptionValue o')
          = String.append "error: required option '"
              (String.append (flags o') "' not specified")
       /\ _parseCommand 1 [token_sub_program] sub_command [] []
          = Exit (missingMandatoryOptionValue o')
       /\ (forall help_exit,
             first_failure [missing_subcommand_check sub_command [] [];
                            outputHelpIfRequested sub_command []] = Some help_exit ->
             exists e,
               help_exit = Exit e
               /\ (code e = "commander.help" /\ exitCode e = 1%Z
                   \/ code e = "commander.helpDisplayed" /\ exitCode e = 0%Z)).
Proof.
  assert (Hin : In token_sub_program [sub_command; token_sub_program])
    by (right; left; reflexivity).
  assert (Hl : lacks_mandatory_value token_sub_program token_option).
  { split; [left; reflexivity|]. split; [reflexivity|].
    exists "token". split; vm_compute; reflexivity. }
  assert (Hkeys : Forall (fun c => keys_defined c = true)
                    [sub_command; token_sub_program])
    by (repeat constructor).
  assert (Hkept : Forall (fun c => members_kept c = true) [token_sub_program])
    by (repeat constructor; vm_compute; reflexivity).
  split; [vm_compute; reflexivity|]. do 3 (split; [reflexivity|]).
  split; [exact Hin|]. split; [exact Hl|]. split; [exact Hkeys|].
  split; [vm_compute; reflexivity|]. split; [exact Hkept|]. split; [reflexivity|].
  split; [vm_compute; reflexivity|].
  exact (mandatory_sweep_covers_every_ancestor
           0 [token_sub_program] sub_command [] []
           {| self := sub_command;
              mem := {| argv := []; args := []; operands := []; unknown := [] |};
              dest := Operands |}
           token_sub_program token_option
           eq_refl eq_refl eq_refl eq_refl Hin Hl Hkeys eq_refl Hkept).
Defined.

(** C2 does not hold as stated: a program without an action handler and
    without subcommands, called without arguments, is a terminal level
    at which no action is called and no error is reported; [parse]
    returns to its caller. *)
Lemma terminal_level_without_action_returns :
  parse (new_Command "") ["node"; "script"] = ReturnedToCaller (new_Command "script")
  /\ (forall this args0, parse (new_Command "") ["node"; "script"]
                         <> ActionCalled this args0)
  /\ (forall e, parse (new_Command "") ["node"; "script"] <> Exit e).
Proof.
  split; [reflexivity|]. split; intros; discriminate.
Qed.

(** C2 (amended): at a terminal level (no subcommand, help command or
    default command takes the operands) of a command whose options and
    those of its ancestors have keys, and of which no member was or will
    be replaced by an option value, the checks run in the order: help
    request (the help shown for a missing subcommand, which a command
    with an action handler never shows, then the help flag among the
    unknown tokens), mandatory options, left-over unknown option, and
    for a command with an action handler the positional arguments.  The
    first check that fails ends the run with its error, which is one of
    [help], [helpDisplayed], [missingMandatoryOptionValue],
    [unknownOption], [missingArgument] and [variadicArgNotLast].  When
    none fails, the action handler is called if there is one; without
    one the level goes on as [without_action] tells, and can end
    without an action and without an error.  Each check has its own
    error codes, and every exit has the exit code 1, but that of the
    help asked for by its flag, which has 0. *)
Theorem terminal_checks_run_in_order
    fuel parents this0 operands0 unknown0 parsed :
  parseOptions this0 unknown0 = Returned parsed ->
  let this := self parsed in
  let operands1 := operands0 ++ operands (mem parsed) in
  let unknown1 := unknown (mem parsed) in
  _findCommand this (head operands1) = None ->
  _lazyHasImplicitHelpCommand this && names_help_command this operands1 = false ->
  has_default_command this = false ->
  Forall (fun c => keys_defined c = true) (this :: parents) ->
  members_kept this0 = true ->
  Forall (fun c => members_kept c = true) parents ->
  _parseCommand (S fuel) parents this0 operands0 unknown0
  = match first_failure (checks_in_order parents this operands1 unknown1) with
    | Some o => o
    | None =>
        if _actionHandler this
        then ActionCalled this (bound_args this (operands1 ++ unknown1))
        else without_action fuel parents this operands1 unknown1
    end
  /\ (forall o,
        first_failure (checks_in_order parents this operands1 unknown1) = Some o ->
        exists e, o = Exit e /\ In (code e) terminal_codes)
  /\ Forall2 fails_with codes_in_order
       (checks_in_order parents this operands1 unknown1)
  /\ (_actionHandler this = true ->
      missing_subcommand_check this operands1 unknown1 = None).
Proof.
  intros Hparse this operands1 unknown1 Hsub Hhelp Hdefault Hkeys _ _.
  split; [|split; [|split]].
  - rewrite (_parseCommand_terminal fuel parents this0 operands0 unknown0 parsed
               Hparse Hsub Hhelp Hdefault).
    fold this. fold operands1. fold unknown1.
    unfold parse_terminal, checks_in_order, missing_subcommand_check,
      positional_check, bound_args, without_action.
    cbv zeta.
    destruct (_ && _ && negb (_actionHandler this) && _); [reflexivity|].
    cbn [guard first_failure].
    destruct (outputHelpIfRequested this unknown1); [reflexivity|].
    cbn [guard first_failure].
    destruct (_checkForMissingMandatoryOptions (this :: parents)) eqn:Hsweep;
      [reflexivity|].
    cbn [guard first_failure].
    destruct (match unknown1 with [] => None | first :: _ => unknownOption this first end);
      [reflexivity|].
    cbn [guard first_failure].
    destruct (_actionHandler this).
    + destruct (bind_args _ _ _ _); reflexivity.
    + cbn [first_failure].
      destruct (0 <? length operands1)%nat; [|reflexivity].
      destruct (_findCommand this (Some "*")) as [star|] eqn:Hstar.
      * rewrite bool_decide_eq_true_2 by eauto.
        destruct (_executableHandler star); reflexivity.
      * rewrite bool_decide_eq_false_2 by (intros [? ?]; discriminate).
        reflexivity.
  - unfold checks_in_order, terminal_codes, missing_subcommand_check.
    cbn [first_failure].
    intros o.
    destruct (_ && _ && negb (_actionHandler this) && _).
    { intros H; injection H as <-. eexists. split; [reflexivity|]. cbn. auto. }
    destruct (outputHelpIfRequested this unknown1) as [h|] eqn:Hh.
    { intros H; injection H as <-. apply outputHelpIfRequested_Some in Hh as ->.
      eexists. split; [reflexivity|]. cbn. auto. }
    destruct (_checkForMissingMandatoryOptions (this :: parents)) as [r|] eqn:Hr.
    { intros H; injection H as <-.
      destruct (sweep_Some _ _ Hr) as [->|(c & o' & -> & _)].
      - now apply sweep_keys in Hr.
      - eexists. split; [reflexivity|]. cbn. auto. }
    assert (Hpos : forall o,
               (if _actionHandler this
                then positional_check this (operands1 ++ unknown1) else None) = Some o ->
               exists e, o = Exit e
                         /\ In (code e)
                              ["commander.help"; "commander.helpDisplayed";
                               "commander.missingMandatoryOptionValue";
                               "commander.unknownOption"; "commander.missingArgument";
                               "commander.variadicArgNotLast"]).
    { intros o1. destruct (_actionHandler this); [|discriminate].
      unfold positional_check.
      destruct (bind_args _ _ _ _) as [b|] eqn:Hb; [|discriminate].
      intros H; injection H as <-.
      destruct (bind_args_inl _ _ _ _ _ Hb) as (e & -> & [Hc|Hc]);
        eexists; (split; [reflexivity|]); rewrite Hc; cbn; auto 8. }
    destruct unknown1 as [|first rest].
    + intros H.
      destruct (if _actionHandler this then _ else None) as [o1|] eqn:E;
        [|discriminate].
      injection H as <-. now apply Hpos.
    + unfold unknownOption at 1.
      destruct (_allowUnknownOption this).
      * intros H.
        destruct (if _actionHandler this then _ else None) as [o1|] eqn:E;
          [|discriminate].
        injection H as <-. now apply Hpos.
      * intros H; injection H as <-. eexists. split; [reflexivity|]. cbn. auto 6.
  - unfold codes_in_order, checks_in_order. repeat constructor.
    + unfold missing_subcommand_check. intros o.
      destruct (_ && _ && negb (_actionHandler this) && _); [|discriminate].
      intros H; injection H as <-. eexists. split; [reflexivity|].
      split; [now left|reflexivity].
    + intros o Hh. apply outputHelpIfRequested_Some in Hh as ->.
      eexists. split; [reflexivity|]. split; [now left|reflexivity].
    + intros o Hr. destruct (sweep_Some _ _ Hr) as [->|(c & o' & -> & _)].
      * now apply sweep_keys in Hr.
      * eexists. split; [reflexivity|]. split; [now left|reflexivity].
    + intros o. destruct unknown1 as [|first rest]; [discriminate|].
      unfold unknownOption. destruct (_allowUnknownOption this); [discriminate|].
      intros H; injection H as <-. eexists. split; [reflexivity|].
      split; [now left|reflexivity].
    + intros o. destruct (_actionHandler this); [|discriminate].
      unfold positional_check.
      destruct (bind_args _ _ _ _) as [b|] eqn:Hb; [|discriminate].
      intros H; injection H as <-.
      destruct (bind_args_inl _ _ _ _ _ Hb) as (e & -> & Hc).
      pose proof (bind_args_exit_code _ _ _ _ _ Hb) as He.
      exists e. split; [reflexivity|]. split.
      * destruct Hc as [-> | ->]; cbn; auto.
      * rewrite He. destruct Hc as [-> | ->]; reflexivity.
  - intros Haction. unfold missing_subcommand_check. rewrite Haction.
    cbn [negb]. now rewrite andb_false_r.
Qed.

Lemma terminal_checks_run_in_order_witness :
  parseOptions deploy_command ["--nope"] = Returned deploy_parsed
  /\ _findCommand (self deploy_parsed) (head ([] ++ operands (mem deploy_parsed))) = None
  /\ _lazyHasImplicitHelpCommand (self deploy_parsed)
     && names_help_command (self deploy_parsed) ([] ++ operands (mem deploy_parsed)) = false
  /\ has_default_command (self deploy_parsed) = false
  /\ Forall (fun c => keys_defined c = true) [self deploy_parsed]
  /\ members_kept deploy_command = true
  /\ Forall (fun c => members_kept c = true) []
  /\ checks_in_order [] deploy_command [] ["--nope"]
     = [None; None;
        Some (Exit (missingMandatoryOptionValue token_option));
        Some (Exit (unknownOptionError "--nope"));
        None]
  /\ _parseCommand 1 [] deploy_command [] ["-t"; "abc"; "--nope"]
     = Exit {| exitCode := 1;
               code := "commander.unknownOption";
               message := "error: unknown option '--nope'" |}
  /\ _parseCommand 1 [] deploy_command [] ["-t"; "abc"]
     = Exit {| exitCode := 1;
               code := "commander.missingArgument";
               message := "error: missing required argument 'env'" |}
  /\ _parseCommand 1 [] deploy_command [] ["--nope"]
     = Exit {| exitCode := 1;
               code := "commander.missingMandatoryOptionValue";
               message := "error: required option '-t, --token <t>' not specified" |}.
Proof.
  assert (Hkeys : Forall (fun c => keys_defined c = true) [self deploy_parsed])
    by (repeat constructor).
  split; [vm_compute; reflexivity|]. do 3 (split; [reflexivity|]).
  split; [exact Hkeys|]. split; [vm_compute; reflexivity|].
  split; [constructor|]. split; [vm_compute; reflexivity|].
  split; [vm_compute; reflexivity|]. split; [vm_compute; reflexivity|].
  exact (proj1 (terminal_checks_run_in_order 0 [] deploy_command [] ["--nope"]
                  deploy_parsed eq_refl eq_refl eq_refl eq_refl Hkeys eq_refl
                  (List.Forall_nil _))).
Defined.

(** With the token given, the same command still fails, now at the
    check of the unknown option; and once [--nope] is dropped, at the
    check of the positional argument. *)
Example later_checks_fail_in_their_turn :
  _parseCommand 1 [] deploy_command [] ["-t"; "abc"; "--nope"]
  = Exit (unknownOptionError "--nope")
  /\ _parseCommand 1 [] deploy_command [] ["-t"; "abc"]
     = Exit (missingArgument "env")
  /\ _parseCommand 1 [] copy_command [] ["a"; "b"; "c"]
     = Exit {| exitCode := 1; code := "commander.variadicArgNotLast";
               message := "error: variadic arguments must be last 'files'" |}
  /\ exists this,
       _parseCommand 1 [] deploy_command [] ["-t"; "abc"; "production"]
       = ActionCalled this [AString "production"].
Proof.
  do 3 (split; [vm_compute; reflexivity|]).
  eexists. vm_compute. reflexivity.
Qed.

(** * Further properties *)

(** ** What a run of [parseOptions] leaves alone *)

Section LoopFrame.

(** A field of a command other than [_optionValues]. *)
Variable A : Type.
Variable field : Command -> A.
Hypothesis field_frame : forall m c, field (with_optionValues m c) = field c.

Lemma field_step s : field (self (state_of (step s))) = field (self s).
Proof.
  destruct (args (mem s)) as [|arg rest] eqn:Hargs.
  - now rewrite (step_nil s Hargs).
  - rewrite (step_kind_of s arg rest Hargs). cbv zeta.
    destruct (kind_of (self s) arg) as [|o|o|o index|]; unfold add_arg;
      repeat match goal with
             | |- context [if ?b then _ else _] => destruct b
             | |- context [match ?l with [] => _ | _ :: _ => _ end] => destruct l
             end;
      cbn; rewrite ?(field_emit A field field_frame); reflexivity.
Qed.

Lemma field_parse_loop fuel s s' :
  final_state (parse_loop fuel s) = Some s' ->
  field (self s') = field (self s).
Proof.
  revert s. induction fuel as [|fuel IH]; intros s; [discriminate|].
  cbn [parse_loop]. pose proof (field_step s) as Hstep.
  destruct (step s) as [s1|s1|e s1]; cbn in *.
  - intros H. now rewrite (IH s1 H).
  - now intros H; injection H as <-.
  - now intros H; injection H as <-.
Qed.

End LoopFrame.

Lemma _getOptionValue_set_other key key' v c :
  key <> key' -> _getOptionValue (_setOptionValue key v c) key' = _getOptionValue c key'.
Proof.
  intros Hne. unfold _getOptionValue, _setOptionValue. cbn.
  now rewrite lookup_insert_ne.
Qed.

Lemma run_listener_other_key l val c key :
  l_name l <> key ->
  _getOptionValue (run_listener l val c) key = _getOptionValue c key.
Proof.
  intros Hne. unfold run_listener.
  repeat match goal with
         | |- context [if ?b then _ else _] => destruct b
         end; auto using _getOptionValue_set_other.
Qed.

Lemma emit_other_key event val c key :
  Forall (fun el => l_name (snd el) <> key) (_events c) ->
  _getOptionValue (emit event val c) key = _getOptionValue c key.
Proof.
  unfold emit. generalize (_events c) as ls. intros ls Hls. revert c.
  induction Hls as [|el ls Hel _ IH]; intros c; cbn; [reflexivity|].
  rewrite IH. destruct (String.eqb (fst el) event); auto using run_listener_other_key.
Qed.

Lemma step_other_key s key :
  Forall (fun el => l_name (snd el) <> key) (_events (self s)) ->
  _getOptionValue (self (state_of (step s))) key = _getOptionValue (self s) key.
Proof.
  intros Hkey. destruct (args (mem s)) as [|arg rest] eqn:Hargs.
  - now rewrite (step_nil s Hargs).
  - rewrite (step_kind_of s arg rest Hargs). cbv zeta.
    destruct (kind_of (self s) arg) as [|o|o|o index|]; unfold add_arg;
      repeat match goal with
             | |- context [if ?b then _ else _] => destruct b
             | |- context [match ?l with [] => _ | _ :: _ => _ end] => destruct l
             end;
      cbn; rewrite ?emit_other_key by assumption; reflexivity.
Qed.

Lemma parse_loop_other_key fuel s s' key :
  Forall (fun el => l_name (snd el) <> key) (_events (self s)) ->
  final_state (parse_loop fuel s) = Some s' ->
  _getOptionValue (self s') key = _getOptionValue (self s) key.
Proof.
  revert s. induction fuel as [|fuel IH]; intros s Hkey; [discriminate|].
  cbn [parse_loop]. pose proof (step_other_key s key Hkey) as Hstep.
  pose proof (field_step _ _events (fun _ _ => eq_refl) s) as Hev.
  destruct (step s) as [s1|s1|e s1]; cbn in *.
  - intros H. rewrite (IH s1); [exact Hstep|now rewrite Hev|exact H].
  - now intros H; injection H as <-.
  - now intros H; injection H as <-.
Qed.

Lemma with_optionValues_twice m m' c :
  with_optionValues m (with_optionValues m' c) = with_optionValues m c.
Proof. reflexivity. Qed.

Lemma with_optionValues_same c : with_optionValues (_optionValues c) c = c.
Proof. now destruct c. Qed.

(** ** The members of the command are kept *)

Lemma members_intact_spec c :
  members_intact c = true
  <-> forall key v, _optionValues c !! key = Some v -> member_of_command key = false.
Proof.
  unfold members_intact. rewrite forallb_forall. split.
  - intros H key v Hkv. apply elem_of_map_to_list, list_elem_of_In in Hkv.
    apply H in Hkv. cbn [fst] in Hkv. now apply negb_true_iff in Hkv.
  - intros H [key v] Hin. apply list_elem_of_In, elem_of_map_to_list in Hin.
    cbn [fst]. apply negb_true_iff. eauto.
Qed.

Lemma members_intact_set key v c :
  member_of_command key = false ->
  members_intact c = true ->
  members_intact (_setOptionValue key v c) = true.
Proof.
  rewrite !members_intact_spec. intros Hkey H key' v'.
  unfold _setOptionValue. cbn [_optionValues with_optionValues].
  destruct (decide (key = key')) as [<-|Hne].
  - intros _. exact Hkey.
  - rewrite lookup_insert_ne by exact Hne. apply H.
Qed.

Lemma members_kept_spec c :
  members_kept c = true
  <-> members_intact c = true
      /\ Forall (fun el => member_of_command (l_name (snd el)) = false) (_events c)
      /\ Forall (fun o => forall key, Opt.attributeName o = Some key ->
                                      member_of_command key = false) (options c).
Proof.
  unfold members_kept.
  rewrite !andb_true_iff, !forallb_forall, !List.Forall_forall.
  split.
  - intros [[Hi He] Ho]. split; [exact Hi|]. split.
    + intros el Hin. apply He in Hin. now apply negb_true_iff.
    + intros o Hin key Hkey. apply Ho in Hin. rewrite Hkey in Hin.
      now apply negb_true_iff.
  - intros (Hi & He & Ho). split; [split; [exact Hi|]|].
    + intros el Hin. apply He in Hin. now apply negb_true_iff.
    + intros o Hin. specialize (Ho o Hin).
      destruct (Opt.attributeName o) as [key|]; [|reflexivity].
      apply negb_true_iff. now apply Ho.
Qed.

Lemma members_kept_set key v c :
  member_of_command key = false ->
  members_kept c = true ->
  members_kept (_setOptionValue key v c) = true.
Proof.
  rewrite !members_kept_spec. intros Hkey (Hi & He & Ho).
  split; [now apply members_intact_set|]. split; [exact He|exact Ho].
Qed.

Lemma members_kept_run_listener l val c :
  member_of_command (l_name l) = false ->
  members_kept c = true ->
  members_kept (run_listener l val c) = true.
Proof.
  intros Hkey Hc. unfold run_listener.
  repeat match goal with
         | |- context [if ?b then _ else _] => destruct b
         end; auto using members_kept_set.
Qed.

Lemma members_kept_fold event val ls c :
  Forall (fun el : string * Listener => member_of_command (l_name (snd el)) = false) ls ->
  members_kept c = true ->
  members_kept
    (fold_left
       (fun c' el => if String.eqb (fst el) event then run_listener (snd el) val c' else c')
       ls c) = true.
Proof.
  intros Hall. revert c. induction Hall as [|el ls Hel _ IH]; intros c Hc; [exact Hc|].
  cbn [fold_left]. apply IH.
  destruct (String.eqb (fst el) event); auto using members_kept_run_listener.
Qed.

Lemma members_kept_emit event val c :
  members_kept c = true -> members_kept (emit event val c) = true.
Proof.
  intros Hc. unfold emit. apply members_kept_fold; [|exact Hc].
  now apply members_kept_spec in Hc.
Qed.

Lemma members_kept_step s :
  members_kept (self s) = true ->
  members_kept (self (state_of (step s))) = true.
Proof.
  intros Hs. destruct (args (mem s)) as [|arg rest] eqn:Hargs.
  - now rewrite (step_nil s Hargs).
  - rewrite (step_kind_of s arg rest Hargs). cbv zeta.
    destruct (kind_of (self s) arg) as [|o|o|o index|]; unfold add_arg;
      repeat match goal with
             | |- context [if ?b then _ else _] => destruct b
             | |- context [match ?l with [] => _ | _ :: _ => _ end] => destruct l
             end;
      cbn [state_of self emit_option with_mem with_dest];
      try apply members_kept_emit; exact Hs.
Qed.

Lemma members_kept_parse_loop fuel s s' :
  members_kept (self s) = true ->
  final_state (parse_loop fuel s) = Some s' ->
  members_kept (self s') = true.
Proof.
  revert s. induction fuel as [|fuel IH]; intros s Hs; [discriminate|].
  cbn [parse_loop]. pose proof (members_kept_step s Hs) as Hstep.
  destruct (step s) as [s1|s1|e s1]; cbn [state_of final_state] in *.
  - intros H. exact (IH s1 Hstep H).
  - now intros H; injection H as <-.
  - now intros H; injection H as <-.
Qed.

(** X3: on a command of which no member was replaced and no listener
    writes under the name of a member, a run of [parseOptions], whether
    it returns or exits, replaces no member either.  It changes nothing
    of the command but the option values: the command is the one it was
    called on with other values; it leaves the value under a key alone
    unless a listener registered for that key is there, so that every
    member reads as before. *)
Theorem parseOptions_changes_option_values_only this argv0 s :
  members_kept this = true ->
  final_state (parseOptions this argv0) = Some s ->
  members_kept (self s) = true
  /\ self s = with_optionValues (_optionValues (self s)) this
  /\ (forall key,
        Forall (fun el => l_name (snd el) <> key) (_events this) ->
        _getOptionValue (self s) key = _getOptionValue this key)
  /\ (forall key,
        member_of_command key = true ->
        _getOptionValue (self s) key = _getOptionValue this key).
Proof.
  intros Hkept Hrun. unfold parseOptions in Hrun.
  assert (Hother : forall key,
             Forall (fun el => l_name (snd el) <> key) (_events this) ->
             _getOptionValue (self s) key = _getOptionValue this key).
  { intros key Hkey.
    exact (parse_loop_other_key _
             {| self := this;
                mem := {| argv := argv0; args := argv0; operands := []; unknown := [] |};
                dest := Operands |} s key Hkey Hrun). }
  split.
  { exact (members_kept_parse_loop _
             {| self := this;
                mem := {| argv := argv0; args := argv0; operands := []; unknown := [] |};
                dest := Operands |} s Hkept Hrun). }
  split; [|split].
  - pose proof (field_parse_loop _ (fun c => with_optionValues (_optionValues this) c)
                  (fun _ _ => eq_refl) _ _ _ Hrun) as H.
    cbv beta in H. cbn [self] in H. rewrite with_optionValues_same in H.
    rewrite <- H at 1. rewrite with_optionValues_twice.
    now rewrite with_optionValues_same.
  - exact Hother.
  - intros key Hmember. apply Hother.
    apply members_kept_spec in Hkept as (_ & He & _).
    eapply List.Forall_impl; [|exact He].
    intros el Hel Heq. cbv beta in Hel. rewrite Heq in Hel. congruence.
Qed.

Lemma parseOptions_changes_option_values_only_witness :
  members_kept scenario_A_program = true
  /\ final_state (parseOptions scenario_A_program scenario_A_argv) = Some scenario_A_result
  /\ members_kept (self scenario_A_result) = true
  /\ self scenario_A_result
     = with_optionValues (_optionValues (self scenario_A_result)) scenario_A_program
  /\ (forall key,
        Forall (fun el => l_name (snd el) <> key) (_events scenario_A_program) ->
        _getOptionValue (self scenario_A_result) key
        = _getOptionValue scenario_A_program key)
  /\ (forall key,
        member_of_command key = true ->
        _getOptionValue (self scenario_A_result) key
        = _getOptionValue scenario_A_program key).
Proof.
  split; [vm_compute; reflexivity|]. split; [vm_compute; reflexivity|].
  apply (parseOptions_changes_option_values_only scenario_A_program scenario_A_argv);
    vm_compute; reflexivity.
Defined.

(** ** How a run of [parseOptions] ends *)

(** X1: on a command of which no member was or will be replaced by an
    option value, the loop of [parseOptions] comes to an end on every
    input: within a number of turns bounded by the tokens and the
    characters of [argv], the run has returned or has exited. *)
Theorem parseOptions_comes_to_an_end this argv0 :
  members_kept this = true ->
  is_Some (final_state (parseOptions this argv0)).
Proof.
  intros _. pose proof (parseOptions_fuel this argv0) as Hfuel.
  destruct (parseOptions this argv0) as [s|e s|]; cbn; eauto.
  contradiction.
Qed.

Lemma parseOptions_comes_to_an_end_witness :
  members_kept scenario_C_program = true
  /\ is_Some (final_state (parseOptions scenario_C_program ["-px"; "-x"])).
Proof.
  split; [vm_compute; reflexivity|].
  apply (parseOptions_comes_to_an_end scenario_C_program ["-px"; "-x"]).
  vm_compute; reflexivity.
Defined.

(** ** Operands and unknown tokens *)

(** X2: once [dest] refers to [unknown] it stays there: from such a point
    of a run on, [operands] gets no further token. *)
Theorem unknown_destination_is_kept fuel s s' :
  dest s = Unknown ->
  final_state (parse_loop fuel s) = Some s' ->
  dest s' = Unknown /\ operands (mem s') = operands (mem s).
Proof.
  revert s. induction fuel as [|fuel IH]; intros s Hd; [discriminate|].
  cbn [parse_loop].
  assert (Hstep : dest (state_of (step s)) = Unknown
                  /\ operands (mem (state_of (step s))) = operands (mem s)).
  { destruct (args (mem s)) as [|arg rest] eqn:Hargs.
    - now rewrite (step_nil s Hargs).
    - rewrite (step_kind_of s arg rest Hargs). cbv zeta.
      destruct s as [this m d]. cbn in Hd |- *. subst d.
      destruct (kind_of this arg) as [|o|o|o index|]; unfold add_arg;
        repeat match goal with
               | |- context [if ?b then _ else _] => destruct b
               | |- context [match ?l with [] => _ | _ :: _ => _ end] => destruct l
               end; cbn; auto. }
  destruct (step s) as [s1|s1|e s1]; cbn in Hstep |- *; destruct Hstep as [Hd1 Hops].
  - intros H. destruct (IH s1 Hd1 H) as [? ->]. auto.
  - intros H; injection H as <-. auto.
  - intros H; injection H as <-. auto.
Qed.

Lemma unknown_destination_is_kept_witness :
  dest after_unknown_option = Unknown
  /\ exists s',
       final_state (parse_loop 3 after_unknown_option) = Some s'
       /\ dest s' = Unknown
       /\ operands (mem s') = operands (mem after_unknown_option).
Proof.
  split; [reflexivity|]. eexists. split; [vm_compute; reflexivity|].
  apply (unknown_destination_is_kept 3 after_unknown_option);
    [reflexivity|vm_compute; reflexivity].
Defined.

Lemma maybeOption_literal arg : String.eqb arg "--" = true -> maybeOption arg = true.
Proof. intros H. apply String.eqb_eq in H as ->. reflexivity. Qed.

Lemma maybeOption_combo_shaped arg : combo_shaped arg = true -> maybeOption arg = true.
Proof.
  unfold combo_shaped, maybeOption. intros H.
  apply andb_prop in H as [H _]. apply andb_prop in H as [Hlen Hdash].
  rewrite Hdash, andb_true_r. apply Nat.ltb_lt in Hlen. apply Nat.ltb_lt. lia.
Qed.

Lemma maybeOption_long arg : starts_with "--" arg = true -> maybeOption arg = true.
Proof.
  destruct arg as [|a [|b arg]]; cbn [starts_with]; intros H.
  - discriminate.
  - apply andb_prop in H as [_ H]. discriminate.
  - apply andb_prop in H as [Ha _]. unfold maybeOption.
    cbn [starts_with String.length]. now rewrite Ha.
Qed.

(** A token that is not shaped like an option is an operand or an unknown
    token, whatever options are registered. *)
Lemma kind_of_plain this arg : maybeOption arg = false -> kind_of this arg = KOther.
Proof.
  intros Hplain. unfold kind_of.
  destruct (String.eqb arg "--") eqn:Hlit.
  { apply maybeOption_literal in Hlit. congruence. }
  rewrite Hplain.
  destruct (combo_shaped arg) eqn:Hcombo.
  { apply maybeOption_combo_shaped in Hcombo. congruence. }
  unfold long_with_value.
  destruct (starts_with "--" arg) eqn:Hlong; [|reflexivity].
  apply maybeOption_long in Hlong. congruence.
Qed.

(** A queue of tokens none of which is shaped like an option is appended
    to the array [dest] refers to. *)
Lemma parse_loop_plain this av queue ops unk fuel :
  Forall (fun t => maybeOption t = false) queue ->
  length queue < fuel ->
  parse_loop fuel
    {| self := this;
       mem := {| argv := av; args := queue; operands := ops; unknown := unk |};
       dest := Operands |}
  = Returned
      {| self := this;
         mem := {| argv := av; args := []; operands := ops ++ queue; unknown := unk |};
         dest := Operands |}
  /\ parse_loop fuel
       {| self := this;
          mem := {| argv := av; args := queue; operands := ops; unknown := unk |};
          dest := Unknown |}
     = Returned
         {| self := this;
            mem := {| argv := av; args := []; operands := ops; unknown := unk ++ queue |};
            dest := Unknown |}.
Proof.
  intros Hplain. revert ops unk fuel.
  induction Hplain as [|arg rest Harg _ IH]; intros ops unk fuel Hfuel.
  { destruct fuel; [inversion Hfuel|]. cbn. now rewrite !app_nil_r. }
  change (S (length rest) < fuel) in Hfuel.
  destruct fuel as [|fuel]; [lia|].
  cbn [parse_loop].
  rewrite (step_kind_of
             {| self := this;
                mem := {| argv := av; args := arg :: rest; operands := ops; unknown := unk |};
                dest := Operands |} arg rest eq_refl).
  rewrite (step_kind_of
             {| self := this;
                mem := {| argv := av; args := arg :: rest; operands := ops; unknown := unk |};
                dest := Unknown |} arg rest eq_refl).
  cbv zeta. cbn [self]. rewrite (kind_of_plain this arg Harg).
  unfold add_arg. rewrite Harg. cbn. unfold with_mem. cbn [self dest].
  apply Nat.succ_lt_mono in Hfuel.
  destruct (IH (ops ++ [arg]) unk fuel Hfuel) as [-> _].
  destruct (IH ops (unk ++ [arg]) fuel Hfuel) as [_ ->].
  now rewrite <- !app_assoc.
Qed.

Lemma queue_size_cons t queue :
  queue_size (t :: queue) = S (String.length t) + queue_size queue.
Proof. reflexivity. Qed.

Lemma length_le_queue_size queue : length queue <= queue_size queue.
Proof.
  induction queue as [|t queue IH]; [apply Nat.le_0_l|].
  rewrite queue_size_cons. change (S (length queue) <= S (String.length t) + queue_size queue).
  lia.
Qed.

(** X5: tokens none of which starts with a dash (followed by something)
    are all operands, in order, whatever options are registered: the
    command is left as it was and there is no unknown token. *)
Theorem plain_tokens_are_operands this argv0 :
  Forall (fun t => maybeOption t = false) argv0 ->
  parseOptions this argv0
  = Returned
      {| self := this;
         mem := {| argv := argv0; args := []; operands := argv0; unknown := [] |};
         dest := Operands |}.
Proof.
  intros Hplain. unfold parseOptions.
  destruct (parse_loop_plain this argv0 argv0 [] [] (S (queue_size argv0)) Hplain) as [H _].
  - pose proof (length_le_queue_size argv0). lia.
  - exact H.
Qed.

Lemma plain_tokens_are_operands_witness :
  parseOptions pepper_program ["a"; "b"]
  = Returned
      {| self := pepper_program;
         mem := {| argv := ["a"; "b"]; args := []; operands := ["a"; "b"];
                   unknown := [] |};
         dest := Operands |}.
Proof.
  apply (plain_tokens_are_operands pepper_program ["a"; "b"]). repeat constructor.
Defined.

(** The result of the loop does not depend on the fuel, once there is enough. *)
Lemma parse_loop_more fuel fuel' s :
  fuel <= fuel' ->
  parse_loop fuel s <> OutOfFuel ->
  parse_loop fuel' s = parse_loop fuel s.
Proof.
  revert fuel' s. induction fuel as [|fuel IH]; intros fuel' s Hle Hrun.
  { now contradiction Hrun. }
  destruct fuel' as [|fuel']; [lia|].
  cbn [parse_loop] in *. destruct (step s) as [s1|s1|e s1]; try reflexivity.
  apply IH; [lia|exact Hrun].
Qed.

Lemma _findOption_no_options this arg : options this = [] -> _findOption this arg = None.
Proof. unfold _findOption. now intros ->. Qed.

Lemma kind_of_no_options this arg :
  options this = [] ->
  kind_of this arg = if String.eqb arg "--" then KLiteral else KOther.
Proof.
  intros Hnone. unfold kind_of. rewrite !(_findOption_no_options this) by assumption.
  destruct (String.eqb arg "--"); [reflexivity|].
  destruct (maybeOption arg), (combo_shaped arg), (long_with_value arg) as [index|];
    try reflexivity; now rewrite (_findOption_no_options this).
Qed.

(** On a command without options every token of the queue goes to
    [unknown] once [dest] refers to it, a [--] included. *)
Lemma parse_loop_unknown_no_options this av queue ops unk fuel :
  options this = [] ->
  length queue < fuel ->
  exists s,
    parse_loop fuel
      {| self := this;
         mem := {| argv := av; args := queue; operands := ops; unknown := unk |};
         dest := Unknown |} = Returned s
    /\ self s = this /\ argv (mem s) = av
    /\ operands (mem s) = ops /\ unknown (mem s) = unk ++ queue.
Proof.
  intros Hnone. revert unk fuel.
  induction queue as [|arg rest IH]; intros unk fuel Hfuel.
  { destruct fuel; [inversion Hfuel|]. eexists. split; [reflexivity|].
    cbn. now rewrite app_nil_r. }
  change (S (length rest) < fuel) in Hfuel.
  destruct fuel as [|fuel]; [lia|]. apply Nat.succ_lt_mono in Hfuel.
  cbn [parse_loop].
  rewrite (step_kind_of
             {| self := this;
                mem := {| argv := av; args := arg :: rest; operands := ops; unknown := unk |};
                dest := Unknown |} arg rest eq_refl).
  cbv zeta. cbn [self]. rewrite (kind_of_no_options this arg Hnone).
  destruct (String.eqb arg "--") eqn:Hlit.
  - apply String.eqb_eq in Hlit as ->. eexists. split; [reflexivity|].
    cbn. now rewrite <- app_assoc.
  - unfold add_arg.
    destruct (IH (unk ++ [arg]) fuel Hfuel) as (s & Hrun & ? & ? & ? & Hunk).
    exists s. rewrite <- app_assoc in Hunk.
    destruct (maybeOption arg); unfold with_mem, with_dest;
      cbn [push read write mem dest self]; auto.
Qed.

(** A queue that starts with tokens not shaped like options: they are
    pushed on [operands] and the loop goes on with the rest. *)
Lemma parse_loop_plain_prefix this av pre queue ops unk fuel :
  Forall (fun t => maybeOption t = false) pre ->
  parse_loop (length pre + fuel)
    {| self := this;
       mem := {| argv := av; args := pre ++ queue; operands := ops; unknown := unk |};
       dest := Operands |}
  = parse_loop fuel
      {| self := this;
         mem := {| argv := av; args := queue; operands := ops ++ pre; unknown := unk |};
         dest := Operands |}.
Proof.
  intros Hplain. revert ops.
  induction Hplain as [|arg rest Harg _ IH]; intros ops.
  { now rewrite app_nil_r. }
  change (length (arg :: rest) + fuel) with (S (length rest + fuel)).
  cbn [parse_loop app].
  rewrite (step_kind_of
             {| self := this;
                mem := {| argv := av; args := arg :: rest ++ queue; operands := ops;
                          unknown := unk |};
                dest := Operands |} arg (rest ++ queue) eq_refl).
  cbv zeta. cbn [self]. rewrite (kind_of_plain this arg Harg).
  unfold add_arg. rewrite Harg. unfold with_mem. cbn [push read write mem dest self].
  rewrite IH. now rewrite <- app_assoc.
Qed.

(** X4: on a command without options, [parseOptions] cuts the tokens at
    the first one shaped like an option.  The tokens before it are the
    operands.  If that token is [--], it is dropped and the tokens after
    it are operands too; otherwise it and every token after it, a later
    [--] included, are the unknown tokens. *)
Theorem parseOptions_without_options_cuts_at_the_first_dash this pre tok post :
  options this = [] ->
  Forall (fun t => maybeOption t = false) pre ->
  maybeOption tok = true ->
  exists s,
    parseOptions this (pre ++ tok :: post) = Returned s
    /\ self s = this
    /\ operands (mem s) = (if String.eqb tok "--" then pre ++ post else pre)
    /\ unknown (mem s) = (if String.eqb tok "--" then [] else tok :: post).
Proof.
  intros Hnone Hplain Htok.
  assert (Hrun : exists s,
             parse_loop (length pre + S (S (length post)))
               {| self := this;
                  mem := {| argv := pre ++ tok :: post; args := pre ++ tok :: post;
                            operands := []; unknown := [] |};
                  dest := Operands |} = Returned s
             /\ self s = this
             /\ operands (mem s) = (if String.eqb tok "--" then pre ++ post else pre)
             /\ unknown (mem s) = (if String.eqb tok "--" then [] else tok :: post)).
  { rewrite parse_loop_plain_prefix by assumption. cbn [parse_loop app].
    rewrite (step_kind_of
               {| self := this;
                  mem := {| argv := pre ++ tok :: post; args := tok :: post;
                            operands := pre; unknown := [] |};
                  dest := Operands |} tok post eq_refl).
    cbv zeta. cbn [self]. rewrite (kind_of_no_options this tok Hnone).
    destruct (String.eqb tok "--").
    - eexists. split; [reflexivity|]. cbn. auto.
    - unfold add_arg. rewrite Htok. unfold with_mem, with_dest.
      cbn [push read write mem dest self].
      destruct (parse_loop_unknown_no_options this (pre ++ tok :: post) post pre [tok]
                  (S (length post)) Hnone (Nat.lt_succ_diag_r _))
        as (s & Hrun & ? & _ & ? & ?).
      exists s. auto. }
  destruct Hrun as (s & Hrun & Hs). exists s. split; [|exact Hs].
  unfold parseOptions. rewrite <- Hrun. apply parse_loop_more.
  - pose proof (length_le_queue_size (pre ++ tok :: post)) as Hlen.
    rewrite length_app in Hlen. change (length (tok :: post)) with (S (length post)) in Hlen.
    lia.
  - rewrite Hrun. discriminate.
Qed.

Lemma parseOptions_without_options_cuts_at_the_first_dash_witness :
  options (new_Command "prog") = []
  /\ exists s,
       parseOptions (new_Command "prog") (["a"] ++ "--x" :: ["b"]) = Returned s
       /\ self s = new_Command "prog"
       /\ operands (mem s) = ["a"]
       /\ unknown (mem s) = ["--x"; "b"].
Proof.
  split; [reflexivity|].
  apply (parseOptions_without_options_cuts_at_the_first_dash
           (new_Command "prog") ["a"] "--x" ["b"]);
    [reflexivity|repeat constructor|reflexivity].
Defined.

(** ** Spellings of an option with its value *)

Lemma starts_with_equals c s : starts_with "=" (String c s) = Ascii.eqb "=" c.
Proof. cbn [starts_with]. apply andb_true_r. Qed.

Lemma index_from_equals_append i a b :
  index_from i "=" a = None ->
  index_from i "=" (String.append a (String "=" b)) = Some (i + String.length a).
Proof.
  revert i. induction a as [|c a IH]; intros i.
  - intros _. change (String.append "" (String "=" b)) with (String "=" b).
    rewrite index_from_unfold, starts_with_equals, Ascii.eqb_refl.
    cbn [String.length]. now rewrite Nat.add_0_r.
  - rewrite append_cons.
    rewrite (index_from_unfold i "=" (String c a)).
    rewrite (index_from_unfold i "=" (String c (String.append a (String "=" b)))).
    rewrite !starts_with_equals.
    destruct (Ascii.eqb "=" c); [discriminate|].
    intros H. rewrite (IH _ H). cbn [String.length]. f_equal. lia.
Qed.

Lemma index_from_shift i j p s : index_from i p s = None -> index_from j p s = None.
Proof.
  revert i j. induction s as [|c s IH]; intros i j.
  - rewrite (index_from_unfold i), (index_from_unfold j).
    now destruct (starts_with p "").
  - rewrite (index_from_unfold i p (String c s)), (index_from_unfold j p (String c s)).
    destruct (starts_with p (String c s)); [discriminate|apply IH].
Qed.

Lemma slice_to_append a b : slice_to (String.length a) (String.append a b) = a.
Proof.
  induction a as [|c a IH]; [now destruct b|].
  rewrite append_cons. cbn. now rewrite IH.
Qed.

Lemma slice_from_past a c b :
  slice_from (String.length a + 1) (String.append a (String c b)) = b.
Proof. induction a as [|x a IH]; [reflexivity|]. rewrite append_cons. exact IH. Qed.

Lemma eqb_literal_false name rest :
  name <> "" -> String.eqb (String.append "--" (String.append name rest)) "--" = false.
Proof.
  intros Hname. apply String.eqb_neq. destruct name as [|c name]; [contradiction|].
  discriminate.
Qed.

(** X6: [--name=value] is read as [--name] followed by [value], for an
    option that takes a required value, and for one that takes an
    optional value when [value] is not shaped like an option: from any
    point of a run, the run over the one token and the run over the two
    tokens end alike.  ([name] holds no [=], and the token as a whole is
    not itself a registered flag.) *)
Theorem long_flag_with_equals_reads_as_flag_then_value
    this av name value rest ops unk d fuel o :
  name <> "" ->
  indexOf "=" name = None ->
  _findOption this (String.append "--" name) = Some o ->
  required o = true \/ (optional o = true /\ maybeOption value = false) ->
  _findOption this (String.append "--" (String.append name (String "=" value))) = None ->
  parse_loop fuel
    {| self := this;
       mem := {| argv := av;
                 args := String.append "--" (String.append name (String "=" value)) :: rest;
                 operands := ops; unknown := unk |};
       dest := d |}
  = parse_loop fuel
      {| self := this;
         mem := {| argv := av; args := String.append "--" name :: value :: rest;
                   operands := ops; unknown := unk |};
         dest := d |}.
Proof.
  intros Hname Hnoeq Hflag Hvalue Hwhole.
  destruct fuel as [|fuel]; [reflexivity|]. cbn [parse_loop].
  set (flag := String.append "--" name) in *.
  set (arg := String.append "--" (String.append name (String "=" value))) in *.
  assert (Harg : arg = String.append flag (String "=" value)) by reflexivity.
  assert (Hindex : indexOf "=" arg = Some (String.length flag)).
  { rewrite Harg. unfold indexOf, flag.
    apply (index_from_equals_append 0 (String.append "--" name) value).
    unfold indexOf in Hnoeq.
    change (String.append "--" name) with (String "-" (String "-" name)).
    rewrite (index_from_unfold 0 "=" (String "-" (String "-" name))).
    rewrite starts_with_equals.
    replace (Ascii.eqb "=" "-") with false by reflexivity.
    rewrite (index_from_unfold 1 "=" (String "-" name)), starts_with_equals.
    replace (Ascii.eqb "=" "-") with false by reflexivity.
    exact (index_from_shift 0 2 "=" name Hnoeq). }
  assert (Hlen : 3 <= String.length flag).
  { unfold flag. destruct name as [|c name]; [contradiction|].
    rewrite length_append. cbn [String.length]. lia. }
  assert (Hk1 : kind_of this arg = KLongValue o (String.length flag)).
  { unfold kind_of. fold arg. rewrite Hwhole.
    replace (String.eqb arg "--") with false
      by (symmetry; apply (eqb_literal_false name (String "=" value) Hname)).
    replace (combo_shaped arg) with false.
    2:{ unfold combo_shaped. replace (starts_with "--" arg) with true by reflexivity.
        now rewrite andb_false_r. }
    replace (if maybeOption arg then @None Option else None) with (@None Option)
      by (now destruct (maybeOption arg)).
    unfold long_with_value. replace (starts_with "--" arg) with true by reflexivity.
    rewrite Hindex. apply Nat.leb_le in Hlen. rewrite Hlen.
    rewrite Harg, slice_to_append, Hflag.
    now destruct Hvalue as [-> | [-> _]]; rewrite ?orb_true_r. }
  assert (Hk2 : kind_of this flag = KOption o).
  { unfold kind_of. rewrite Hflag.
    replace (String.eqb flag "--") with false.
    - replace (maybeOption flag) with true; [reflexivity|].
      unfold flag. now destruct name.
    - symmetry. unfold flag. apply String.eqb_neq. destruct name; [contradiction|].
      discriminate. }
  rewrite (step_kind_of
             {| self := this;
                mem := {| argv := av; args := arg :: rest; operands := ops; unknown := unk |};
                dest := d |} arg rest eq_refl).
  rewrite (step_kind_of
             {| self := this;
                mem := {| argv := av; args := flag :: value :: rest; operands := ops;
                          unknown := unk |};
                dest := d |} flag (value :: rest) eq_refl).
  cbv zeta. cbn [self]. rewrite Hk1, Hk2.
  rewrite Harg, slice_from_past.
  destruct Hvalue as [-> | [Hopt Hplain]]; [reflexivity|].
  rewrite Hopt, Hplain. now destruct (required o).
Qed.

Lemma long_flag_with_equals_reads_as_flag_then_value_witness :
  parse_loop 5
    {| self := scenario_A_program;
       mem := {| argv := []; args := ["--chdir=/tmp"; "x"];
                 operands := []; unknown := [] |};
       dest := Operands |}
  = parse_loop 5
      {| self := scenario_A_program;
         mem := {| argv := []; args := ["--chdir"; "/tmp"; "x"];
                   operands := []; unknown := [] |};
         dest := Operands |}.
Proof.
  eapply (long_flag_with_equals_reads_as_flag_then_value
            scenario_A_program [] "chdir" "/tmp" ["x"] [] [] Operands 5);
    [discriminate|reflexivity|vm_compute; reflexivity|left; reflexivity|reflexivity].
Defined.

(** X7: [-cvalue] is read as [-c] followed by [value], for an option that
    takes a required value, and for one that takes an optional value
    when [value] is not shaped like an option.  ([value] is not empty,
    and the token as a whole is not itself a registered flag.) *)
Theorem short_flag_with_attached_value_reads_as_flag_then_value
    this av c value rest ops unk d fuel o :
  c <> "-"%char ->
  value <> "" ->
  _findOption this (String "-" (String c "")) = Some o ->
  required o = true \/ (optional o = true /\ maybeOption value = false) ->
  _findOption this (String "-" (String c value)) = None ->
  parse_loop fuel
    {| self := this;
       mem := {| argv := av; args := String "-" (String c value) :: rest;
                 operands := ops; unknown := unk |};
       dest := d |}
  = parse_loop fuel
      {| self := this;
         mem := {| argv := av; args := String "-" (String c "") :: value :: rest;
                   operands := ops; unknown := unk |};
         dest := d |}.
Proof.
  intros Hc Hvalue Hflag Htakes Hwhole.
  destruct fuel as [|fuel]; [reflexivity|]. cbn [parse_loop].
  assert (Hdash : Ascii.eqb "-" c = false).
  { apply Ascii.eqb_neq. congruence. }
  assert (Hk1 : kind_of this (String "-" (String c value)) = KCombo o).
  { unfold kind_of. rewrite Hwhole.
    replace (String.eqb (String "-" (String c value)) "--") with false.
    2:{ symmetry. apply String.eqb_neq. intros H. injection H as H _. congruence. }
    replace (if maybeOption (String "-" (String c value)) then @None Option else None)
      with (@None Option) by (now destruct (maybeOption _)).
    replace (combo_shaped (String "-" (String c value))) with true.
    2:{ unfold combo_shaped. cbn [starts_with String.length]. rewrite Hdash.
        destruct value; [contradiction|]. reflexivity. }
    cbn [slice_from slice_to].
    change (String.append "-" (String c "")) with (String "-" (String c "")).
    now rewrite Hflag. }
  assert (Hk2 : kind_of this (String "-" (String c "")) = KOption o).
  { unfold kind_of. rewrite Hflag.
    replace (String.eqb (String "-" (String c "")) "--") with false.
    - reflexivity.
    - symmetry. apply String.eqb_neq. intros H. injection H as H. congruence. }
  rewrite (step_kind_of
             {| self := this;
                mem := {| argv := av; args := String "-" (String c value) :: rest;
                          operands := ops; unknown := unk |};
                dest := d |} _ rest eq_refl).
  rewrite (step_kind_of
             {| self := this;
                mem := {| argv := av; args := String "-" (String c "") :: value :: rest;
                          operands := ops; unknown := unk |};
                dest := d |} _ (value :: rest) eq_refl).
  cbv zeta. cbn [self]. rewrite Hk1, Hk2. cbn [slice_from].
  destruct Htakes as [-> | [Hopt Hplain]]; [reflexivity|].
  rewrite Hopt, Hplain, orb_true_r. now destruct (required o).
Qed.

Lemma short_flag_with_attached_value_reads_as_flag_then_value_witness :
  parse_loop 5
    {| self := scenario_A_program;
       mem := {| argv := []; args := ["-C/tmp"; "x"];
                 operands := []; unknown := [] |};
       dest := Operands |}
  = parse_loop 5
      {| self := scenario_A_program;
         mem := {| argv := []; args := ["-C"; "/tmp"; "x"];
                   operands := []; unknown := [] |};
         dest := Operands |}.
Proof.
  eapply (short_flag_with_attached_value_reads_as_flag_then_value
            scenario_A_program [] "C"%char "/tmp" ["x"] [] [] Operands 5);
    [discriminate|discriminate|vm_compute; reflexivity|left; reflexivity|reflexivity].
Defined.

(** X8: a combined token [-cmore] whose first flag [-c] is a boolean
    option is read as [-c] followed by [-more].  ([more] is not empty,
    and the token as a whole is not itself a registered flag.) *)
Theorem combined_boolean_flag_reads_as_separate_flags
    this av c more rest ops unk d fuel o :
  c <> "-"%char ->
  more <> "" ->
  _findOption this (String "-" (String c "")) = Some o ->
  required o = false ->
  optional o = false ->
  _findOption this (String "-" (String c more)) = None ->
  parse_loop fuel
    {| self := this;
       mem := {| argv := av; args := String "-" (String c more) :: rest;
                 operands := ops; unknown := unk |};
       dest := d |}
  = parse_loop fuel
      {| self := this;
         mem := {| argv := av;
                   args := String "-" (String c "") :: String "-" more :: rest;
                   operands := ops; unknown := unk |};
         dest := d |}.
Proof.
  intros Hc Hmore Hflag Hreq Hopt Hwhole.
  destruct fuel as [|fuel]; [reflexivity|]. cbn [parse_loop].
  assert (Hdash : Ascii.eqb "-" c = false).
  { apply Ascii.eqb_neq. congruence. }
  assert (Hk1 : kind_of this (String "-" (String c more)) = KCombo o).
  { unfold kind_of. rewrite Hwhole.
    replace (String.eqb (String "-" (String c more)) "--") with false.
    2:{ symmetry. apply String.eqb_neq. intros H. injection H as H _. congruence. }
    replace (if maybeOption (String "-" (String c more)) then @None Option else None)
      with (@None Option) by (now destruct (maybeOption _)).
    replace (combo_shaped (String "-" (String c more))) with true.
    2:{ unfold combo_shaped. cbn [starts_with String.length]. rewrite Hdash.
        destruct more; [contradiction|]. reflexivity. }
    cbn [slice_from slice_to].
    change (String.append "-" (String c "")) with (String "-" (String c "")).
    now rewrite Hflag. }
  assert (Hk2 : kind_of this (String "-" (String c "")) = KOption o).
  { unfold kind_of. rewrite Hflag.
    replace (String.eqb (String "-" (String c "")) "--") with false.
    - reflexivity.
    - symmetry. apply String.eqb_neq. intros H. injection H as H. congruence. }
  rewrite (step_kind_of
             {| self := this;
                mem := {| argv := av; args := String "-" (String c more) :: rest;
                          operands := ops; unknown := unk |};
                dest := d |} _ rest eq_refl).
  rewrite (step_kind_of
             {| self := this;
                mem := {| argv := av;
                          args := String "-" (String c "") :: String "-" more :: rest;
                          operands := ops; unknown := unk |};
                dest := d |} _ (String "-" more :: rest) eq_refl).
  cbv zeta. cbn [self]. rewrite Hk1, Hk2, Hreq, Hopt. reflexivity.
Qed.

Lemma combined_boolean_flag_reads_as_separate_flags_witness :
  parse_loop 5
    {| self := scenario_A_program;
       mem := {| argv := []; args := ["-pC"; "/tmp"];
                 operands := []; unknown := [] |};
       dest := Operands |}
  = parse_loop 5
      {| self := scenario_A_program;
         mem := {| argv := []; args := ["-p"; "-C"; "/tmp"];
                   operands := []; unknown := [] |};
         dest := Operands |}.
Proof.
  eapply (combined_boolean_flag_reads_as_separate_flags
            scenario_A_program [] "p"%char "C" ["/tmp"] [] [] Operands 5);
    [discriminate|discriminate|vm_compute; reflexivity|reflexivity|reflexivity
    |reflexivity].
Defined.

(** ** Registering an option and binding its value *)

(** The command after [_optionEx] registers an option that is not a
    negation. *)
Lemma _optionEx_positive m flags0 description0 fn0 defaultValue0 this this' :
  negate (new_Option flags0 description0) = false ->
  _optionEx m flags0 description0 fn0 defaultValue0 this = Some this' ->
  exists name,
    Opt.attributeName (new_Option flags0 description0) = Some name
    /\ let option := with_mandatory m (new_Option flags0 description0) in
       let dflt := match fn0 with FnFunction _ => defaultValue0 | FnValue v => v end in
       let assigned :=
         (optional option || required option || is_boolean dflt) && defined dflt in
       let option1 := if assigned then with_defaultValue dflt option else option in
       this' = with_registration option1
                 (String.append "option:" (Opt.name option))
                 {| l_option := option1; l_name := name;
                    l_fn := match fn0 with FnFunction f => Some f | FnValue _ => None end;
                    l_defaultValue := dflt |}
                 (if assigned then _setOptionValue name dflt this else this).
Proof.
  unfold _optionEx. generalize (new_Option flags0 description0) as o.
  intros o Hneg.
  change (Opt.attributeName (with_mandatory m o)) with (Opt.attributeName o).
  destruct (Opt.attributeName o) as [name|]; [|discriminate].
  cbv zeta. cbn [negate optional required with_mandatory].
  rewrite Hneg. cbn [orb andb]. rewrite andb_false_r.
  destruct (_ && registration_throws _ _); [discriminate|].
  intros H. injection H as <-. exists name. split; reflexivity.
Qed.

(** Any registration by [_optionEx]. *)
Lemma _optionEx_Some m flags0 description0 fn0 defaultValue0 this this' :
  _optionEx m flags0 description0 fn0 defaultValue0 this = Some this' ->
  exists name o l base,
    Opt.attributeName (new_Option flags0 description0) = Some name
    /\ this' = with_registration o
                 (String.append "option:" (Opt.name (new_Option flags0 description0))) l base
    /\ (base = this \/ exists v, base = _setOptionValue name v this)
    /\ (o = with_mandatory m (new_Option flags0 description0)
        \/ exists v, o = with_defaultValue v (with_mandatory m (new_Option flags0 description0)))
    /\ l_option l = o /\ l_name l = name.
Proof.
  unfold _optionEx. generalize (new_Option flags0 description0) as o. intros o.
  change (Opt.attributeName (with_mandatory m o)) with (Opt.attributeName o).
  change (Opt.name (with_mandatory m o)) with (Opt.name o).
  destruct (Opt.attributeName o) as [name|]; [|discriminate].
  cbv zeta. destruct (_ && registration_throws _ _); [discriminate|].
  intros H. injection H as <-.
  match goal with
  | |- context [with_registration (if ?b then _ else _)] => destruct b
  end; eexists name, _, _, _; repeat split; eauto.
Qed.

(** Registering an option whose key names no member keeps the members. *)
Lemma _optionEx_members_kept m flags0 description0 fn0 defaultValue0 this this' name :
  Opt.attributeName (new_Option flags0 description0) = Some name ->
  member_of_command name = false ->
  members_kept this = true ->
  _optionEx m flags0 description0 fn0 defaultValue0 this = Some this' ->
  members_kept this' = true.
Proof.
  intros Hname Hkey Hkept Hreg.
  destruct (_optionEx_Some _ _ _ _ _ _ _ Hreg)
    as (name' & o & l & base & Hname' & -> & Hbase & Ho & _ & Hln).
  rewrite Hname in Hname'. injection Hname' as <-.
  assert (Hb : members_kept base = true).
  { destruct Hbase as [-> | [v ->]]; auto using members_kept_set. }
  apply members_kept_spec in Hb as (Hi & He & Hos). apply members_kept_spec.
  split; [exact Hi|]. cbn [_events options with_registration]. split.
  - apply List.Forall_app. split; [exact He|]. constructor; [|constructor].
    cbn [snd]. now rewrite Hln.
  - apply List.Forall_app. split; [exact Hos|]. constructor; [|constructor].
    intros key Hk.
    assert (Hsame : Opt.attributeName o = Some name)
      by (destruct Ho as [-> | [v ->]]; exact Hname).
    congruence.
Qed.

(** After the listeners of an event, the last of which belongs to an
    option that is not a negation and has no coercion function, have been
    called with a value, that value is stored. *)
Lemma emit_value_last c evs event l v :
  _events c = evs ++ [(event, l)] ->
  negate (l_option l) = false ->
  l_fn l = None ->
  _getOptionValue (emit event (VStr v) c) (l_name l) = VStr v.
Proof.
  intros Hev Hneg Hfn. rewrite (emit_last event (VStr v) c evs l Hev).
  unfold run_listener. rewrite Hfn, Hneg. cbn [loosely_null not_null].
  destruct (boolean_or_undefined _); apply _getOptionValue_set.
Qed.

Lemma _events_emit event val c : _events (emit event val c) = _events c.
Proof. apply field_emit. reflexivity. Qed.

(** The runs of X9, on the command as [_optionEx] leaves it. *)
Lemma required_option_runs this base option1 name dv flag :
  options base = options this ->
  long option1 = flag ->
  required option1 = true ->
  negate option1 = false ->
  maybeOption flag = true ->
  flag <> "--" ->
  _findOption this flag = None ->
  let event := String.append "option:" (Opt.name option1) in
  let l := {| l_option := option1; l_name := name; l_fn := None; l_defaultValue := dv |} in
  let this' := with_registration option1 event l base in
  (forall value,
      exists s, parseOptions this' [flag; value] = Returned s
                /\ operands (mem s) = [] /\ unknown (mem s) = []
                /\ _getOptionValue (self s) name = VStr value)
  /\ (forall value1 value2,
        exists s, parseOptions this' [flag; value1; flag; value2] = Returned s
                  /\ operands (mem s) = [] /\ unknown (mem s) = []
                  /\ _getOptionValue (self s) name = VStr value2)
  /\ (exists s, parseOptions this' [flag] = Exited (optionMissingArgument option1) s).
Proof.
  intros Hbase Hlong1 Hreq1 Hneg1 Hshape Hlit Hfresh event l this'.
  assert (Hevents : _events this' = _events base ++ [(event, l)]) by reflexivity.
  assert (Hmatch : Opt.is_ option1 flag = true).
  { unfold Opt.is_. now rewrite Hlong1, String.eqb_refl, orb_true_r. }
  assert (Hfind : _findOption this' flag = Some option1).
  { unfold _findOption, this'. cbn [options with_registration].
    rewrite Hbase. rewrite find_app_None by exact Hfresh. cbn [List.find].
    now rewrite Hmatch. }
  assert (Hkind : forall c, options c = options this' -> kind_of c flag = KOption option1).
  { intros c Hc. unfold kind_of, _findOption. rewrite Hc.
    fold (_findOption this' flag). rewrite Hfind, Hshape.
    apply String.eqb_neq in Hlit. now rewrite Hlit. }
  assert (Hstep : forall c value rest av,
             options c = options this' ->
             step {| self := c;
                     mem := {| argv := av; args := flag :: value :: rest;
                               operands := []; unknown := [] |};
                     dest := Operands |}
             = Continue
                 {| self := emit event (VStr value) c;
                    mem := {| argv := av; args := rest; operands := []; unknown := [] |};
                    dest := Operands |}).
  { intros c value rest av Hc.
    rewrite (step_kind_of
               {| self := c;
                  mem := {| argv := av; args := flag :: value :: rest;
                            operands := []; unknown := [] |};
                  dest := Operands |} flag (value :: rest) eq_refl).
    cbv zeta. cbn [self]. now rewrite (Hkind c Hc), Hreq1. }
  assert (Hstored : forall c value,
             _events c = _events this' ->
             _getOptionValue (emit event (VStr value) c) name = VStr value).
  { intros c value Hc.
    apply (emit_value_last c (_events base) event l value);
      [now rewrite Hc|exact Hneg1|reflexivity]. }
  split; [|split].
  - intros value. eexists. split.
    + unfold parseOptions.
      rewrite (parse_loop_more 2); [| rewrite !queue_size_cons; lia |].
      * cbn [parse_loop]. rewrite Hstep by reflexivity.
        rewrite step_nil by reflexivity. reflexivity.
      * cbn [parse_loop]. rewrite Hstep by reflexivity.
        rewrite step_nil by reflexivity. discriminate.
    + cbn [mem self operands unknown]. auto.
  - intros value1 value2. eexists. split.
    + unfold parseOptions.
      rewrite (parse_loop_more 3); [| rewrite !queue_size_cons; lia |].
      * cbn [parse_loop]. rewrite Hstep by reflexivity.
        rewrite Hstep by apply options_emit.
        rewrite step_nil by reflexivity. reflexivity.
      * cbn [parse_loop]. rewrite Hstep by reflexivity.
        rewrite Hstep by apply options_emit.
        rewrite step_nil by reflexivity. discriminate.
    + cbn [mem self operands unknown]. repeat split.
      apply Hstored. apply _events_emit.
  - eexists. unfold parseOptions.
    rewrite (parse_loop_more 1); [| rewrite !queue_size_cons; lia |].
    + cbn [parse_loop].
      rewrite (step_kind_of
                 {| self := this';
                    mem := {| argv := [flag]; args := [flag];
                              operands := []; unknown := [] |};
                    dest := Operands |} flag [] eq_refl).
      cbv zeta. cbn [self]. rewrite (Hkind this' eq_refl), Hreq1. reflexivity.
    + cbn [parse_loop].
      rewrite (step_kind_of
                 {| self := this';
                    mem := {| argv := [flag]; args := [flag];
                              operands := []; unknown := [] |};
                    dest := Operands |} flag [] eq_refl).
      cbv zeta. cbn [self]. rewrite (Hkind this' eq_refl), Hreq1. discriminate.
Qed.

(** X9: an option registered with a required value, that is not a
    negation and has no coercion function, with flags of characters
    below 128, on a command that does not know its long flag yet; the
    key of the option names no member of the
    command object, no member of which was or will be replaced.  The
    members are kept by the registration, and [parseOptions] stores the
    token that follows the flag, whatever it looks like; of two
    occurrences the value of the last one is stored; and the flag as the
    last token is the error [optionMissingArgument], with the code
    [commander.optionMissingArgument]. *)
Theorem required_option_stores_the_next_token
    m flags0 description0 v defaultValue0 flag name this this' :
  let option := new_Option flags0 description0 in
  ascii_only flags0 = true ->
  long option = flag ->
  required option = true ->
  negate option = false ->
  maybeOption flag = true ->
  flag <> "--" ->
  Opt.attributeName option = Some name ->
  member_of_command name = false ->
  members_kept this = true ->
  _findOption this flag = None ->
  _optionEx m flags0 description0 (FnValue v) defaultValue0 this = Some this' ->
  members_kept this' = true
  /\ (forall value,
        exists s, parseOptions this' [flag; value] = Returned s
                  /\ operands (mem s) = [] /\ unknown (mem s) = []
                  /\ _getOptionValue (self s) name = VStr value)
  /\ (forall value1 value2,
        exists s, parseOptions this' [flag; value1; flag; value2] = Returned s
                  /\ operands (mem s) = [] /\ unknown (mem s) = []
                  /\ _getOptionValue (self s) name = VStr value2)
  /\ (exists o s, parseOptions this' [flag] = Exited (optionMissingArgument o) s
                  /\ flags o = flags0
                  /\ code (optionMissingArgument o) = "commander.optionMissingArgument").
Proof.
  intros option _ Hlong Hreq Hneg Hshape Hlit Hkey Hfree Hkept Hfresh Hreg.
  split; [exact (_optionEx_members_kept _ _ _ _ _ _ _ _ Hkey Hfree Hkept Hreg)|].
  destruct (_optionEx_positive _ _ _ _ _ _ _ Hneg Hreg) as (name' & Hname & Hthis').
  fold option in Hname. rewrite Hkey in Hname. injection Hname as <-.
  cbv zeta in Hthis'. fold option in Hthis'.
  destruct ((optional (with_mandatory m option) || required (with_mandatory m option)
             || is_boolean v) && defined v).
  - destruct (required_option_runs this (_setOptionValue name v this)
                (with_defaultValue v (with_mandatory m option)) name v flag
                eq_refl Hlong Hreq Hneg Hshape Hlit Hfresh) as (H1 & H2 & s & H3).
    rewrite Hthis'. split; [exact H1|]. split; [exact H2|].
    eexists _, s. split; [exact H3|]. split; reflexivity.
  - destruct (required_option_runs this this (with_mandatory m option) name v flag
                eq_refl Hlong Hreq Hneg Hshape Hlit Hfresh) as (H1 & H2 & s & H3).
    rewrite Hthis'. split; [exact H1|]. split; [exact H2|].
    eexists _, s. split; [exact H3|]. split; reflexivity.
Qed.

Lemma required_option_stores_the_next_token_witness :
  members_kept token_program = true
  /\ (forall value,
        exists s, parseOptions token_program ["--token"; value] = Returned s
                  /\ operands (mem s) = [] /\ unknown (mem s) = []
                  /\ _getOptionValue (self s) "token" = VStr value)
  /\ (forall value1 value2,
        exists s, parseOptions token_program ["--token"; value1; "--token"; value2]
                  = Returned s
                  /\ operands (mem s) = [] /\ unknown (mem s) = []
                  /\ _getOptionValue (self s) "token" = VStr value2)
  /\ (exists o s, parseOptions token_program ["--token"]
                  = Exited (optionMissingArgument o) s
                  /\ flags o = "-t, --token <t>"
                  /\ code (optionMissingArgument o) = "commander.optionMissingArgument").
Proof.
  apply (required_option_stores_the_next_token true "-t, --token <t>" "access token"
           VUndefined VUndefined "--token" "token" (new_Command "prog") token_program);
    [reflexivity|reflexivity|reflexivity|reflexivity|reflexivity|discriminate
    |reflexivity|reflexivity|reflexivity|reflexivity|reflexivity].
Defined.

(** X10: the listener of an option that has a coercion function, is not
    a negation and whose key names no member of the command object,
    called with a value on a command of which no member was replaced.
    The function gets the value and the stored value, or the default
    captured at registration when nothing is stored; what it returns is
    stored, whatever was stored before.  Only when it returns [null] or
    [undefined] while the stored value is [undefined] or a boolean, the
    default if truthy, else [true], is stored instead. *)
Theorem coercion_gets_the_previous_value_or_the_default l fn value this :
  l_fn l = Some fn ->
  negate (l_option l) = false ->
  member_of_command (l_name l) = false ->
  members_intact this = true ->
  let previous :=
    if defined (_getOptionValue this (l_name l))
    then _getOptionValue this (l_name l) else l_defaultValue l in
  let coerced := fn (VStr value) previous in
  (loosely_null coerced = false ->
   _getOptionValue (run_listener l (VStr value) this) (l_name l) = coerced)
  /\ (loosely_null coerced = true ->
      boolean_or_undefined (_getOptionValue this (l_name l)) = true ->
      _getOptionValue (run_listener l (VStr value) this) (l_name l)
      = js_or (l_defaultValue l) (VBool true)).
Proof.
  intros Hfn Hneg _ _ previous coerced. unfold run_listener.
  rewrite Hfn, Hneg. cbn [not_null]. fold previous. fold coerced. split.
  - intros Hnull. rewrite Hnull.
    destruct (boolean_or_undefined _); [apply _getOptionValue_set|].
    replace (not_null coerced) with true by (now destruct coerced).
    apply _getOptionValue_set.
  - intros Hnull Hbool. rewrite Hbool, Hnull. apply _getOptionValue_set.
Qed.

Lemma coercion_gets_the_previous_value_or_the_default_witness :
  _getOptionValue (run_listener verbose_listener (VStr "") (new_Command "prog")) "verbose"
  = VNum 1
  /\ _getOptionValue
       (run_listener verbose_listener (VStr "")
          (_setOptionValue "verbose" (VNum 1) (new_Command "prog"))) "verbose"
     = VNum 2.
Proof.
  split.
  - refine (proj1 (coercion_gets_the_previous_value_or_the_default
                     verbose_listener _ "" (new_Command "prog")
                     eq_refl eq_refl eq_refl eq_refl) _).
    reflexivity.
  - refine (proj1 (coercion_gets_the_previous_value_or_the_default
                     verbose_listener _ ""
                     (_setOptionValue "verbose" (VNum 1) (new_Command "prog"))
                     eq_refl eq_refl eq_refl eq_refl) _).
    reflexivity.
Defined.

(** X11: on a command of which no member was or will be replaced,
    [_optionEx] with an option whose flags are characters below 128 and
    whose key names no member of the command object adds one option, with the flags and the mandatory mark it was
    given, at the end of the options, and one listener at the end of the
    listeners; the subcommands and the values stored under other keys
    than the one of the new option are as they were, and the members of
    the command are kept. *)
Theorem _optionEx_adds_one_option
    m flags0 description0 fn0 defaultValue0 name this this' :
  ascii_only flags0 = true ->
  Opt.attributeName (new_Option flags0 description0) = Some name ->
  member_of_command name = false ->
  members_kept this = true ->
  _optionEx m flags0 description0 fn0 defaultValue0 this = Some this' ->
  exists o l,
    options this' = options this ++ [o]
    /\ flags o = flags0 /\ mandatory o = m
    /\ Opt.attributeName o = Some name
    /\ _events this'
       = _events this
         ++ [(String.append "option:" (Opt.name (new_Option flags0 description0)), l)]
    /\ l_name l = name
    /\ commands this' = commands this
    /\ (forall key, key <> name -> _getOptionValue this' key = _getOptionValue this key)
    /\ members_kept this' = true.
Proof.
  intros _ Hkey Hfree Hkept Hreg.
  pose proof (_optionEx_members_kept _ _ _ _ _ _ _ _ Hkey Hfree Hkept Hreg) as Hkept'.
  destruct (_optionEx_Some _ _ _ _ _ _ _ Hreg)
    as (name' & o & l & base & Hname & -> & Hbase & Ho & Hlo & Hln).
  rewrite Hkey in Hname. injection Hname as <-.
  exists o, l.
  cbn [options _events commands with_registration].
  assert (Hfields : options base = options this /\ _events base = _events this
                    /\ commands base = commands this).
  { destruct Hbase as [-> | [v ->]]; auto. }
  destruct Hfields as (-> & -> & ->).
  split; [reflexivity|].
  split; [destruct Ho as [-> | [v ->]]; reflexivity|].
  split; [destruct Ho as [-> | [v ->]]; reflexivity|].
  split; [destruct Ho as [-> | [v ->]]; exact Hkey|].
  split; [reflexivity|]. split; [exact Hln|]. split; [reflexivity|].
  split; [|exact Hkept'].
  intros key Hne. rewrite _getOptionValue_registration.
  destruct Hbase as [-> | [v ->]]; [reflexivity|].
  apply _getOptionValue_set_other. congruence.
Qed.

Lemma _optionEx_adds_one_option_witness :
  exists o l,
    options token_program = options (new_Command "prog") ++ [o]
    /\ flags o = "-t, --token <t>" /\ mandatory o = true
    /\ Opt.attributeName o = Some "token"
    /\ _events token_program
       = _events (new_Command "prog")
         ++ [(String.append "option:"
                (Opt.name (new_Option "-t, --token <t>" "access token")), l)]
    /\ l_name l = "token"
    /\ commands token_program = commands (new_Command "prog")
    /\ (forall key, key <> "token" ->
                    _getOptionValue token_program key
                    = _getOptionValue (new_Command "prog") key)
    /\ members_kept token_program = true.
Proof.
  apply (_optionEx_adds_one_option true "-t, --token <t>" "access token"
           (FnValue VUndefined) VUndefined "token" (new_Command "prog") token_program);
    reflexivity.
Defined.

Lemma check_mandatory_options_app cmd os os' :
  check_mandatory_options cmd (os ++ os')
  = match check_mandatory_options cmd os with
    | Some r => Some r
    | None => check_mandatory_options cmd os'
    end.
Proof.
  induction os as [|o os IH]; [reflexivity|]. cbn.
  destruct (mandatory o); [|exact IH].
  destruct (Opt.attributeName o); [|reflexivity].
  destruct (defined _); [exact IH|reflexivity].
Qed.

(** The check of the options [os] passes on [cmd'] if it passes on [cmd]
    and every value defined on [cmd] is defined on [cmd']. *)
Lemma check_mandatory_options_mono cmd cmd' os :
  (forall key, defined (_getOptionValue cmd key) = true ->
               defined (_getOptionValue cmd' key) = true) ->
  check_mandatory_options cmd os = None ->
  check_mandatory_options cmd' os = None.
Proof.
  intros Hmono. induction os as [|o os IH]; [reflexivity|]. cbn.
  destruct (mandatory o); [|exact IH].
  destruct (Opt.attributeName o) as [key|]; [|discriminate].
  destruct (defined (_getOptionValue cmd key)) eqn:Hdef; [|discriminate].
  now rewrite (Hmono key Hdef).
Qed.

(** X12: a mandatory option that takes a value (or whose default is a
    boolean), whose flags are characters below 128, whose key names no
    member of the command object, and
    which is registered with a default on a command of which no member
    was replaced, does not have to be given: if the check of the
    mandatory options passed on the command before, it passes after the
    registration, and the default is stored. *)
Theorem requiredOption_with_default_passes_the_check
    flags0 description0 v defaultValue0 name this this' :
  let option := new_Option flags0 description0 in
  ascii_only flags0 = true ->
  negate option = false ->
  optional option || required option || is_boolean v = true ->
  defined v = true ->
  Opt.attributeName option = Some name ->
  member_of_command name = false ->
  members_intact this = true ->
  check_mandatory_options this (options this) = None ->
  _optionEx true flags0 description0 (FnValue v) defaultValue0 this = Some this' ->
  check_mandatory_options this' (options this') = None
  /\ _getOptionValue this' name = v
  /\ members_intact this' = true.
Proof.
  intros option _ Hneg Hpre Hdef Hkey Hfree Hintact Hcheck Hreg.
  destruct (_optionEx_positive _ _ _ _ _ _ _ Hneg Hreg) as (name' & Hname & Hthis').
  fold option in Hname. rewrite Hkey in Hname. injection Hname as <-.
  cbv zeta in Hthis'. fold option in Hthis'.
  cbn [optional required with_mandatory] in Hthis'. rewrite Hpre, Hdef in Hthis'.
  cbn [andb] in Hthis'.
  assert (Hget : _getOptionValue this' name = v).
  { rewrite Hthis', _getOptionValue_registration. apply _getOptionValue_set. }
  split; [|split; [exact Hget|]].
  - assert (Hopts : options this' = options this
                                    ++ [with_defaultValue v (with_mandatory true option)])
      by (now rewrite Hthis').
    rewrite Hopts, check_mandatory_options_app.
    rewrite (check_mandatory_options_mono this this' (options this)); [| |exact Hcheck].
    + cbn [check_mandatory_options mandatory with_defaultValue with_mandatory].
      change (Opt.attributeName (with_defaultValue v (with_mandatory true option)))
        with (Opt.attributeName option).
      now rewrite Hkey, Hget, Hdef.
    + intros key Hk. destruct (String.eqb_spec name key) as [<- | Hne].
      * now rewrite Hget.
      * rewrite Hthis', _getOptionValue_registration.
        now rewrite _getOptionValue_set_other.
  - rewrite Hthis'.
    change (members_intact (_setOptionValue name v this) = true).
    now apply members_intact_set.
Qed.

Lemma requiredOption_with_default_passes_the_check_witness :
  check_mandatory_options token_default_program (options token_default_program) = None
  /\ _getOptionValue token_default_program "token" = VStr "secret"
  /\ members_intact token_default_program = true.
Proof.
  apply (requiredOption_with_default_passes_the_check "-t, --token <t>" "access token"
           (VStr "secret") VUndefined "token" (new_Command "prog") token_default_program);
    reflexivity.
Defined.

(** X13: a default that is not a boolean, given to a mandatory option
    that takes no value, whose flags are characters below 128 and whose
    key names no member of the command object, is not stored at registration on a command of which no
    member was replaced: the option still lacks its value and the check
    of the mandatory options fails until the flag is given.  The default
    lives on in the listener only. *)
Theorem plain_mandatory_flag_ignores_its_default
    flags0 description0 v defaultValue0 this this' name :
  let option := new_Option flags0 description0 in
  ascii_only flags0 = true ->
  negate option = false ->
  optional option = false ->
  required option = false ->
  is_boolean v = false ->
  Opt.attributeName option = Some name ->
  member_of_command name = false ->
  members_intact this = true ->
  _getOptionValue this name = VUndefined ->
  check_mandatory_options this (options this) = None ->
  _optionEx true flags0 description0 (FnValue v) defaultValue0 this = Some this' ->
  _optionValues this' = _optionValues this
  /\ check_mandatory_options this' (options this')
     = Some (Exit (missingMandatoryOptionValue (with_mandatory true option))).
Proof.
  intros option _ Hneg Hopt Hreq Hbool Hname _ _ Hval Hcheck Hreg.
  destruct (_optionEx_positive _ _ _ _ _ _ _ Hneg Hreg) as (name' & Hname' & Hthis').
  fold option in Hname'. rewrite Hname in Hname'. injection Hname' as <-.
  cbv zeta in Hthis'. fold option in Hthis'.
  cbn [optional required with_mandatory] in Hthis'.
  rewrite Hopt, Hreq, Hbool in Hthis'. cbn [orb andb] in Hthis'.
  rewrite Hthis'. split; [reflexivity|].
  cbn [options with_registration]. rewrite check_mandatory_options_app.
  rewrite (check_mandatory_options_mono this _ (options this)); [| |exact Hcheck].
  - cbn [check_mandatory_options mandatory with_mandatory].
    change (Opt.attributeName (with_mandatory true option))
      with (Opt.attributeName option).
    now rewrite Hname, _getOptionValue_registration, Hval.
  - intros key Hkey. now rewrite _getOptionValue_registration.
Qed.

Lemma plain_mandatory_flag_ignores_its_default_witness :
  _optionValues color_program = _optionValues (new_Command "prog")
  /\ check_mandatory_options color_program (options color_program)
     = Some (Exit (missingMandatoryOptionValue
                     (with_mandatory true (new_Option "--color" "use colors")))).
Proof.
  apply (plain_mandatory_flag_ignores_its_default "--color" "use colors"
           (VStr "red") VUndefined (new_Command "prog") color_program "color");
    reflexivity.
Defined.

(** X14: on a chain of commands whose options all have keys that name
    no member of the command object, and of which no member was or will
    be replaced, the sweep passes exactly when no command of the chain
    lacks the value of a mandatory option. *)
Theorem mandatory_sweep_passes_iff_nothing_is_lacking chain :
  Forall (fun c => keys_defined c = true) chain ->
  Forall (fun c => members_kept c = true) chain ->
  (_checkForMissingMandatoryOptions chain = None <->
   forall cmd o, In cmd chain -> ~ lacks_mandatory_value cmd o).
Proof.
  intros Hkeys _. split.
  - intros Hpass cmd o Hin Hl.
    destruct (sweep_lacking chain cmd o Hin Hl) as [r Hr]. congruence.
  - intros Hnone.
    destruct (_checkForMissingMandatoryOptions chain) as [r|] eqn:Hr; [|reflexivity].
    destruct (sweep_Some chain r Hr) as [->|(cmd & o & _ & Hin & Hl)].
    + now apply sweep_keys in Hr.
    + now apply Hnone in Hl.
Qed.

Lemma mandatory_sweep_passes_iff_nothing_is_lacking_witness :
  _checkForMissingMandatoryOptions [new_Command "sub"; token_default_program] = None
  <-> forall cmd o,
        In cmd [new_Command "sub"; token_default_program] ->
        ~ lacks_mandatory_value cmd o.
Proof.
  apply (mandatory_sweep_passes_iff_nothing_is_lacking
           [new_Command "sub"; token_default_program]);
    repeat constructor.
Defined.

(** ** Binding the operands to the declared arguments *)

Lemma arg_missing_given given i :
  arg_missing (map AString given) i = (length given <=? i)%nat.
Proof.
  unfold arg_missing. rewrite list_lookup_fmap.
  destruct (given !! i) as [x|] eqn:Hx; cbn.
  - apply lookup_lt_Some in Hx. symmetry. apply Nat.leb_gt. exact Hx.
  - apply lookup_ge_None in Hx. symmetry. apply Nat.leb_le. exact Hx.
Qed.

(** The descriptors before the first variadic one check their operand
    and leave the array as it is. *)
Lemma bind_args_front count front rest given : forall i,
  Forall (fun a => arg_variadic a = false) front ->
  bind_args count i (front ++ rest) (map AString given)
  = match List.find arg_required (drop (length given - i) front) with
    | Some a => inl (Exit (missingArgument (arg_name a)))
    | None => bind_args count (i + length front) rest (map AString given)
    end.
Proof.
  induction front as [|a front IH]; intros i Hfront.
  - rewrite drop_nil. cbn. now rewrite Nat.add_0_r.
  - apply Forall_cons in Hfront as [Ha Hfront].
    cbn [app bind_args]. rewrite arg_missing_given, Ha, (IH (S i) Hfront).
    cbn [length]. rewrite Nat.add_succ_r. cbn [Nat.add].
    destruct (Nat.leb_spec (length given) i) as [Hle | Hlt].
    + replace (length given - i) with 0 by lia.
      replace (length given - S i) with 0 by lia.
      rewrite !drop_0. cbn [List.find].
      destruct (arg_required a); reflexivity.
    + replace (length given - i) with (S (length given - S i)) by lia.
      rewrite andb_false_r. reflexivity.
Qed.

(** X15: when no declared argument is variadic, the action handler gets
    the operands as they are, also those beyond the declared arguments,
    unless a required argument has no operand: then the first such
    argument is reported as missing. *)
Theorem arguments_without_variadic_are_passed_unchanged count descs given :
  Forall (fun a => arg_variadic a = false) descs ->
  bind_args count 0 descs (map AString given)
  = match List.find arg_required (drop (length given) descs) with
    | Some a => inl (Exit (missingArgument (arg_name a)))
    | None => inr (map AString given)
    end.
Proof.
  intros Hdescs.
  rewrite <- (app_nil_r descs) at 1.
  rewrite (bind_args_front count descs [] given 0 Hdescs), Nat.sub_0_r.
  reflexivity.
Qed.

Lemma arguments_without_variadic_are_passed_unchanged_witness :
  bind_args 1 0 [{| arg_required := true; arg_name := "dir"; arg_variadic := false |}]
    (map AString ["x"; "y"])
  = inr [AString "x"; AString "y"].
Proof.
  apply (arguments_without_variadic_are_passed_unchanged 1
           [{| arg_required := true; arg_name := "dir"; arg_variadic := false |}]
           ["x"; "y"]).
  repeat constructor.
Defined.

Lemma find_drop_app {A} (f : A -> bool) n (front : list A) v :
  List.find f (drop n (front ++ [v]))
  = match List.find f (drop n front) with
    | Some a => Some a
    | None => if (n <=? length front)%nat && f v then Some v else None
    end.
Proof.
  rewrite drop_app.
  destruct (List.find f (drop n front)) as [a|] eqn:Hfind.
  - now apply find_app_Some.
  - rewrite (find_app_None _ _ _ Hfind).
    destruct (Nat.leb_spec n (length front)) as [Hle | Hlt].
    + replace (n - length front) with 0 by lia. rewrite drop_0. cbn.
      destruct (f v); reflexivity.
    + rewrite drop_ge by (cbn; lia). reflexivity.
Qed.

(** X16: a variadic argument declared last takes all the operands from
    its index on, as one array, which is empty when there is none; an
    optional argument before it that has no operand leaves a hole.  A
    required argument without an operand, the variadic one included, is
    reported as missing. *)
Theorem variadic_last_argument_takes_the_rest front v given :
  Forall (fun a => arg_variadic a = false) front ->
  arg_variadic v = true ->
  let n := length front in
  bind_args (length (front ++ [v])) 0 (front ++ [v]) (map AString given)
  = match List.find arg_required (drop (length given) (front ++ [v])) with
    | Some a => inl (Exit (missingArgument (arg_name a)))
    | None =>
        inr (map AString (take n given)
             ++ replicate (n - length given) AEmpty
             ++ [AArray (map AString (drop n given))])
    end.
Proof.
  intros Hfront Hv n.
  rewrite (bind_args_front _ front [v] given 0 Hfront), Nat.sub_0_r.
  rewrite find_drop_app.
  destruct (List.find arg_required (drop (length given) front)); [reflexivity|].
  cbn [Nat.add bind_args]. fold n. rewrite arg_missing_given, Hv.
  rewrite length_app. cbn [length]. fold n.
  replace (n + 1 - 1) with n by lia. rewrite Nat.eqb_refl. cbn [negb].
  rewrite (andb_comm (arg_required v)).
  destruct ((length given <=? n)%nat && arg_required v); [reflexivity|].
  unfold splice_into. now rewrite length_map, <- fmap_take, <- fmap_drop.
Qed.

Lemma variadic_last_argument_takes_the_rest_witness :
  bind_args 2 0
    ([{| arg_required := true; arg_name := "a"; arg_variadic := false |}]
     ++ [{| arg_required := false; arg_name := "b"; arg_variadic := true |}])
    (map AString ["x"; "y"; "z"])
  = inr [AString "x"; AArray [AString "y"; AString "z"]].
Proof.
  apply (variadic_last_argument_takes_the_rest
           [{| arg_required := true; arg_name := "a"; arg_variadic := false |}]
           {| arg_required := false; arg_name := "b"; arg_variadic := true |}
           ["x"; "y"; "z"]);
    [repeat constructor|reflexivity].
Defined.

(** X17: a variadic argument that is not declared last ends the binding
    with [variadicArgNotLast], whatever the operands, unless a required
    argument up to it has no operand, which is reported first. *)
Theorem variadic_argument_must_be_last count front v rest given :
  Forall (fun a => arg_variadic a = false) front ->
  arg_variadic v = true ->
  rest <> [] ->
  count = length (front ++ v :: rest) ->
  bind_args count 0 (front ++ v :: rest) (map AString given)
  = match List.find arg_required (drop (length given) (front ++ [v])) with
    | Some a => inl (Exit (missingArgument (arg_name a)))
    | None => inl (Exit (variadicArgNotLast (arg_name v)))
    end.
Proof.
  intros Hfront Hv Hrest ->.
  rewrite (bind_args_front _ front (v :: rest) given 0 Hfront), Nat.sub_0_r.
  rewrite find_drop_app.
  destruct (List.find arg_required (drop (length given) front)); [reflexivity|].
  cbn [Nat.add bind_args]. rewrite arg_missing_given, Hv.
  rewrite length_app. cbn [length].
  rewrite (andb_comm (arg_required v)).
  destruct ((length given <=? length front)%nat && arg_required v); [reflexivity|].
  destruct rest as [|r rest]; [contradiction|]. cbn [length].
  replace (length front =? length front + S (S (length rest)) - 1)%nat with false
    by (symmetry; apply Nat.eqb_neq; lia).
  reflexivity.
Qed.

Lemma variadic_argument_must_be_last_witness :
  bind_args 2 0
    ([] ++ {| arg_required := false; arg_name := "b"; arg_variadic := true |}
        :: [{| arg_required := false; arg_name := "c"; arg_variadic := false |}])
    (map AString ["x"])
  = inl (Exit (variadicArgNotLast "b")).
Proof.
  apply (variadic_argument_must_be_last 2 []
           {| arg_required := false; arg_name := "b"; arg_variadic := true |}
           [{| arg_required := false; arg_name := "c"; arg_variadic := false |}]
           ["x"]);
    [constructor|reflexivity|discriminate|reflexivity].
Defined.

(** ** Attribute names: [camelcase] *)






Lemma index_from_is_Some i j p s :
  is_Some (index_from i p s) -> is_Some (index_from j p s).
Proof.
  intros Hi. destruct (index_from j p s) eqn:Hj; [eauto|].
  apply (index_from_shift j i) in Hj. rewrite Hj in Hi. now destruct Hi.
Qed.







Lemma index_char_append c a b : forall i,
  index_from i (String c "") (String.append a b) = None
  <-> index_from i (String c "") a = None /\ index_from i (String c "") b = None.
Proof.
  induction a as [|x a IH]; intros i.
  - change (String.append "" b) with b. cbn. tauto.
  - rewrite append_cons, !(index_from_unfold i _ (String x _)).
    cbn [starts_with]. destruct (Ascii.eqb c x); cbn [andb].
    + split; [discriminate|]. intros [H _]; discriminate.
    + rewrite (IH (S i)). split; intros [H1 H2]; split; auto;
        eapply index_from_shift; exact H2.
Qed.

Lemma split_on_no_separator c s :
  Forall (fun w => index_from 0 (String c "") w = None) (split_on c s).
Proof.
  induction s as [|a s IH]; [repeat constructor|].
  cbn [split_on]. destruct (Ascii.eqb_spec a c) as [-> | Ha].
  - constructor; [reflexivity|exact IH].
  - destruct (split_on c s) as [|w ws]; [|apply Forall_cons in IH as [Hw Hws]];
      constructor; auto; rewrite index_from_unfold; cbn [starts_with];
      (replace (Ascii.eqb c a) with false
         by (symmetry; apply Ascii.eqb_neq; congruence)); cbn [andb].
    + reflexivity.
    + eapply index_from_shift; exact Hw.
Qed.

Lemma split_on_without_separator c s :
  index_from 0 (String c "") s = None -> split_on c s = [s].
Proof.
  generalize 0. induction s as [|a s IH]; intros i; [reflexivity|].
  rewrite index_from_unfold. cbn [starts_with split_on].
  rewrite (Ascii.eqb_sym a c).
  destruct (Ascii.eqb c a); cbn [andb]; [discriminate|].
  intros H. now rewrite (IH _ H).
Qed.

Lemma split_on_append c a b :
  index_from 0 (String c "") a = None ->
  split_on c (String.append a (String c b)) = a :: split_on c b.
Proof.
  generalize 0. induction a as [|x a IH]; intros i.
  - intros _. change (String.append "" (String c b)) with (String c b).
    cbn [split_on]. now rewrite Ascii.eqb_refl.
  - rewrite index_from_unfold, append_cons. cbn [starts_with split_on].
    rewrite (Ascii.eqb_sym x c).
    destruct (Ascii.eqb c x); cbn [andb]; [discriminate|].
    intros H. now rewrite (IH _ H).
Qed.

Lemma to_upper_dash ch : ch <> "-"%char -> to_upper ch <> "-"%char.
Proof.
  destruct ch as [[] [] [] [] [] [] [] []]; vm_compute; congruence.
Qed.

Lemma capitalize_no_dash w w' :
  Opt.capitalize w = Some w' ->
  index_from 0 "-" w = None -> index_from 0 "-" w' = None.
Proof.
  destruct w as [|ch w]; [discriminate|]. intros H; injection H as <-.
  rewrite !(index_from_unfold 0). cbn [starts_with].
  destruct (Ascii.eqb_spec "-" ch) as [<- | Hch]; cbn [andb]; [discriminate|].
  replace (Ascii.eqb "-" (to_upper ch)) with false; [trivial|].
  symmetry. apply Ascii.eqb_neq. intros H. symmetry in H.
  now apply to_upper_dash in H.
Qed.

Lemma camel_reduce_no_dash words : forall str key,
  index_from 0 "-" str = None ->
  Forall (fun w => index_from 0 "-" w = None) words ->
  Opt.camel_reduce str words = Some key ->
  index_from 0 "-" key = None.
Proof.
  induction words as [|w ws IH]; intros str key Hstr Hwords; cbn.
  - congruence.
  - apply Forall_cons in Hwords as [Hw Hws].
    destruct (Opt.capitalize w) as [w'|] eqn:Hcap; [|discriminate].
    apply IH; [|exact Hws]. apply index_char_append. split; [exact Hstr|].
    eapply capitalize_no_dash; eauto.
Qed.

(** X19: the attribute name that [camelcase] returns has no dash, and a
    name that has no dash is its own attribute name. *)
Theorem camelcase_leaves_no_dash flag key :
  Opt.camelcase flag = Some key ->
  indexOf "-" key = None
  /\ (indexOf "-" flag = None -> key = flag).
Proof.
  unfold Opt.camelcase, indexOf. intros Hkey. split.
  - pose proof (split_on_no_separator "-" flag) as Hwords.
    destruct (split_on "-" flag) as [|first words]; [discriminate|].
    apply Forall_cons in Hwords as [Hfirst Hwords].
    eapply camel_reduce_no_dash; eauto.
  - intros Hflag. rewrite (split_on_without_separator _ _ Hflag) in Hkey.
    cbn in Hkey. congruence.
Qed.

Lemma camelcase_leaves_no_dash_witness :
  Opt.camelcase "dry-run" = Some "dryRun"
  /\ indexOf "-" "dryRun" = None
  /\ (indexOf "-" "dry-run" = None -> "dryRun" = "dry-run").
Proof.
  split; [reflexivity|].
  apply (camelcase_leaves_no_dash "dry-run" "dryRun"). reflexivity.
Defined.

(** X20: two words joined by a dash become one word, the second with its
    first letter in upper case; the letter is a character below 128, on
    which the [toUpperCase] of the model is that of JavaScript. *)
Theorem camelcase_joins_two_words a c b :
  (nat_of_ascii c < 128)%nat ->
  indexOf "-" a = None ->
  indexOf "-" (String c b) = None ->
  Opt.camelcase (String.append a (String "-" (String c b)))
  = Some (String.append a (String (to_upper c) b)).
Proof.
  unfold Opt.camelcase, indexOf. intros _ Ha Hb.
  rewrite (split_on_append "-" a _ Ha), (split_on_without_separator _ _ Hb).
  reflexivity.
Qed.

Lemma camelcase_joins_two_words_witness :
  (nat_of_ascii "r" < 128)%nat
  /\ Opt.camelcase "dry-run" = Some "dryRun".
Proof.
  split; [vm_compute; lia|].
  apply (camelcase_joins_two_words "dry" "r"%char "un");
    [vm_compute; lia|reflexivity|reflexivity].
Defined.

(** ** The flags of [new Option] *)

Lemma append_nil_r s : String.append s "" = s.
Proof. induction s as [|c s IH]; [reflexivity|]. now rewrite append_cons, IH. Qed.

Lemma split_runs_not_nil sep in_run s : split_runs sep in_run s <> [].
Proof.
  revert in_run. induction s as [|a s IH]; intros in_run; cbn; [discriminate|].
  destruct (sep a).
  - destruct in_run; [apply IH|discriminate].
  - destruct (split_runs sep false s); discriminate.
Qed.

(** A word at the start of the string is the start of the first piece. *)
Lemma split_runs_word sep w rest :
  every_char (fun c => negb (sep c)) w = true ->
  split_runs sep false (String.append w rest)
  = match split_runs sep false rest with
    | p :: ps => String.append w p :: ps
    | [] => [w]
    end.
Proof.
  induction w as [|c w IH]; intros Hw.
  - change (String.append "" rest) with rest.
    destruct (split_runs sep false rest) eqn:E; [now apply split_runs_not_nil in E|].
    reflexivity.
  - cbn [every_char] in Hw. apply andb_prop in Hw as [Hc Hw].
    apply negb_true_iff in Hc.
    rewrite append_cons. cbn [split_runs]. rewrite Hc, (IH Hw).
    destruct (split_runs sep false rest); reflexivity.
Qed.

Lemma split_runs_word_end sep w :
  every_char (fun c => negb (sep c)) w = true ->
  split_runs sep false w = [w].
Proof.
  intros Hw. rewrite <- (append_nil_r w) at 1.
  rewrite (split_runs_word _ _ _ Hw). cbn. now rewrite append_nil_r.
Qed.

Lemma split_runs_word_cut sep w c rest :
  every_char (fun c => negb (sep c)) w = true ->
  sep c = true ->
  split_runs sep false (String.append w (String c rest))
  = w :: split_runs sep true rest.
Proof.
  intros Hw Hc. rewrite (split_runs_word _ _ _ Hw). cbn [split_runs].
  now rewrite Hc, append_nil_r.
Qed.

(** A run of separators is one cut. *)
Lemma split_runs_run sep seps rest :
  every_char sep seps = true ->
  split_runs sep true (String.append seps rest) = split_runs sep true rest.
Proof.
  induction seps as [|c seps IH]; intros Hseps; [reflexivity|].
  cbn [every_char] in Hseps. apply andb_prop in Hseps as [Hc Hseps].
  rewrite append_cons. cbn [split_runs]. rewrite Hc. exact (IH Hseps).
Qed.

Lemma split_runs_after_run sep x s :
  sep x = false ->
  split_runs sep true (String x s) = split_runs sep false (String x s).
Proof. intros Hx. cbn [split_runs]. now rewrite Hx. Qed.

Lemma split_flags_two_words a c seps x b rest :
  flag_word a = true ->
  is_flag_separator c = true ->
  every_char is_flag_separator seps = true ->
  flag_word (String x b) = true ->
  word_ends rest ->
  exists more,
    split_flags (String.append a (String c
                   (String.append seps (String.append (String x b) rest))))
    = a :: String x b :: more.
Proof.
  intros Ha Hc Hseps Hb Hrest. unfold split_flags.
  rewrite (split_runs_word_cut _ _ _ _ Ha Hc), (split_runs_run _ _ _ Hseps).
  assert (Hx : is_flag_separator x = false).
  { cbn in Hb. apply andb_prop in Hb as [Hx _]. now apply negb_true_iff. }
  rewrite append_cons, (split_runs_after_run _ _ _ Hx), <- append_cons.
  destruct Hrest as [-> | (c' & r & -> & Hc')].
  - rewrite append_nil_r, (split_runs_word_end _ _ Hb). now exists [].
  - rewrite (split_runs_word_cut _ _ _ _ Hb Hc'). eauto.
Qed.

(** X21: flags that start with two words, separated by spaces, commas
    and bars in any number, of which the second does not open a value
    ([<] or [[]): the first word is the short flag and the second is the
    long flag, whatever follows. *)
Theorem new_Option_reads_the_short_and_the_long_flag
    a c seps x b rest description0 :
  flag_word a = true ->
  is_flag_separator c = true ->
  every_char is_flag_separator seps = true ->
  flag_word (String x b) = true ->
  opens_value_marker (String x b) = false ->
  word_ends rest ->
  let o := new_Option
             (String.append a (String c
                (String.append seps (String.append (String x b) rest))))
             description0 in
  short o = Some a /\ long o = String x b.
Proof.
  intros Ha Hc Hseps Hb Hmarker Hrest.
  destruct (split_flags_two_words a c seps x b rest Ha Hc Hseps Hb Hrest)
    as [more Hsplit].
  cbv zeta. unfold new_Option. cbn [short long]. rewrite Hsplit, Hmarker.
  now split.
Qed.

Lemma new_Option_reads_the_short_and_the_long_flag_witness :
  short (new_Option "-C,  --chdir <path>" "") = Some "-C"
  /\ long (new_Option "-C,  --chdir <path>" "") = "--chdir".
Proof.
  apply (new_Option_reads_the_short_and_the_long_flag
           "-C" ","%char "  " "-"%char "-chdir" " <path>" "");
    try reflexivity.
  right. exists " "%char, "<path>". split; reflexivity.
Defined.

(** X22: flags that are one word, or one word and then a value in [<>]
    or in [[]]: the word is the long flag, also when it looks like a short
    one, and there is no short flag.  The option takes a required value
    when [<] opens the value and an optional one when [[] does. *)
Theorem new_Option_reads_a_single_flag l c seps m value description0 :
  flag_word l = true ->
  is_flag_separator c = true ->
  every_char is_flag_separator seps = true ->
  m = "<"%char \/ m = "["%char ->
  let bare := new_Option l description0 in
  let o := new_Option
             (String.append l (String c (String.append seps (String m value))))
             description0 in
  (short bare = None /\ long bare = l)
  /\ short o = None /\ long o = l
  /\ (m = "<"%char -> required o = true)
  /\ (m = "["%char -> optional o = true).
Proof.
  intros Hl Hc Hseps Hm. cbv zeta. split.
  - unfold new_Option. cbn [short long]. unfold split_flags.
    now rewrite (split_runs_word_end _ _ Hl).
  - assert (Hsplit : exists w ws,
               split_flags (String.append l (String c
                              (String.append seps (String m value))))
               = l :: String m w :: ws).
    { unfold split_flags.
      rewrite (split_runs_word_cut _ _ _ _ Hl Hc), (split_runs_run _ _ _ Hseps).
      assert (Hsep : is_flag_separator m = false) by (now destruct Hm as [-> | ->]).
      cbn [split_runs]. rewrite Hsep.
      destruct (split_runs is_flag_separator false value) as [|w ws] eqn:E;
        [now apply split_runs_not_nil in E|eauto]. }
    destruct Hsplit as (w & ws & Hsplit).
    unfold new_Option. cbn [short long required optional]. rewrite Hsplit.
    replace (opens_value_marker (String m w)) with true
      by (now destruct Hm as [-> | ->]).
    cbn [negb head default]. repeat split.
    + intros ->. apply bool_decide_eq_true.
      replace (String.append l (String c (String.append seps (String "<" value))))
        with (String.append (String.append l (String c seps))
                (String.append "<" value)).
      * apply indexOf_part.
      * rewrite append_assoc. reflexivity.
    + intros ->. apply bool_decide_eq_true.
      replace (String.append l (String c (String.append seps (String "[" value))))
        with (String.append (String.append l (String c seps))
                (String.append "[" value)).
      * apply indexOf_part.
      * rewrite append_assoc. reflexivity.
Qed.

Lemma new_Option_reads_a_single_flag_witness :
  (short (new_Option "-C" "") = None /\ long (new_Option "-C" "") = "-C")
  /\ short (new_Option "-C <path>" "") = None
  /\ long (new_Option "-C <path>" "") = "-C"
  /\ ("<"%char = "<"%char -> required (new_Option "-C <path>" "") = true)
  /\ ("<"%char = "["%char -> optional (new_Option "-C <path>" "") = true).
Proof.
  apply (new_Option_reads_a_single_flag "-C" " "%char "" "<"%char "path>" "");
    try reflexivity.
  left; reflexivity.
Defined.

(** ** Declared arguments and their usage text *)

Lemma slice_inner_brackets o name c :
  slice_inner (String o (String.append name (String c ""))) = name.
Proof.
  unfold slice_inner. cbn [String.length slice_from].
  rewrite length_append. cbn [String.length].
  replace (S (String.length name + 1) - 2) with (String.length name) by lia.
  apply slice_to_append.
Qed.

Lemma slice_last_append a b :
  slice_last (String.length b) (String.append a b) = b.
Proof.
  unfold slice_last. rewrite length_append.
  replace (String.length a + String.length b - String.length b)
    with (String.length a) by lia.
  apply slice_from_append.
Qed.

Lemma slice_but_last_append a b :
  slice_but_last (String.length b) (String.append a b) = a.
Proof.
  unfold slice_but_last. rewrite length_append.
  replace (String.length a + String.length b - String.length b)
    with (String.length a) by lia.
  apply slice_to_append.
Qed.

Lemma expected_arg_brackets o c name :
  o = "<"%char \/ o = "["%char ->
  expected_arg (String o (String.append name (String c "")))
  = let variadic :=
      (3 <? String.length name)%nat && String.eqb (slice_last 3 name) "..." in
    let name1 := if variadic then slice_but_last 3 name else name in
    if String.eqb name1 "" then None
    else Some {| arg_required := Ascii.eqb o "<";
                 arg_name := name1;
                 arg_variadic := variadic |}.
Proof.
  intros Ho. unfold expected_arg.
  replace (starts_with "<" (String o (String.append name (String c "")))
           || starts_with "[" (String o (String.append name (String c ""))))
    with true by (now destruct Ho as [-> | ->]).
  rewrite slice_inner_brackets.
  replace (starts_with "<" (String o (String.append name (String c ""))))
    with (Ascii.eqb o "<") by (now destruct Ho as [-> | ->]).
  reflexivity.
Qed.

(** X24: the usage text of a declared argument declares the same
    argument: for every argument that [_parseExpectedArgs] makes of a
    string, [humanReadableArgName] gives a string of which
    [_parseExpectedArgs] makes the same argument again. *)
Theorem usage_text_declares_the_same_argument text arg :
  expected_arg text = Some arg ->
  expected_arg (humanReadableArgName arg) = Some arg.
Proof.
  intros Harg.
  assert (Hname : arg_name arg <> ""
                  /\ (arg_variadic arg = false ->
                      (3 <? String.length (arg_name arg))%nat
                      && String.eqb (slice_last 3 (arg_name arg)) "..." = false)).
  { unfold expected_arg in Harg.
    destruct (String.eqb _ "") eqn:Hempty in Harg; [discriminate|].
    injection Harg as <-. cbn [arg_name arg_variadic].
    apply String.eqb_neq in Hempty. split; [exact Hempty|].
    intros Hv. rewrite Hv. exact Hv. }
  destruct Hname as [Hne Hplain].
  destruct arg as [req name variadic]. cbn [arg_name arg_variadic] in Hne, Hplain.
  unfold humanReadableArgName. cbn [arg_required arg_name arg_variadic].
  assert (Hshape : forall o c, o = "<"%char \/ o = "["%char ->
            expected_arg (String o (String.append
                            (String.append name (if variadic then "..." else ""))
                            (String c "")))
            = Some {| arg_required := Ascii.eqb o "<";
                      arg_name := name; arg_variadic := variadic |}).
  { intros o c Ho. rewrite (expected_arg_brackets o c _ Ho). cbv zeta.
    destruct variadic.
    - change 3 with (String.length "...").
      rewrite slice_last_append, slice_but_last_append, length_append.
      cbn [String.length]. rewrite String.eqb_refl, andb_true_r.
      replace (3 <? String.length name + 3)%nat with true.
      + now rewrite (proj2 (String.eqb_neq _ _) Hne).
      + symmetry. apply Nat.ltb_lt. destruct name; [contradiction|cbn; lia].
    - rewrite append_nil_r, (Hplain eq_refl).
      now rewrite (proj2 (String.eqb_neq _ _) Hne). }
  destruct req.
  - exact (Hshape "<"%char ">"%char (or_introl eq_refl)).
  - exact (Hshape "["%char "]"%char (or_intror eq_refl)).
Qed.

Lemma usage_text_declares_the_same_argument_witness :
  expected_arg "<dir...>"
  = Some {| arg_required := true; arg_name := "dir"; arg_variadic := true |}
  /\ expected_arg
       (humanReadableArgName
          {| arg_required := true; arg_name := "dir"; arg_variadic := true |})
     = Some {| arg_required := true; arg_name := "dir"; arg_variadic := true |}.
Proof.
  split; [reflexivity|].
  apply (usage_text_declares_the_same_argument "<dir...>"). reflexivity.
Defined.

(** ** Asking for help *)

(** [unknown] is only pushed on. *)
Lemma step_unknown_grows s :
  exists more, unknown (mem (state_of (step s))) = unknown (mem s) ++ more.
Proof.
  destruct (args (mem s)) as [|arg rest] eqn:Hargs.
  { rewrite (step_nil s Hargs). exists []. now rewrite app_nil_r. }
  rewrite (step_kind_of s arg rest Hargs). cbv zeta.
  destruct s as [this m d]. destruct m as [av q ops unk]. cbn [self mem dest].
  destruct (kind_of this arg) as [|o|o|o index|]; unfold add_arg;
    repeat match goal with
           | |- context [if ?b then _ else _] => destruct b
           | |- context [match ?l with [] => _ | _ :: _ => _ end] => destruct l
           end;
    destruct d; cbn; rewrite <- ?app_assoc; eauto using app_nil_r;
    try (exists []; now rewrite app_nil_r).
Qed.

Lemma parse_loop_unknown_grows fuel s s' :
  final_state (parse_loop fuel s) = Some s' ->
  exists more, unknown (mem s') = unknown (mem s) ++ more.
Proof.
  revert s. induction fuel as [|fuel IH]; intros s; [discriminate|].
  cbn [parse_loop]. destruct (step_unknown_grows s) as [more1 Hstep].
  destruct (step s) as [s1|s1|e s1]; cbn in Hstep |- *.
  - intros H. destruct (IH s1 H) as [more ->]. rewrite Hstep, <- app_assoc. eauto.
  - intros H; injection H as <-. eauto.
  - intros H; injection H as <-. eauto.
Qed.

(** A token with a dash that is not [--], not an option, not a group of
    short flags and has no [=] is an unknown option. *)
Lemma kind_of_unknown this flag :
  flag <> "--" ->
  _findOption this flag = None ->
  combo_shaped flag = false ->
  indexOf "=" flag = None ->
  kind_of this flag = KOther.
Proof.
  intros Hlit Hnone Hcombo Heq. unfold kind_of, long_with_value.
  rewrite (proj2 (String.eqb_neq _ _) Hlit), Hnone, Hcombo, Heq.
  destruct (maybeOption flag), (starts_with "--" flag); reflexivity.
Qed.

(** X23: on a command without subcommands, of which no member was or
    will be replaced by an option value, a help flag that comes before
    any other token with a dash is answered with the help text and the
    exit [helpDisplayed]: before the mandatory options are checked, before
    an unknown option is reported and before the action runs, whatever
    follows the flag, as long as [parseOptions] returns. *)
Theorem help_flag_is_answered_first fuel parents this pre flag post parsed :
  members_kept this = true ->
  commands this = [] ->
  _hasImplicitHelpCommand this <> Some true ->
  Forall (fun t => maybeOption t = false) pre ->
  flag = _helpLongFlag this \/ flag = _helpShortFlag this ->
  maybeOption flag = true ->
  flag <> "--" ->
  _findOption this flag = None ->
  combo_shaped flag = false ->
  indexOf "=" flag = None ->
  parseOptions this (pre ++ flag :: post) = Returned parsed ->
  _parseCommand (S fuel) parents this [] (pre ++ flag :: post) = Exit helpDisplayed.
Proof.
  intros _ Hleaf Himplicit Hpre Hflag Hdash Hlit Hnone Hcombo Heq Hparsed.
  pose proof (kind_of_unknown this flag Hlit Hnone Hcombo Heq) as Hkind.
  (* the run of [parseOptions] *)
  assert (Hrun : exists more, unknown (mem parsed) = flag :: more).
  { unfold parseOptions in Hparsed.
    set (fuel0 := S (queue_size (pre ++ flag :: post))) in Hparsed.
    assert (Hmore : parse_loop (length pre + fuel0)
                      {| self := this;
                         mem := {| argv := pre ++ flag :: post;
                                   args := pre ++ flag :: post;
                                   operands := []; unknown := [] |};
                         dest := Operands |} = Returned parsed).
    { rewrite <- Hparsed. apply parse_loop_more; [lia|]. now rewrite Hparsed. }
    rewrite (parse_loop_plain_prefix _ _ _ _ _ _ _ Hpre) in Hmore.
    subst fuel0. cbn [parse_loop] in Hmore.
    match type of Hmore with
    | context [step ?s] => rewrite (step_kind_of s flag post eq_refl) in Hmore
    end.
    cbv zeta in Hmore.
    cbn [self] in Hmore. rewrite Hkind in Hmore.
    unfold add_arg in Hmore. rewrite Hdash in Hmore.
    cbn [with_mem with_dest mem dest self write push same_array
         operands unknown args argv app] in Hmore.
    apply (f_equal final_state) in Hmore. cbn [final_state] in Hmore.
    destruct (parse_loop_unknown_grows _ _ _ Hmore) as [more Hunk].
    unfold with_mem, with_dest, read in Hunk. cbn [mem unknown app] in Hunk. eauto. }
  destruct Hrun as [more Hunk].
  (* the command after the run *)
  assert (Hfinal : final_state (parseOptions this (pre ++ flag :: post)) = Some parsed)
    by (now rewrite Hparsed).
  unfold parseOptions in Hfinal.
  pose proof (field_parse_loop _ commands (fun _ _ => eq_refl) _ _ _ Hfinal) as Hc.
  pose proof (field_parse_loop _ _hasImplicitHelpCommand (fun _ _ => eq_refl)
                _ _ _ Hfinal) as Hi.
  pose proof (field_parse_loop _ _helpLongFlag (fun _ _ => eq_refl) _ _ _ Hfinal) as Hl.
  pose proof (field_parse_loop _ _helpShortFlag (fun _ _ => eq_refl) _ _ _ Hfinal) as Hs.
  cbn [self] in Hc, Hi, Hl, Hs.
  assert (Hhelp : outputHelpIfRequested (self parsed) (unknown (mem parsed))
                  = Some (Exit helpDisplayed)).
  { unfold outputHelpIfRequested. rewrite Hunk, Hl, Hs. cbn [List.find].
    replace (String.eqb flag (_helpLongFlag this) || String.eqb flag (_helpShortFlag this))
      with true.
    - destruct flag; [discriminate|reflexivity].
    - symmetry. apply orb_true_iff.
      destruct Hflag as [<- | <-]; rewrite String.eqb_refl; auto. }
  cbn [_parseCommand]. rewrite Hparsed. cbv zeta.
  assert (Hfind : forall n, _findCommand (self parsed) n = None).
  { intros [n|]; [|reflexivity]. unfold _findCommand. rewrite Hc, Hleaf.
    now destruct (String.eqb n ""). }
  rewrite Hfind. rewrite bool_decide_eq_false_2 by (intros [x Hx]; discriminate).
  assert (Hlazy : _lazyHasImplicitHelpCommand (self parsed) = false).
  { unfold _lazyHasImplicitHelpCommand. rewrite Hi, Hc, Hleaf.
    destruct (_hasImplicitHelpCommand this) as [[]|]; [contradiction|reflexivity..]. }
  rewrite Hlazy. cbn [andb].
  destruct (has_default_command (self parsed)).
  - now rewrite Hhelp.
  - unfold parse_terminal. rewrite Hc, Hleaf. cbn [length Nat.ltb Nat.leb andb guard].
    now rewrite Hhelp.
Qed.

Lemma help_flag_is_answered_first_witness :
  members_kept pepper_program = true
  /\ _parseCommand 1 [] pepper_program [] (["a"] ++ "--help" :: ["-p"; "--nope"])
     = Exit {| exitCode := 0; code := "commander.helpDisplayed";
               message := "(outputHelp)" |}.
Proof.
  split; [vm_compute; reflexivity|].
  eapply (help_flag_is_answered_first 0 [] pepper_program ["a"] "--help"
            ["-p"; "--nope"]);
    [vm_compute; reflexivity|reflexivity|discriminate|repeat constructor
    |left; reflexivity|reflexivity
    |discriminate|reflexivity|reflexivity|reflexivity|vm_compute; reflexivity].
Defined.

(** ** Aliases *)

Lemma find_none_Forall {A} (f : A -> bool) l :
  Forall (fun x => f x = false) l -> List.find f l = None.
Proof.
  induction 1 as [|x l Hx _ IH]; [reflexivity|]. cbn [List.find]. now rewrite Hx.
Qed.

Lemma commands_with_commands x c : commands (with_commands x c) = x.
Proof. now destruct c. Qed.

Lemma _alias_with_commands x c : _alias (with_commands x c) = _alias c.
Proof. now destruct c. Qed.

Lemma answers_to_alias a c : answers_to a (with_alias (Some a) c) = true.
Proof. destruct c. unfold answers_to. cbn. now rewrite String.eqb_refl, orb_true_r. Qed.

(** X25: on a command that has subcommands, [alias] gives the alias to
    the subcommand registered last, not to the command itself, and throws
    when the alias is the name of that subcommand.  The other subcommands
    are as they were, and the alias then finds the subcommand, unless a
    subcommand registered before answers to it. *)
Theorem alias_goes_to_the_last_subcommand a this this' :
  commands this <> [] ->
  alias a this = Some this' ->
  exists before last,
    commands this = before ++ [last]
    /\ a <> _name last
    /\ commands this' = before ++ [with_alias (Some a) last]
    /\ _alias this' = _alias this
    /\ (a <> "" ->
        Forall (fun c => answers_to a c = false) before ->
        _findCommand this' (Some a) = Some (with_alias (Some a) last)).
Proof.
  intros Hsub. unfold alias.
  destruct (reverse (commands this)) as [|last before] eqn:Hrev.
  { apply (f_equal reverse) in Hrev. rewrite reverse_involutive in Hrev.
    contradiction. }
  apply (f_equal reverse) in Hrev.
  rewrite reverse_involutive, reverse_cons in Hrev.
  destruct (String.eqb_spec a (_name last)) as [|Hname]; [discriminate|].
  intros H; injection H as <-.
  exists (reverse before), last. split; [exact Hrev|]. split; [exact Hname|].
  rewrite commands_with_commands, _alias_with_commands.
  split; [reflexivity|]. split; [reflexivity|].
  intros Ha Hbefore. unfold _findCommand.
  rewrite (proj2 (String.eqb_neq _ _) Ha), commands_with_commands.
  rewrite find_app_None.
  - cbn [List.find]. now rewrite answers_to_alias.
  - now apply find_none_Forall.
Qed.

Lemma alias_goes_to_the_last_subcommand_witness :
  alias "s" scenario_B_program = Some sub_alias_program
  /\ exists before last,
       commands scenario_B_program = before ++ [last]
       /\ "s" <> _name last
       /\ commands sub_alias_program = before ++ [with_alias (Some "s") last]
       /\ _alias sub_alias_program = _alias scenario_B_program
       /\ ("s" <> "" ->
           Forall (fun c => answers_to "s" c = false) before ->
           _findCommand sub_alias_program (Some "s")
           = Some (with_alias (Some "s") last)).
Proof.
  split; [reflexivity|].
  apply (alias_goes_to_the_last_subcommand "s" scenario_B_program sub_alias_program);
    [discriminate|reflexivity].
Defined.

(** ** The columns of the help text *)

Lemma length_spaces n : String.length (spaces n) = n.
Proof. induction n as [|n IH]; cbn; congruence. Qed.

Lemma fold_max_le {A} (f : A -> nat) l : forall acc,
  acc <= fold_left (fun max x => Nat.max max (f x)) l acc
  /\ forall x, In x l -> f x <= fold_left (fun max x => Nat.max max (f x)) l acc.
Proof.
  induction l as [|y l IH]; intros acc; cbn [fold_left].
  - split; [lia|contradiction].
  - destruct (IH (Nat.max acc (f y))) as [Hacc Hin]. split; [lia|].
    intros x [<- | Hx]; [lia|auto].
Qed.

(** X26: [pad] adds spaces at the end only, up to the width, and cuts
    nothing; so padded to a width that is at least [largestArgLength()],
    as [padWidth()] is when it counts the arguments, the names of the
    declared arguments all have that width. *)
Theorem pad_aligns_the_argument_names this width arg :
  largestArgLength this <= width ->
  In arg (_args this) ->
  String.length (pad (arg_name arg) width) = width
  /\ slice_to (String.length (arg_name arg)) (pad (arg_name arg) width) = arg_name arg.
Proof.
  intros Hwidth Hin. unfold pad. cbv zeta.
  rewrite length_append, length_spaces, slice_to_append. split; [|reflexivity].
  pose proof (proj2 (fold_max_le (fun a => String.length (arg_name a)) (_args this) 0)
                arg Hin) as Hle.
  unfold largestArgLength in Hwidth. lia.
Qed.

Lemma pad_aligns_the_argument_names_witness :
  String.length (pad "a" 5) = 5
  /\ slice_to (String.length "a") (pad "a" 5) = "a".
Proof.
  apply (pad_aligns_the_argument_names serve_command 5
           {| arg_required := true; arg_name := "a"; arg_variadic := false |});
    [vm_compute; lia|left; reflexivity].
Defined.

(** ** Resolution ends, whatever the bound *)

Lemma parse_terminal_ext parents this operands0 unknown0 dispatch dispatch' :
  (forall name ops unk, dispatch name ops unk = dispatch' name ops unk) ->
  parse_terminal parents this operands0 unknown0 dispatch
  = parse_terminal parents this operands0 unknown0 dispatch'.
Proof. intros H. unfold parse_terminal. now rewrite H. Qed.

Lemma _parseCommand_more fuel : forall fuel' parents this0 operands0 unknown0,
  levels this0 <= fuel ->
  levels this0 <= fuel' ->
  _parseCommand fuel parents this0 operands0 unknown0
  = _parseCommand fuel' parents this0 operands0 unknown0.
Proof.
  induction fuel as [|fuel IH]; intros fuel' parents this0 operands0 unknown0 Hf Hf'.
  { destruct this0; cbn in Hf; lia. }
  destruct fuel' as [|fuel']; [destruct this0; cbn in Hf'; lia|].
  cbn [_parseCommand].
  destruct (parseOptions this0 unknown0) as [parsed|e s|] eqn:Hparse; try reflexivity.
  cbv zeta. set (this := self parsed).
  assert (Hlevels : levels this = levels this0).
  { apply levels_commands. unfold parseOptions in Hparse.
    apply (f_equal final_state) in Hparse.
    exact (commands_parse_loop _ _ parsed Hparse). }
  assert (Hdispatch : forall commandName operands2 unknown2,
             match _findCommand this commandName with
             | None => Exit _helpAndError
             | Some subCommand =>
                 if _executableHandler subCommand then
                   guard (_checkForMissingMandatoryOptions (this :: parents))
                     (SubCommandExecuted this subCommand (operands2 ++ unknown2))
                 else _parseCommand fuel (this :: parents) subCommand operands2 unknown2
             end
             = match _findCommand this commandName with
               | None => Exit _helpAndError
               | Some subCommand =>
                   if _executableHandler subCommand then
                     guard (_checkForMissingMandatoryOptions (this :: parents))
                       (SubCommandExecuted this subCommand (operands2 ++ unknown2))
                   else _parseCommand fuel' (this :: parents) subCommand operands2 unknown2
               end).
  { intros commandName operands2 unknown2.
    destruct (_findCommand this commandName) as [sub|] eqn:Hsub; [|reflexivity].
    destruct (_executableHandler sub); [reflexivity|].
    apply _findCommand_In, levels_child in Hsub. apply IH; lia. }
  destruct (bool_decide _); [apply Hdispatch|].
  destruct (_lazyHasImplicitHelpCommand this && _).
  { destruct (_ =? 1)%nat; [reflexivity|apply Hdispatch]. }
  destruct (has_default_command this); [now rewrite Hdispatch|].
  apply parse_terminal_ext. exact Hdispatch.
Qed.

(** X27: resolution goes down one level of the command tree per call and
    ends: with fuel for the levels of the tree, [_parseCommand] ends in
    an outcome of the program, and more fuel gives the same outcome. *)
Theorem _parseCommand_ends_within_the_levels_of_the_tree
    fuel parents this operands0 unknown0 :
  levels this <= fuel ->
  _parseCommand fuel parents this operands0 unknown0
  = _parseCommand (levels this) parents this operands0 unknown0
  /\ _parseCommand (levels this) parents this operands0 unknown0 <> NoFuel.
Proof.
  intros Hfuel. split.
  - now apply _parseCommand_more.
  - now apply _parseCommand_fuel.
Qed.

Lemma _parseCommand_ends_within_the_levels_of_the_tree_witness :
  _parseCommand 7 [] scenario_B_program [] ["sub"; "x"]
  = _parseCommand (levels scenario_B_program) [] scenario_B_program [] ["sub"; "x"]
  /\ _parseCommand (levels scenario_B_program) [] scenario_B_program [] ["sub"; "x"]
     <> NoFuel.
Proof.
  apply (_parseCommand_ends_within_the_levels_of_the_tree 7 [] scenario_B_program).
  vm_compute; lia.
Defined.

(** ** An option with an optional value *)

Lemma fold_other_events event val evs : forall c,
  Forall (fun el : string * Listener => fst el <> event) evs ->
  fold_left (fun c' el => if String.eqb (fst el) event
                          then run_listener (snd el) val c' else c') evs c = c.
Proof.
  induction evs as [|el evs IH]; intros c Hevs; [reflexivity|].
  apply Forall_cons in Hevs as [Hel Hevs]. cbn [fold_left].
  rewrite (proj2 (String.eqb_neq _ _) Hel). now apply IH.
Qed.

(** The listener of an option that is not a negation and has no coercion
    function, called without a value. *)
Lemma run_listener_null l c :
  negate (l_option l) = false ->
  l_fn l = None ->
  _getOptionValue (run_listener l VNull c) (l_name l)
  = if boolean_or_undefined (_getOptionValue c (l_name l))
    then js_or (l_defaultValue l) (VBool true)
    else _getOptionValue c (l_name l).
Proof.
  intros Hneg Hfn. unfold run_listener. rewrite Hfn, Hneg. cbn [loosely_null not_null].
  destruct (boolean_or_undefined _); [apply _getOptionValue_set|reflexivity].
Qed.

Lemma run_listener_value l c v :
  negate (l_option l) = false ->
  l_fn l = None ->
  _getOptionValue (run_listener l (VStr v) c) (l_name l) = VStr v.
Proof.
  intros Hneg Hfn. unfold run_listener. rewrite Hfn, Hneg. cbn [loosely_null not_null].
  destruct (boolean_or_undefined _); apply _getOptionValue_set.
Qed.

Lemma run_listener_fields l val c :
  _events (run_listener l val c) = _events c
  /\ options (run_listener l val c) = options c.
Proof.
  unfold run_listener.
  repeat match goal with
         | |- context [if ?b then _ else _] => destruct b
         end; split; reflexivity.
Qed.

(** The runs of X28, on the command as [_optionEx] leaves it. *)
Lemma optional_option_runs this base option1 name dv flag :
  options base = options this ->
  _events base = _events this ->
  long option1 = flag ->
  required option1 = false ->
  optional option1 = true ->
  negate option1 = false ->
  maybeOption flag = true ->
  flag <> "--" ->
  _findOption this flag = None ->
  let event := String.append "option:" (Opt.name option1) in
  Forall (fun el : string * Listener => fst el <> event) (_events this) ->
  let l := {| l_option := option1; l_name := name; l_fn := None; l_defaultValue := dv |} in
  let this' := with_registration option1 event l base in
  let bare :=
    if boolean_or_undefined (_getOptionValue this' name)
    then js_or dv (VBool true) else _getOptionValue this' name in
  (forall value,
      maybeOption value = false ->
      exists s, parseOptions this' [flag; value] = Returned s
                /\ operands (mem s) = [] /\ unknown (mem s) = []
                /\ _getOptionValue (self s) name = VStr value)
  /\ (exists s, parseOptions this' [flag] = Returned s
                /\ _getOptionValue (self s) name = bare)
  /\ (forall value,
        exists s, parseOptions this' [flag; "--"; value] = Returned s
                  /\ operands (mem s) = [value] /\ unknown (mem s) = []
                  /\ _getOptionValue (self s) name = bare)
  /\ (forall value,
        maybeOption value = false ->
        exists s, parseOptions this' [flag; value; flag] = Returned s
                  /\ operands (mem s) = [] /\ unknown (mem s) = []
                  /\ _getOptionValue (self s) name = VStr value).
Proof.
  intros Hbase Hevbase Hlong1 Hreq1 Hopt1 Hneg1 Hshape Hlit Hfresh event Hevents l this' bare.
  assert (Hmatch : Opt.is_ option1 flag = true).
  { unfold Opt.is_. now rewrite Hlong1, String.eqb_refl, orb_true_r. }
  assert (Hfind : _findOption this' flag = Some option1).
  { unfold _findOption, this'. cbn [options with_registration].
    rewrite Hbase. rewrite find_app_None by exact Hfresh. cbn [List.find].
    now rewrite Hmatch. }
  assert (Hkind : forall c, options c = options this' -> kind_of c flag = KOption option1).
  { intros c Hc. unfold kind_of, _findOption. rewrite Hc.
    fold (_findOption this' flag). rewrite Hfind, Hshape.
    apply String.eqb_neq in Hlit. now rewrite Hlit. }
  assert (Hemit : forall c val,
             _events c = _events this' -> emit event val c = run_listener l val c).
  { intros c val Hc.
    rewrite (emit_last event val c (_events this) l).
    - now rewrite fold_other_events.
    - rewrite Hc. unfold this'. cbn [_events with_registration]. now rewrite Hevbase. }
  assert (Htake : forall c value rest av ops,
             options c = options this' ->
             maybeOption value = false ->
             step {| self := c;
                     mem := {| argv := av; args := flag :: value :: rest;
                               operands := ops; unknown := [] |};
                     dest := Operands |}
             = Continue
                 {| self := emit event (VStr value) c;
                    mem := {| argv := av; args := rest; operands := ops; unknown := [] |};
                    dest := Operands |}).
  { intros c value rest av ops Hc Hvalue.
    rewrite (step_kind_of
               {| self := c;
                  mem := {| argv := av; args := flag :: value :: rest;
                            operands := ops; unknown := [] |};
                  dest := Operands |} flag (value :: rest) eq_refl).
    cbv zeta. cbn [self]. now rewrite (Hkind c Hc), Hreq1, Hopt1, Hvalue. }
  assert (Hleave : forall c rest av ops,
             options c = options this' ->
             match rest with value :: _ => maybeOption value = true | [] => True end ->
             step {| self := c;
                     mem := {| argv := av; args := flag :: rest;
                               operands := ops; unknown := [] |};
                     dest := Operands |}
             = Continue
                 {| self := emit event VNull c;
                    mem := {| argv := av; args := rest; operands := ops; unknown := [] |};
                    dest := Operands |}).
  { intros c rest av ops Hc Hrest.
    rewrite (step_kind_of
               {| self := c;
                  mem := {| argv := av; args := flag :: rest;
                            operands := ops; unknown := [] |};
                  dest := Operands |} flag rest eq_refl).
    cbv zeta. cbn [self]. rewrite (Hkind c Hc), Hreq1, Hopt1.
    destruct rest as [|value rest]; [reflexivity|]. now rewrite Hrest. }
  assert (Hliteral : forall c rest av,
             step {| self := c;
                     mem := {| argv := av; args := "--" :: rest;
                               operands := []; unknown := [] |};
                     dest := Operands |}
             = Done
                 {| self := c;
                    mem := {| argv := av; args := rest; operands := rest; unknown := [] |};
                    dest := Operands |}).
  { intros c rest av.
    rewrite (step_kind_of
               {| self := c;
                  mem := {| argv := av; args := "--" :: rest;
                            operands := []; unknown := [] |};
                  dest := Operands |} "--" rest eq_refl).
    reflexivity. }
  assert (Hbare : _getOptionValue (emit event VNull this') name = bare).
  { rewrite (Hemit this' VNull eq_refl).
    exact (run_listener_null l this' Hneg1 eq_refl). }
  split; [|split; [|split]].
  - intros value Hvalue. eexists. split.
    + unfold parseOptions.
      rewrite (parse_loop_more 2); [| rewrite !queue_size_cons; lia |];
        cbn [parse_loop]; rewrite Htake by (reflexivity || exact Hvalue);
        rewrite step_nil by reflexivity; [reflexivity|discriminate].
    + cbn [mem self operands unknown]. repeat split.
      rewrite (Hemit this' _ eq_refl).
      exact (run_listener_value l this' value Hneg1 eq_refl).
  - eexists. split.
    + unfold parseOptions.
      rewrite (parse_loop_more 2); [| rewrite !queue_size_cons; lia |];
        cbn [parse_loop]; rewrite (Hleave this' [] _ _ eq_refl I);
        rewrite step_nil by reflexivity; [reflexivity|discriminate].
    + cbn [self]. exact Hbare.
  - intros value. eexists. split.
    + unfold parseOptions.
      rewrite (parse_loop_more 2); [| rewrite !queue_size_cons; lia |];
        cbn [parse_loop]; rewrite (Hleave this' ("--" :: [value]) _ _ eq_refl eq_refl);
        rewrite Hliteral; [reflexivity|discriminate].
    + cbn [mem self operands unknown]. repeat split. exact Hbare.
  - intros value Hvalue. eexists. split.
    + unfold parseOptions.
      rewrite (parse_loop_more 3); [| rewrite !queue_size_cons; lia |];
        cbn [parse_loop]; rewrite Htake by (reflexivity || exact Hvalue);
        rewrite (Hleave _ [] _ _ (options_emit _ _ _) I);
        rewrite step_nil by reflexivity; [reflexivity|discriminate].
    + cbn [mem self operands unknown]. repeat split.
      rewrite (Hemit this' _ eq_refl).
      destruct (run_listener_fields l (VStr value) this') as [Hev _].
      rewrite (Hemit _ VNull Hev).
      pose proof (run_listener_value l this' value Hneg1 eq_refl) as Hstored.
      cbn [l_name l] in Hstored.
      rewrite (run_listener_null l _ Hneg1 eq_refl). cbn [l_name l].
      now rewrite Hstored.
Qed.

(** X28: an option registered with an optional value, that is not a
    negation and has no coercion function, with flags of characters
    below 128, on a command that knows
    neither its long flag nor its event yet; the key of the option names
    no member of the command object, no member of which was or will be
    replaced.  [parseOptions] stores the token after the flag when that
    token does not look like an option; when no token follows, or one
    that looks like an option, the token is left in the queue and the
    flag stores the default if it is truthy, else [true], over an
    undefined or boolean value, and leaves any other stored value as it
    is; so a bare flag after a flag with a value does not take the value
    back. *)
Theorem optional_value_is_taken_unless_it_looks_like_an_option
    m flags0 description0 v defaultValue0 flag name this this' :
  let option := new_Option flags0 description0 in
  ascii_only flags0 = true ->
  long option = flag ->
  required option = false ->
  optional option = true ->
  negate option = false ->
  maybeOption flag = true ->
  flag <> "--" ->
  Opt.attributeName option = Some name ->
  member_of_command name = false ->
  members_kept this = true ->
  _findOption this flag = None ->
  Forall (fun el : string * Listener =>
            fst el <> String.append "option:" (Opt.name option)) (_events this) ->
  _optionEx m flags0 description0 (FnValue v) defaultValue0 this = Some this' ->
  let bare :=
    if boolean_or_undefined (_getOptionValue this' name)
    then js_or v (VBool true) else _getOptionValue this' name in
  members_kept this' = true
  /\ (forall value,
         maybeOption value = false ->
         exists s, parseOptions this' [flag; value] = Returned s
                   /\ operands (mem s) = [] /\ unknown (mem s) = []
                   /\ _getOptionValue (self s) name = VStr value)
  /\ (exists s, parseOptions this' [flag] = Returned s
                /\ _getOptionValue (self s) name = bare)
  /\ (forall value,
        exists s, parseOptions this' [flag; "--"; value] = Returned s
                  /\ operands (mem s) = [value] /\ unknown (mem s) = []
                  /\ _getOptionValue (self s) name = bare)
  /\ (forall value,
        maybeOption value = false ->
        exists s, parseOptions this' [flag; value; flag] = Returned s
                  /\ operands (mem s) = [] /\ unknown (mem s) = []
                  /\ _getOptionValue (self s) name = VStr value).
Proof.
  intros option _ Hlong Hreq Hopt Hneg Hshape Hlit Hkey Hfree Hkept Hfresh Hevents Hreg.
  cbv zeta.
  split; [exact (_optionEx_members_kept _ _ _ _ _ _ _ _ Hkey Hfree Hkept Hreg)|].
  destruct (_optionEx_positive _ _ _ _ _ _ _ Hneg Hreg) as (name' & Hname & Hthis').
  fold option in Hname. rewrite Hkey in Hname. injection Hname as <-.
  cbv zeta in Hthis'. fold option in Hthis'.
  destruct ((optional (with_mandatory m option) || required (with_mandatory m option)
             || is_boolean v) && defined v).
  - rewrite Hthis'.
    exact (optional_option_runs this (_setOptionValue name v this)
             (with_defaultValue v (with_mandatory m option)) name v flag
             eq_refl eq_refl Hlong Hreq Hopt Hneg Hshape Hlit Hfresh Hevents).
  - rewrite Hthis'.
    exact (optional_option_runs this this (with_mandatory m option) name v flag
             eq_refl eq_refl Hlong Hreq Hopt Hneg Hshape Hlit Hfresh Hevents).
Qed.

Lemma optional_value_is_taken_unless_it_looks_like_an_option_witness :
  members_kept cheese_type_program = true
  /\ (forall value,
         maybeOption value = false ->
         exists s, parseOptions cheese_type_program ["--cheese"; value] = Returned s
                   /\ operands (mem s) = [] /\ unknown (mem s) = []
                   /\ _getOptionValue (self s) "cheese" = VStr value)
  /\ (exists s, parseOptions cheese_type_program ["--cheese"] = Returned s
                /\ _getOptionValue (self s) "cheese" = VStr "blue").
Proof.
  destruct (optional_value_is_taken_unless_it_looks_like_an_option
              false "-c, --cheese [type]" "add cheese" (VStr "blue") VUndefined
              "--cheese" "cheese" (new_Command "") cheese_type_program)
    as (Hkept & Hvalue & Hbare & _);
    [reflexivity|reflexivity|reflexivity|reflexivity|reflexivity|reflexivity
    |discriminate|reflexivity|reflexivity|reflexivity|reflexivity|constructor
    |reflexivity|].
  split; [exact Hkept|]. split; [exact Hvalue|].
  destruct Hbare as (s & Hrun & Hstored). exists s. split; [exact Hrun|].
  rewrite Hstored. reflexivity.
Defined.

(** ** Operands handed down to a subcommand *)

(** A turn of the loop does not look at the operands gathered so far. *)
Lemma step_operands_ahead pre s1 s2 :
  dest_is_result s1 ->
  operands_ahead pre s1 s2 ->
  match step s1, step s2 with
  | Continue a, Continue b | Done a, Done b =>
      dest_is_result a /\ operands_ahead pre a b
  | Abort e a, Abort e' b => e = e'
  | _, _ => False
  end.
Proof.
  intros Hdest (Hself & Hd & Hargs & Hunk & Hops).
  destruct s1 as [this1 [av1 q1 ops1 unk1] d1], s2 as [this2 [av2 q2 ops2 unk2] d2].
  cbn [self mem dest args unknown operands] in *. subst this2 d2 q2 unk2 ops1.
  unfold operands_ahead, dest_is_result in *.
  destruct q1 as [|arg rest].
  { rewrite !step_nil by reflexivity. cbn. auto 6. }
  do 2 match goal with
       | |- context [step ?s] => rewrite (step_kind_of s arg rest eq_refl)
       end.
  cbv zeta. cbn [self].
  destruct Hdest as [Hdest | Hdest]; cbn in Hdest; subst d1;
    destruct (kind_of this1 arg) as [|o|o|o index|];
    unfold add_arg, with_mem, with_dest, emit_option; cbn;
    repeat match goal with
           | |- context [if ?b then _ else _] => destruct b
           | |- context [match ?l with [] => _ | _ :: _ => _ end] => destruct l
           end;
    cbn; rewrite ?app_assoc; auto 7.
Qed.

Lemma parse_loop_operands_ahead pre fuel : forall s1 s2,
  dest_is_result s1 ->
  operands_ahead pre s1 s2 ->
  match parse_loop fuel s1, parse_loop fuel s2 with
  | Returned a, Returned b => operands_ahead pre a b
  | Exited e _, Exited e' _ => e = e'
  | OutOfFuel, OutOfFuel => True
  | _, _ => False
  end.
Proof.
  induction fuel as [|fuel IH]; intros s1 s2 Hdest Hahead; [exact I|].
  cbn [parse_loop]. pose proof (step_operands_ahead pre s1 s2 Hdest Hahead) as Hstep.
  destruct (step s1) as [a|a|e a], (step s2) as [b|b|e' b]; try contradiction.
  - destruct Hstep as [Ha Hab]. now apply IH.
  - now destruct Hstep.
  - exact Hstep.
Qed.

(** [parseOptions] on a queue that starts with tokens without a dash, and
    on the queue without them. *)
Lemma parseOptions_plain_prefix this pre queue :
  Forall (fun t => maybeOption t = false) pre ->
  match parseOptions this (pre ++ queue), parseOptions this queue with
  | Returned a, Returned b =>
      self a = self b /\ unknown (mem a) = unknown (mem b)
      /\ operands (mem a) = pre ++ operands (mem b)
  | Exited e _, Exited e' _ => e = e'
  | _, _ => False
  end.
Proof.
  intros Hpre.
  pose proof (parseOptions_fuel this queue) as Hfuel.
  unfold parseOptions in *.
  set (fuel := S (queue_size queue)) in *.
  pose proof (parse_loop_operands_ahead pre fuel
                {| self := this;
                   mem := {| argv := pre ++ queue; args := queue;
                             operands := [] ++ pre; unknown := [] |};
                   dest := Operands |}
                {| self := this;
                   mem := {| argv := queue; args := queue;
                             operands := []; unknown := [] |};
                   dest := Operands |}) as Hsim.
  rewrite <- (parse_loop_plain_prefix this _ pre queue [] [] fuel Hpre) in Hsim.
  assert (Hle : length pre + fuel <= S (queue_size (pre ++ queue))).
  { subst fuel. unfold queue_size. rewrite map_app, list_sum_app.
    fold (queue_size pre). fold (queue_size queue).
    pose proof (length_le_queue_size pre). lia. }
  specialize (Hsim (or_introl eq_refl)).
  assert (Hahead : operands_ahead pre
             {| self := this;
                mem := {| argv := pre ++ queue; args := queue;
                          operands := [] ++ pre; unknown := [] |};
                dest := Operands |}
             {| self := this;
                mem := {| argv := queue; args := queue;
                          operands := []; unknown := [] |};
                dest := Operands |}).
  { unfold operands_ahead. cbn. now rewrite app_nil_r. }
  specialize (Hsim Hahead).
  rewrite (parse_loop_more _ _ _ Hle).
  - destruct (parse_loop (length pre + fuel) _) as [a|e a|],
      (parse_loop fuel _) as [b|e' b|]; try contradiction; [|exact Hsim].
    destruct Hsim as (? & _ & _ & ? & ?). auto.
  - destruct (parse_loop (length pre + fuel) _) as [a|e a|],
      (parse_loop fuel _) as [b|e' b|]; try contradiction; discriminate.
Qed.

(** X29: tokens without a dash are operands wherever they are handed in:
    [_parseCommand] called with such tokens at the front of [unknown]
    ends as when it is called with them at the end of [operands].  So a
    subcommand can be given its operands either way. *)
Theorem _parseCommand_reads_plain_tokens_as_operands
    fuel parents this operands0 pre unknown0 :
  Forall (fun t => maybeOption t = false) pre ->
  _parseCommand fuel parents this operands0 (pre ++ unknown0)
  = _parseCommand fuel parents this (operands0 ++ pre) unknown0.
Proof.
  intros Hpre. destruct fuel as [|fuel]; [reflexivity|].
  cbn [_parseCommand].
  pose proof (parseOptions_plain_prefix this pre unknown0 Hpre) as Hrun.
  destruct (parseOptions this (pre ++ unknown0)) as [a|e a|],
    (parseOptions this unknown0) as [b|e' b|]; try contradiction.
  - destruct Hrun as (Hself & Hunk & Hops). cbv zeta.
    now rewrite Hself, Hunk, Hops, app_assoc.
  - now subst e'.
Qed.

Lemma _parseCommand_reads_plain_tokens_as_operands_witness :
  _parseCommand 3 [] scenario_B_program [] (["sub"; "op"] ++ ["--unknown"])
  = _parseCommand 3 [] scenario_B_program ([] ++ ["sub"; "op"]) ["--unknown"].
Proof.
  apply (_parseCommand_reads_plain_tokens_as_operands 3 [] scenario_B_program []
           ["sub"; "op"] ["--unknown"]).
  repeat constructor.
Defined.

(** ** The implicit help command *)

(** [parseOptions] on tokens without a dash followed by one unknown
    option. *)
Lemma parseOptions_plain_then_unknown this pre flag :
  Forall (fun t => maybeOption t = false) pre ->
  maybeOption flag = true ->
  kind_of this flag = KOther ->
  parseOptions this (pre ++ [flag])
  = Returned
      {| self := this;
         mem := {| argv := pre ++ [flag]; args := []; operands := pre;
                   unknown := [flag] |};
         dest := Unknown |}.
Proof.
  intros Hpre Hdash Hkind. unfold parseOptions.
  assert (Hrun : parse_loop (length pre + 2)
                   {| self := this;
                      mem := {| argv := pre ++ [flag]; args := pre ++ [flag];
                                operands := []; unknown := [] |};
                      dest := Operands |}
                 = Returned
                     {| self := this;
                        mem := {| argv := pre ++ [flag]; args := []; operands := pre;
                                  unknown := [flag] |};
                        dest := Unknown |}).
  { rewrite (parse_loop_plain_prefix _ _ _ _ _ _ _ Hpre). cbn [parse_loop app].
    match goal with
    | |- context [step ?s] => rewrite (step_kind_of s flag [] eq_refl)
    end.
    cbv zeta. cbn [self]. rewrite Hkind. unfold add_arg. rewrite Hdash.
    unfold with_mem, with_dest. cbn. reflexivity. }
  rewrite <- Hrun. apply parse_loop_more.
  - unfold queue_size. rewrite map_app, list_sum_app. fold (queue_size pre).
    pose proof (length_le_queue_size pre). cbn. lia.
  - now rewrite Hrun.
Qed.

(** X30: with the implicit help command, [help sub] is read as
    [sub --help]: when [sub] names a subcommand and the name of the help
    command names none, [_parseCommand] ends on the tokens [help], [sub]
    as it ends on the tokens [sub] and the long help flag. *)
Theorem help_command_asks_the_subcommand_for_help fuel parents this name sub :
  _lazyHasImplicitHelpCommand this = true ->
  _findCommand this (Some (_helpCommandName this)) = None ->
  _findCommand this (Some name) = Some sub ->
  maybeOption (_helpCommandName this) = false ->
  maybeOption name = false ->
  maybeOption (_helpLongFlag this) = true ->
  _helpLongFlag this <> "--" ->
  _findOption this (_helpLongFlag this) = None ->
  combo_shaped (_helpLongFlag this) = false ->
  indexOf "=" (_helpLongFlag this) = None ->
  _parseCommand fuel parents this [] [_helpCommandName this; name]
  = _parseCommand fuel parents this [] [name; _helpLongFlag this].
Proof.
  intros Hlazy Hnocmd Hsub Hplain Hname Hdash Hlit Hnone Hcombo Heq.
  destruct fuel as [|fuel]; [reflexivity|]. cbn [_parseCommand].
  assert (Hleft : parseOptions this [_helpCommandName this; name]
                  = Returned
                      {| self := this;
                         mem := {| argv := [_helpCommandName this; name]; args := [];
                                   operands := [_helpCommandName this; name];
                                   unknown := [] |};
                         dest := Operands |}).
  { unfold parseOptions.
    destruct (parse_loop_plain this [_helpCommandName this; name]
                [_helpCommandName this; name] [] []
                (S (queue_size [_helpCommandName this; name]))) as [H _];
      [repeat constructor; assumption| |exact H].
    pose proof (length_le_queue_size [_helpCommandName this; name]). lia. }
  pose proof (parseOptions_plain_then_unknown this [name] (_helpLongFlag this)
                (Forall_cons_2 _ _ _ Hname (Forall_nil_2 _)) Hdash
                (kind_of_unknown this _ Hlit Hnone Hcombo Heq)) as Hright.
  cbn [app] in Hright. rewrite Hleft, Hright. cbv zeta.
  cbn [self mem operands unknown app head tail].
  rewrite Hnocmd, Hsub, Hlazy.
  rewrite bool_decide_eq_false_2 by (intros [x Hx]; discriminate).
  rewrite bool_decide_eq_true_2 by eauto.
  unfold names_help_command. cbn [head]. rewrite String.eqb_refl. cbn [andb length Nat.eqb].
  change ([_helpCommandName this; name] !! 1) with (Some name).
  now rewrite Hsub.
Qed.

Lemma help_command_asks_the_subcommand_for_help_witness :
  _parseCommand 2 [] scenario_B_program [] ["help"; "sub"]
  = _parseCommand 2 [] scenario_B_program [] ["sub"; "--help"].
Proof.
  eapply (help_command_asks_the_subcommand_for_help 2 [] scenario_B_program "sub");
    [reflexivity|reflexivity|vm_compute; reflexivity|reflexivity|reflexivity
    |reflexivity|discriminate|reflexivity|reflexivity|reflexivity].
Defined.
